(** * The index registry of vg: registration, dependency order, planning,
      execution and clean-up

    A shallow embedding of [src/index_registry.cpp] (class [IndexRegistry],
    [IndexFile], [IndexRecipe]) together with the properties the
    specification states about it.

    Conventions of the embedding.
    - A [size_t] counter that the code increments and decrements is a
      binary natural [N] with the 64-bit wrap-around written out ([incr],
      [decr]).  A [size_t] that indexes a vector (a position in the
      dependency order, the ordinal of a recipe) is a [nat]; the only
      arithmetic on those is [++] on a recipe ordinal.
    - A [const IndexFile*] stored in a recipe is the identifier it was
      looked up with: the registry owns every [IndexFile] and never drops
      one, so dereferencing the pointer is a look-up in the current
      registry.
    - A [vector] used as a stack ([stack], [plan_path]) is a list whose head
      is the [back()] of the vector.
    - Loops that are not structurally recursive take fuel; [None] means
      that the fuel ran out, never that the program failed. *)

From Stdlib Require Import Ascii.
From stdpp Require Import gmap strings list fin_maps sorting relations pretty.

(** ** Outcomes of a call *)

Inductive exn : Type :=
| out_of_range
| InsufficientInputException (target : string) (inputs : list string).

(** [Exits] is [exit(1)] after a diagnostic, [Aborts] a failed [assert],
    [Undefined] an access outside a vector through [operator[]]. *)
Inductive outcome (A : Type) : Type :=
| Returns (a : A)
| Throws (e : exn)
| Exits
| Aborts
| Undefined.
Arguments Returns {A} a.
Arguments Throws {A} e.
Arguments Exits {A}.
Arguments Aborts {A}.
Arguments Undefined {A}.

Definition obind {A B} (m : outcome A) (k : A → outcome B) : outcome B :=
  match m with
  | Returns a => k a
  | Throws e => Throws e
  | Exits => Exits
  | Aborts => Aborts
  | Undefined => Undefined
  end.

(** A computation that may also run out of fuel. *)
Definition fbind {A B} (m : option (outcome A)) (k : A → option (outcome B))
  : option (outcome B) :=
  match m with
  | None => None
  | Some (Returns a) => k a
  | Some (Throws e) => Some (Throws e)
  | Some Exits => Some Exits
  | Some Aborts => Some Aborts
  | Some Undefined => Some Undefined
  end.

Notation "'let*' x := m 'in' k" := (obind m (λ x, k))
  (at level 10, x pattern, m at level 100, k at level 200).
Notation "'let+' x := m 'in' k" := (fbind m (λ x, k))
  (at level 10, x pattern, m at level 100, k at level 200).

(** ** [size_t] counters *)

Definition size_max : N := 2 ^ 64.
Definition incr (c : N) : N := ((c + 1) mod size_max)%N.
Definition decr (c : N) : N := ((c + size_max - 1) mod size_max)%N.

(** ** Data model *)

(** The executor of a recipe is opaque.  It reads the file names of its
    inputs, the prefix and the suffix, and either returns the names of the
    files it made or ends the process ([None]). *)
Record IndexRecipe : Type := {
  inputs : list string;
  exec : list (list string) → string → string → option (list string)
}.

(** Modelled from the spec: the class declaration of [IndexFile] is in
    [index_registry.hpp], which is not among the sources; the fields are
    those the member functions in [index_registry.cpp] read and write, and a
    new artifact is "unprovided" ([provided_directly] false, no file
    names, no recipes). *)
Record IndexFile : Type := {
  identifier : string;
  suffix : string;
  filenames : list string;
  provided_directly : bool;
  recipes : list IndexRecipe
}.

(** Modelled from the spec: the class declaration of [IndexRegistry] is in
    the same missing header.  [registry] maps identifiers to the artifacts
    it owns; the list gives the order in which the container is iterated,
    and every entry is keyed by its own [identifier]. *)
Record IndexRegistry : Type := {
  registry : list IndexFile;
  registered_suffixes : list string;
  output_prefix : string;
  keep_intermediates : bool
}.

Definition new_IndexFile (id suf : string) : IndexFile :=
  {| identifier := id; suffix := suf; filenames := [];
     provided_directly := false; recipes := [] |}.

Definition is_finished (f : IndexFile) : bool :=
  negb (bool_decide (filenames f = [])).

Definition was_provided_directly (f : IndexFile) : bool := provided_directly f.

Definition IndexFile_provide (fns : list string) (f : IndexFile) : IndexFile :=
  {| identifier := identifier f; suffix := suffix f; filenames := fns;
     provided_directly := true; recipes := recipes f |}.

Definition add_recipe (ins : list string)
    (ex : list (list string) → string → string → option (list string))
    (f : IndexFile) : IndexFile :=
  {| identifier := identifier f; suffix := suffix f; filenames := filenames f;
     provided_directly := provided_directly f;
     recipes := recipes f ++ [ {| inputs := ins; exec := ex |} ] |}.

Definition set_filenames (fns : list string) (f : IndexFile) : IndexFile :=
  {| identifier := identifier f; suffix := suffix f; filenames := fns;
     provided_directly := provided_directly f; recipes := recipes f |}.

Definition with_registry (r : IndexRegistry) (fs : list IndexFile) : IndexRegistry :=
  {| registry := fs; registered_suffixes := registered_suffixes r;
     output_prefix := output_prefix r; keep_intermediates := keep_intermediates r |}.

(** ** Registry operations *)

Definition identifiers (fs : list IndexFile) : list string := identifier <$> fs.

(** [registry.at(identifier)] together with the slot the entry sits in. *)
Definition find_index (fs : list IndexFile) (id : string) : option (nat * IndexFile) :=
  list_find (λ f, identifier f = id) fs.

Definition get_index (fs : list IndexFile) (id : string) : outcome IndexFile :=
  match find_index fs id with
  | Some (_, f) => Returns f
  | None => Throws out_of_range
  end.

Definition set_prefix (r : IndexRegistry) (prefix : string) : IndexRegistry :=
  {| registry := registry r; registered_suffixes := registered_suffixes r;
     output_prefix := prefix; keep_intermediates := keep_intermediates r |}.

Definition set_intermediate_file_keeping (r : IndexRegistry) (keep : bool) : IndexRegistry :=
  {| registry := registry r; registered_suffixes := registered_suffixes r;
     output_prefix := output_prefix r; keep_intermediates := keep |}.

(** The new entry is put last in the iteration order.  Where the container
    really puts it depends on the container declared in
    [index_registry.hpp]; the results on [dependency_order] and [make_plan]
    below hold for every list, hence for every iteration order. *)
Definition register_index (r : IndexRegistry) (id suf : string) : outcome IndexRegistry :=
  if bool_decide (id = "") then Exits
  else if bool_decide (suf = "") then Exits
  else if bool_decide (id ∈ identifiers (registry r)) then Exits
  else if bool_decide (suf ∈ registered_suffixes r) then Exits
  else Returns {| registry := registry r ++ [new_IndexFile id suf];
                  registered_suffixes := suf :: registered_suffixes r;
                  output_prefix := output_prefix r;
                  keep_intermediates := keep_intermediates r |}.

Definition provide (r : IndexRegistry) (id : string) (fns : list string)
  : outcome IndexRegistry :=
  match find_index (registry r) id with
  | None => Throws out_of_range
  | Some (i, _) => Returns (with_registry r (alter (IndexFile_provide fns) i (registry r)))
  end.

(** [provide(identifier, filename)], the overload for one file name. *)
Definition provide1 (r : IndexRegistry) (id : string) (fn : string)
  : outcome IndexRegistry :=
  provide r id [fn].

Definition completed_indexes (fs : list IndexFile) : list string :=
  identifiers (filter (λ f, is_finished f = true) fs).

(** The loop of [register_recipe] that resolves the input identifiers. *)
Fixpoint resolve_inputs (fs : list IndexFile) (input_identifiers : list string)
  : outcome (list string) :=
  match input_identifiers with
  | [] => Returns []
  | i :: rest =>
      let* f := get_index fs i in
      let* ins := resolve_inputs fs rest in
      Returns (identifier f :: ins)
  end.

Definition register_recipe (r : IndexRegistry) (id : string)
    (input_identifiers : list string)
    (ex : list (list string) → string → string → option (list string))
  : outcome IndexRegistry :=
  let* ins := resolve_inputs (registry r) input_identifiers in
  match find_index (registry r) id with
  | None => Throws out_of_range
  | Some (i, _) => Returns (with_registry r (alter (add_recipe ins ex) i (registry r)))
  end.

(** ** Dependency order (Kahn's algorithm) *)

(** The loop [m[ids[i]] = i] that fills [graph_idx] and, in [make_plan],
    [dep_order_of_identifier]. *)
Fixpoint index_table (ids : list string) (i : nat) (m : gmap string nat)
  : gmap string nat :=
  match ids with
  | [] => m
  | id :: rest => index_table rest (S i) (<[id := i]> m)
  end.

(** [m[id]] on an [unordered_map<string, size_t>]: a key that is not there
    is inserted with the value 0, which leaves every other look-up as it
    was. *)
Definition subscript (m : gmap string nat) (id : string) : nat :=
  default 0 (m !! id).

Definition push_back_edge (i : nat) (adj : list nat) : list nat := adj ++ [i].

(** The edges that artifact number [i] contributes: one from each input of
    each of its recipes. *)
Definition push_edges (graph_idx : gmap string nat) (i : nat) (f : IndexFile)
    (g : list (list nat)) : list (list nat) :=
  foldl (λ g rc,
           foldl (λ g input, alter (push_back_edge i) (subscript graph_idx input) g)
                 g (inputs rc))
        g (recipes f).

Fixpoint build_graph (fs : list IndexFile) (graph_idx : gmap string nat)
    (graph_label : list string) (i : nat) (g : list (list nat))
  : outcome (list (list nat)) :=
  match graph_label with
  | [] => Returns g
  | l :: rest =>
      let* f := get_index fs l in
      build_graph fs graph_idx rest (S i) (push_edges graph_idx i f g)
  end.

(** [std::unique] on a vector: of each run of equal neighbours the first
    is kept. *)
Fixpoint unique (l : list nat) : list nat :=
  match l with
  | [] => []
  | x :: t =>
      match t with
      | [] => [x]
      | y :: _ => if bool_decide (x = y) then unique t else x :: unique t
      end
  end.

Definition deduplicate (g : list (list nat)) : list (list nat) :=
  (λ adj, unique (merge_sort (≤) adj)) <$> g.

Definition count_in_degree (g : list (list nat)) : list N :=
  foldl (λ d adj, foldl (λ d i, alter incr i d) d adj)
        (replicate (length g) 0%N) g.

Fixpoint initial_stack (i : nat) (in_degree : list N) (stack : list nat) : list nat :=
  match in_degree with
  | [] => stack
  | d :: rest =>
      initial_stack (S i) rest (if bool_decide (d = 0%N) then i :: stack else stack)
  end.

(** One turn of [for (size_t j : dependency_graph[i])]. *)
Definition visit (st : list N * list nat) (j : nat) : list N * list nat :=
  let d := alter decr j st.1 in
  if bool_decide (d !! j = Some 0%N) then (d, j :: st.2) else (d, st.2).

(** The [while (!stack.empty())] loop.  Every subscript in it is in range
    (lemma [kahn_inv_step] below), so the default of the look-up is never
    taken. *)
Fixpoint kahn_loop (fuel : nat) (g : list (list nat)) (in_degree : list N)
    (stack order : list nat) : option (list nat) :=
  match fuel with
  | 0 => None
  | S fuel' =>
      match stack with
      | [] => Some order
      | i :: stack' =>
          let st := foldl visit (in_degree, stack') (default [] (g !! i)) in
          kahn_loop fuel' g st.1 st.2 (order ++ [i])
      end
  end.

Definition dependency_order (fuel : nat) (fs : list IndexFile)
  : option (outcome (list string)) :=
  let graph_label := identifiers fs in
  let graph_idx := index_table graph_label 0 ∅ in
  let+ g0 := Some (build_graph fs graph_idx graph_label 0
                               (replicate (length graph_label) [])) in
  let dependency_graph := deduplicate g0 in
  let in_degree := count_in_degree dependency_graph in
  match kahn_loop fuel dependency_graph in_degree (initial_stack 0 in_degree []) [] with
  | None => None
  | Some order =>
      if bool_decide (length order ≠ length dependency_graph) then Some Exits
      else Some (Returns ((λ i, default "" (graph_label !! i)) <$> order))
  end.

(** ** The planner *)

(** An entry of [plan_path]: the position of an artifact in the dependency
    order, the position of its lowest level requester, the ordinal of the
    recipe selected. *)
Definition path_elem : Type := nat * nat * nat.

(** [queue.begin()] of a [map] ordered by [greater<size_t>]: the entry
    with the greatest key. *)
Definition later_key {V} (kv : nat * V) (acc : option (nat * V)) : option (nat * V) :=
  match acc with
  | None => Some kv
  | Some kv' => if decide (kv'.1 < kv.1) then Some kv else acc
  end.

Definition queue_begin {V} (q : gmap nat V) : option (nat * V) :=
  foldr later_key None (map_to_list q).

(** One turn of the loop that requests the inputs of a recipe. *)
Definition enqueue (requester : nat) (q : gmap nat (nat * N)) (dep_order : nat)
  : gmap nat (nat * N) :=
  match q !! dep_order with
  | None => <[dep_order := (requester, 1%N)]> q
  | Some (r, c) => <[dep_order := (r, incr c)]> q
  end.

(** One turn of the loop that withdraws the requests of a recipe. *)
Definition release (q : gmap nat (nat * N)) (input_dep_order : nat)
  : gmap nat (nat * N) :=
  match q !! input_dep_order with
  | None => q
  | Some (r, c) =>
      if bool_decide (decr c = 0%N) then delete input_dep_order q
      else <[input_dep_order := (r, decr c)]> q
  end.

Section search.
Context (fs : list IndexFile) (identifier_order : list string)
        (dep_order_of_identifier : gmap string nat).

(** [get_index(identifier_order[p])]. *)
Definition index_at (p : nat) : outcome IndexFile :=
  match identifier_order !! p with
  | None => Undefined
  | Some id => get_index fs id
  end.

Definition input_positions (recipe : IndexRecipe) : list nat :=
  subscript dep_order_of_identifier <$> inputs recipe.

(** "this index was using a recipe, we need to update its dependencies
    that are currently in the queue". *)
Definition drop_requests (e : path_elem) (q : gmap nat (nat * N))
  : outcome (gmap nat (nat * N)) :=
  let* index := index_at e.1.1 in
  if negb (is_finished index) && bool_decide (e.2 < length (recipes index)) then
    match recipes index !! e.2 with
    | None => Throws out_of_range
    | Some recipe => Returns (foldl release q (input_positions recipe))
    end
  else Returns q.

(** "remove items off the plan path until we get to the index that
    requested this one". *)
Fixpoint unwind (requester : nat) (plan_path : list path_elem)
    (q : gmap nat (nat * N)) : outcome (list path_elem * gmap nat (nat * N)) :=
  match plan_path with
  | [] => Returns ([], q)
  | e :: rest =>
      if bool_decide (e.1.1 ≠ requester) then
        let* q' := drop_requests e q in
        unwind requester rest q'
      else Returns (plan_path, q)
  end.

(** The loop that runs while "there are no remaining recipes to build
    the last index in the plan". *)
Fixpoint backtrack (fuel : nat) (plan_path : list path_elem)
    (q : gmap nat (nat * N))
  : option (outcome (list path_elem * gmap nat (nat * N))) :=
  match fuel with
  | 0 => None
  | S fuel' =>
      match plan_path with
      | [] => Some (Returns ([], q))
      | e :: _ =>
          let+ index := Some (index_at e.1.1) in
          if bool_decide (e.2 = length (recipes index)) then
            let+ st := Some (unwind e.1.2 plan_path q) in
            match st.1 with
            | [] => backtrack fuel' [] st.2
            | e1 :: rest1 =>
                let+ q2 := Some (drop_requests e1 st.2) in
                backtrack fuel' ((e1.1, S e1.2) :: rest1) q2
            end
          else Some (Returns (plan_path, q))
      end
  end.

(** The loop [while (!queue.empty())] for one end product. *)
Fixpoint search (fuel : nat) (plan_path : list path_elem)
    (q : gmap nat (nat * N)) : option (outcome (list path_elem)) :=
  match fuel with
  | 0 => None
  | S fuel' =>
      match queue_begin q with
      | None => Some (Returns plan_path)
      | Some it =>
          let plan_path := (it.1, it.2.1, 0) :: plan_path in
          let q := delete it.1 q in
          let+ index := Some (index_at it.1) in
          if is_finished index then search fuel' plan_path q
          else
            match recipes index with
            | recipe :: _ =>
                search fuel' plan_path (foldl (enqueue it.1) q (input_positions recipe))
            | [] =>
                let+ st := backtrack fuel' plan_path q in
                match st.1 with
                | [] => search fuel' [] st.2
                | e :: _ =>
                    let+ index' := Some (index_at e.1.1) in
                    match recipes index' !! e.2 with
                    | None => Some Undefined
                    | Some recipe =>
                        search fuel' st.1
                               (foldl (enqueue e.1.1) st.2 (input_positions recipe))
                    end
                end
            end
      end
  end.

(** [plan_elements.emplace(...)] on an [unordered_set]; the list keeps
    the elements in the order they came in. *)
Definition emplace (e : string * nat) (s : list (string * nat)) : list (string * nat) :=
  if bool_decide (e ∈ s) then s else s ++ [e].

(** "record the elements of this plan"; the path is walked from its
    first entry. *)
Fixpoint record_path (path : list path_elem) (plan_elements : list (string * nat))
  : outcome (list (string * nat)) :=
  match path with
  | [] => Returns plan_elements
  | e :: rest =>
      match identifier_order !! e.1.1 with
      | None => Undefined
      | Some id => record_path rest (emplace (id, e.2) plan_elements)
      end
  end.

(** The loop over the end products. *)
Fixpoint plan_products (fuel : nat) (end_products : list string)
    (plan_elements : list (string * nat)) : option (outcome (list (string * nat))) :=
  match end_products with
  | [] => Some (Returns plan_elements)
  | product :: rest =>
      let+ plan_path :=
        search fuel []
               {[ subscript dep_order_of_identifier product
                  := (length identifier_order, 1%N) ]} in
      match plan_path with
      | [] => Some (Throws (InsufficientInputException product (completed_indexes fs)))
      | _ :: _ =>
          let+ plan_elements := Some (record_path (reverse plan_path) plan_elements) in
          plan_products fuel rest plan_elements
      end
  end.

(** "and remove the input data from the plan". *)
Fixpoint remove_finished (plan : list (string * nat)) : outcome (list (string * nat)) :=
  match plan with
  | [] => Returns []
  | recipe_choice :: rest =>
      let* index := get_index fs recipe_choice.1 in
      let* rest' := remove_finished rest in
      Returns (if is_finished index then rest' else recipe_choice :: rest')
  end.

Definition dep_le (a b : string * nat) : Prop :=
  subscript dep_order_of_identifier a.1 ≤ subscript dep_order_of_identifier b.1.

Global Instance dep_le_dec : RelDecision dep_le.
Proof. intros a b. unfold dep_le. apply _. Defined.
End search.

Section make_plan.
(** The order in which the [unordered_set] [plan_elements] hands out its
    elements is not fixed by the program; [hash_order] stands for it. *)
Context (hash_order : list (string * nat) → list (string * nat)).

(** The elements of the plan before the finished artifacts are removed:
    "full plan including provided files". *)
Definition full_plan (fuel : nat) (fs : list IndexFile) (end_products : list string)
  : option (outcome (list (string * nat))) :=
  let+ identifier_order := dependency_order fuel fs in
  let dep_order_of_identifier := index_table identifier_order 0 ∅ in
  let+ plan_elements :=
    plan_products fs identifier_order dep_order_of_identifier fuel end_products [] in
  Some (Returns (merge_sort (dep_le dep_order_of_identifier) (hash_order plan_elements))).

Definition make_plan (fuel : nat) (fs : list IndexFile) (end_products : list string)
  : option (outcome (list (string * nat))) :=
  let+ plan := full_plan fuel fs end_products in
  Some (remove_finished fs plan).
End make_plan.

(** ** Execution and clean-up *)

(** "checks if an index is neither directly requested or provided as
    input". *)
Definition is_intermediate (identifiers : list string) (index : IndexFile) : bool :=
  if was_provided_directly index then false
  else bool_decide (identifier index ∉ identifiers).

(** The loop of [execute_recipe] that asserts that every input is finished;
    it also collects the file names the executor will read.  An input is a
    pointer into the registry, so the look-up cannot miss. *)
Fixpoint check_inputs (fs : list IndexFile) (ins : list string)
  : outcome (list (list string)) :=
  match ins with
  | [] => Returns []
  | input :: rest =>
      match find_index fs input with
      | None => Undefined
      | Some (_, f) =>
          if is_finished f then
            let* names := check_inputs fs rest in Returns (filenames f :: names)
          else Aborts
      end
  end.

(** [get_index(id)->execute_recipe(recipe_priority, prefix)]. *)
Definition execute_recipe (fs : list IndexFile) (id : string) (recipe_priority : nat)
    (prefix : string) : outcome (list IndexFile) :=
  match find_index fs id with
  | None => Throws out_of_range
  | Some (i, f) =>
      match recipes f !! recipe_priority with
      | None => Aborts
      | Some recipe =>
          let* names := check_inputs fs (inputs recipe) in
          match exec recipe names prefix (suffix f) with
          | None => Exits
          | Some fns => Returns (alter (set_filenames fns) i fs)
          end
      end
  end.

(** The union of the file names of the artifacts that are not
    intermediate. *)
Definition to_keep (identifiers : list string) (fs : list IndexFile) : list string :=
  mjoin (filenames <$> filter (λ f, is_intermediate identifiers f = false) fs).

(** The calls of [std::remove], in the order they are made. *)
Definition clean_up (identifiers : list string) (fs : list IndexFile) : list string :=
  filter (λ fn, fn ∉ to_keep identifiers fs) (mjoin (filenames <$> fs)).

Section make_indexes.
Context (hash_order : list (string * nat) → list (string * nat)).
(** [temp_file::get_dir()] and [sha1sum] are provided by the host. *)
Context (temp_dir : string) (sha1sum : string → string).

Definition step_prefix (r : IndexRegistry) (identifiers : list string)
    (fs : list IndexFile) (id : string) : outcome string :=
  let* index := get_index fs id in
  Returns (if keep_intermediates r || negb (is_intermediate identifiers index)
           then output_prefix r
           else temp_dir +:+ "/" +:+ sha1sum (identifier index)).

(** "execute the plan". *)
Fixpoint run_plan (r : IndexRegistry) (identifiers : list string)
    (plan : list (string * nat)) (fs : list IndexFile) : outcome (list IndexFile) :=
  match plan with
  | [] => Returns fs
  | step :: rest =>
      let* index_prefix := step_prefix r identifiers fs step.1 in
      let* fs' := execute_recipe fs step.1 step.2 index_prefix in
      run_plan r identifiers rest fs'
  end.

(** The result is the registry after the call and the files removed. *)
Definition make_indexes (fuel : nat) (r : IndexRegistry) (identifiers : list string)
  : option (outcome (IndexRegistry * list string)) :=
  let+ plan := make_plan hash_order fuel (registry r) identifiers in
  let+ fs' := Some (run_plan r identifiers plan (registry r)) in
  Some (Returns (with_registry r fs',
                 if keep_intermediates r then [] else clean_up identifiers fs')).
End make_indexes.

(** ** The recipe graph in DOT *)

(** [endl], and the character that opens and closes a string literal. *)
Definition endl : string := String "010"%char "".
Definition dquote : string := String "034"%char "".

(** [std::to_string] on a [size_t]. *)
Definition to_string (n : N) : string := pretty n.

(** [index_to_dot_id[id]] on an [unordered_map<string, string>]: a key
    that is not there reads as the empty string. *)
Definition dot_id_of (index_to_dot_id : gmap string string) (id : string) : string :=
  default "" (index_to_dot_id !! id).

(** What is written to the stream is kept as a list of statements, one
    for each [endl], each statement being the list of the operands of [<<]
    before that [endl]. *)
Definition flush (statements : list (list string)) : string :=
  foldr (λ statement text, foldr String.append (endl +:+ text) statement) "" statements.

Section to_dot.
Context (targets : list string) (plan : list (string * nat)).

(** The style of the box of an artifact. *)
Definition index_style (index_file : IndexFile) : list string :=
  if is_finished index_file then
    [" style=" +:+ dquote +:+ "filled,bold" +:+ dquote +:+ " fillcolor=lightgray"]
  else if bool_decide (identifier index_file ∈ targets) then
    [" style=" +:+ dquote +:+ "filled,bold" +:+ dquote +:+ " fillcolor=lightblue"]
  else if bool_decide (identifier index_file ∈ plan.*1) then [" style=bold"]
  else [].

(** The first loop over the registry: it names the artifacts [I0], [I1],
    ... and writes one statement for each. *)
Fixpoint dot_indexes (fs : list IndexFile) (index_idx : N)
    (index_to_dot_id : gmap string string)
  : list (list string) * gmap string string :=
  match fs with
  | [] => ([], index_to_dot_id)
  | index_file :: rest =>
      let index_to_dot_id :=
        <[identifier index_file := "I" +:+ to_string index_idx]> index_to_dot_id in
      let statement :=
        [dot_id_of index_to_dot_id (identifier index_file); "[label=" +:+ dquote;
         identifier index_file; dquote +:+ " shape=box"]
        ++ index_style index_file ++ ["];"] in
      let out := dot_indexes rest (incr index_idx) index_to_dot_id in
      (statement :: out.1, out.2)
  end.

Context (index_to_dot_id : gmap string string) (unselected_col : string).

(** The loop over the inputs of a recipe. *)
Definition dot_inputs (selected : bool) (recipe_dot_id : string) (ins : list string)
  : list (list string) :=
  (λ input,
     if selected then
       [dot_id_of index_to_dot_id input; " -> "; recipe_dot_id; "[style=bold];"]
     else
       [dot_id_of index_to_dot_id input; " -> "; recipe_dot_id; " [color=";
        unselected_col; "];"]) <$> ins.

(** The loop over the recipes of one artifact; [recipe_idx] runs on
    through the whole registry. *)
Fixpoint dot_recipes_of (id : string) (rcs : list IndexRecipe) (priority_idx : nat)
    (recipe_idx : N) : list (list string) * N :=
  match rcs with
  | [] => ([], recipe_idx)
  | recipe :: rest =>
      let recipe_dot_id := "R" +:+ to_string recipe_idx in
      let selected := bool_decide ((id, priority_idx) ∈ plan) in
      let node :=
        if selected then
          [ [recipe_dot_id; "[label=" +:+ dquote; pretty priority_idx;
             dquote +:+ " shape=circle style=bold];"];
            [recipe_dot_id; " -> "; dot_id_of index_to_dot_id id; "[style=bold];"] ]
        else
          [ [recipe_dot_id; "[label=" +:+ dquote; pretty priority_idx;
             dquote +:+ " shape=circle];"];
            [recipe_dot_id; " -> "; dot_id_of index_to_dot_id id; " [color=";
             unselected_col; "];"] ] in
      let out := dot_recipes_of id rest (S priority_idx) (incr recipe_idx) in
      (node ++ dot_inputs selected recipe_dot_id (inputs recipe) ++ out.1, out.2)
  end.

(** The second loop over the registry. *)
Fixpoint dot_recipes (fs : list IndexFile) (recipe_idx : N) : list (list string) :=
  match fs with
  | [] => []
  | index_file :: rest =>
      let out := dot_recipes_of (identifier index_file) (recipes index_file) 0 recipe_idx in
      out.1 ++ dot_recipes rest out.2
  end.
End to_dot.

Section to_dot_plan.
Context (hash_order : list (string * nat) → list (string * nat)).

(** The statements about the plan: [make_plan] is only called when there
    are targets, and of what it may raise only
    [InsufficientInputException] is caught. *)
Definition dot_plan (fuel : nat) (fs : list IndexFile) (targets : list string)
  : option (outcome (list (list string) * list (string * nat))) :=
  if bool_decide (targets = []) then Some (Returns ([], []))
  else
    match make_plan hash_order fuel fs targets with
    | None => None
    | Some (Returns plan) => Some (Returns ([], plan))
    | Some (Throws (InsufficientInputException _ _)) =>
        Some (Returns ([ ["labelloc=" +:+ dquote +:+ "t" +:+ dquote +:+ ";"];
                         ["label=" +:+ dquote +:+ "Insufficient input to create targets"
                          +:+ dquote +:+ ";"] ], []))
    | Some (Throws out_of_range) => Some (Throws out_of_range)
    | Some Exits => Some Exits
    | Some Aborts => Some Aborts
    | Some Undefined => Some Undefined
    end.

Definition to_dot_statements (fuel : nat) (fs : list IndexFile) (targets : list string)
  : option (outcome (list (list string))) :=
  let+ planned := dot_plan fuel fs targets in
  let plan := planned.2 in
  let indexes := dot_indexes targets plan fs 0 ∅ in
  let unselected_col := if bool_decide (targets = []) then "black" else "gray33" in
  Some (Returns ([ ["digraph recipegraph {"] ] ++ planned.1 ++ indexes.1
                 ++ dot_recipes plan indexes.2 unselected_col fs 0
                 ++ [ ["}"] ])).

(** [to_dot(targets)]; [to_dot()] is [to_dot] of no targets. *)
Definition to_dot (fuel : nat) (fs : list IndexFile) (targets : list string)
  : option (outcome string) :=
  let+ statements := to_dot_statements fuel fs targets in
  Some (Returns (flush statements)).
End to_dot_plan.

(** The identifiers of the nodes a list of statements declares, and the
    two ends of the arrows it draws. *)
Definition dot_nodes (statements : list (list string)) : list string :=
  omap (λ statement,
          match statement with
          | node :: label :: _ =>
              if bool_decide (label = "[label=" +:+ dquote) then Some node else None
          | _ => None
          end) statements.

Definition dot_arrows (statements : list (list string)) : list (string * string) :=
  omap (λ statement,
          match statement with
          | tail :: arrow :: head :: _ =>
              if bool_decide (arrow = " -> ") then Some (tail, head) else None
          | _ => None
          end) statements.

(** The names [to_dot] gives to the artifact in slot [i] of the registry
    and to the recipe number [j]. *)
Definition index_node (i : nat) : string := "I" +:+ to_string (N.of_nat i).
Definition recipe_node (j : nat) : string := "R" +:+ to_string (N.of_nat j).

(** ** The registry of the VG indexes *)

Section VGIndexes.
(** The executors are the lambdas of [get_vg_index_registry]; they work
    on graphs and files and are opaque here.  Recipes that call the same
    meta-recipe with the same arguments share an executor. *)
Context (alias_phased_vcf strip_variant_paths construct_from_gfa
         xg_from_gfa xg_from_vg node_mapping_from_vg gbwt_from_phased_vcf
         prune_graph construct_gcsa
         : list (list string) → string → string → option (list string)).
Context (construct_with_constructor
         : bool → list (list string) → string → string → option (list string)).
(** The settings of a registry that has just been constructed. *)
Context (initial_prefix : string) (initial_keep : bool).

Definition get_vg_index_registry : outcome IndexRegistry :=
  let registry := {| registry := []; registered_suffixes := [];
                     output_prefix := initial_prefix;
                     keep_intermediates := initial_keep |} in
  (* Data files *)
  let* registry := register_index registry "Reference FASTA" "fasta" in
  let* registry := register_index registry "VCF" "vcf" in
  let* registry := register_index registry "Phased VCF" "phased.vcf" in
  let* registry := register_index registry "Insertion Sequence FASTA" "insertions.fasta" in
  let* registry := register_index registry "Reference GFA" "gfa" in
  (* True indexes *)
  let* registry := register_index registry "VG + Variant Paths" "varpaths.vg" in
  let* registry := register_index registry "VG" "vg" in
  let* registry := register_index registry "XG" "xg" in
  let* registry := register_index registry "GBWT" "gbwt" in
  let* registry := register_index registry "NodeMapping" "mapping" in
  let* registry := register_index registry "Pruned VG" "pruned.vg" in
  let* registry :=
    register_index registry "Haplotype-Pruned VG + NodeMapping" "haplopruned.vg" in
  let* registry := register_index registry "GCSA + LCP" "gcsa" in
  (* VCF recipes *)
  let* registry := register_recipe registry "VCF" ["Phased VCF"] alias_phased_vcf in
  (* VG recipes *)
  let* registry :=
    register_recipe registry "VG" ["VG + Variant Paths"] strip_variant_paths in
  let* registry := register_recipe registry "VG" ["Reference GFA"] construct_from_gfa in
  let* registry :=
    register_recipe registry "VG" ["Reference FASTA"; "VCF"; "Insertion Sequence FASTA"]
                    (construct_with_constructor false) in
  let* registry :=
    register_recipe registry "VG" ["Reference FASTA"; "VCF"]
                    (construct_with_constructor false) in
  let* registry :=
    register_recipe registry "VG + Variant Paths"
                    ["Reference FASTA"; "Phased VCF"; "Insertion Sequence FASTA"]
                    (construct_with_constructor true) in
  let* registry :=
    register_recipe registry "VG + Variant Paths" ["Reference FASTA"; "Phased VCF"]
                    (construct_with_constructor true) in
  (* XG recipes *)
  let* registry := register_recipe registry "XG" ["Reference GFA"] xg_from_gfa in
  let* registry := register_recipe registry "XG" ["VG"] xg_from_vg in
  (* NodeMapping recipes *)
  let* registry := register_recipe registry "NodeMapping" ["VG"] node_mapping_from_vg in
  (* GBWT recipes *)
  let* registry :=
    register_recipe registry "GBWT" ["VG + Variant Paths"; "Phased VCF"]
                    gbwt_from_phased_vcf in
  (* Pruned VG recipes *)
  let* registry := register_recipe registry "Pruned VG" ["VG"; "XG"] prune_graph in
  let* registry :=
    register_recipe registry "Haplotype-Pruned VG + NodeMapping"
                    ["VG"; "XG"; "GBWT"; "NodeMapping"] prune_graph in
  (* GCSA + LCP recipes *)
  let* registry :=
    register_recipe registry "GCSA + LCP" ["Haplotype-Pruned VG + NodeMapping"]
                    construct_gcsa in
  let* registry := register_recipe registry "GCSA + LCP" ["Pruned VG"] construct_gcsa in
  Returns registry.
End VGIndexes.

Definition get_default_map_indexes : list string := ["XG"; "GCSA + LCP"].

Definition get_default_mpmap_indexes : list string :=
  ["Spliced XG"; "Spliced Distance"; "Spliced GCSA + LCP"; "Haplotype-Transcript GBWT"].

Definition get_default_giraffe_indexes : list string :=
  ["GBWT"; "GBWTGraph"; "Distance"; "Minimizer"].

(** ** Notions the properties are stated with *)

Definition wf_registry (fs : list IndexFile) : Prop :=
  NoDup (identifiers fs) ∧
  Forall (λ f, Forall (λ rc, Forall (λ i, i ∈ identifiers fs) (inputs rc)) (recipes f)) fs.

Definition depends (fs : list IndexFile) (a b : string) : Prop :=
  ∃ f rc, f ∈ fs ∧ identifier f = b ∧ rc ∈ recipes f ∧ a ∈ inputs rc.

Definition cyclic (fs : list IndexFile) : Prop := ∃ a, tc (depends fs) a a.

Definition precedes {A} (a b : A) (l : list A) : Prop :=
  ∃ i j, l !! i = Some a ∧ l !! j = Some b ∧ i < j.

(** An artifact can be built when it is finished or when every input of
    one of its recipes can be built. *)
Inductive buildable (fs : list IndexFile) : string → Prop :=
| buildable_finished f :
    f ∈ fs → is_finished f = true → buildable fs (identifier f)
| buildable_recipe f rc :
    f ∈ fs → rc ∈ recipes f → (∀ i, i ∈ inputs rc → buildable fs i) →
    buildable fs (identifier f).

Definition max_inputs (fs : list IndexFile) : nat :=
  max_list ((λ f, max_list ((λ rc, length (inputs rc)) <$> recipes f)) <$> fs).

Definition registry_fits (fs : list IndexFile) : Prop :=
  (N.of_nat (length fs * S (max_inputs fs)) < size_max)%N.

Definition max_recipes (fs : list IndexFile) : nat :=
  max_list ((λ f, length (recipes f)) <$> fs).

(** One more than the largest value the recipe ordinal of a path entry,
    plus one, can take. *)
Definition radix (fs : list IndexFile) : nat := S (S (max_recipes fs)).

Definition occurrences (x : nat) (l : list nat) : nat :=
  length (filter (λ y, y = x) l).

(** The recipe chosen for an artifact exists unless the artifact is
    finished, and every recipe before it has an input that cannot be
    built. *)
Definition good_choice (fs : list IndexFile) (c : string * nat) : Prop :=
  ∃ f, get_index fs c.1 = Returns f
       ∧ (is_finished f = true ∨ c.2 < length (recipes f))
       ∧ (is_finished f = false → ∀ j rc, j < c.2 → recipes f !! j = Some rc →
                                          ∃ i, i ∈ inputs rc ∧ ¬ buildable fs i).

Definition still_needed (fs : list IndexFile) (c : string * nat) : Prop :=
  match get_index fs c.1 with
  | Returns f => is_finished f = false
  | _ => False
  end.

Global Instance still_needed_dec fs c : Decision (still_needed fs c).
Proof. unfold still_needed. destruct (get_index fs c.1); apply _. Defined.

(** The artifact of the choice [c] is one of [roots] or an input of the
    recipe chosen for an unfinished artifact among the choices [pe]. *)
Definition asked_for (fs : list IndexFile) (roots : list string)
    (pe : list (string * nat)) (c : string * nat) : Prop :=
  c.1 ∈ roots
  ∨ ∃ c' f rc, c' ∈ pe ∧ get_index fs c'.1 = Returns f ∧ is_finished f = false
               ∧ recipes f !! c'.2 = Some rc ∧ c.1 ∈ inputs rc.

(** What running a plan leaves of an artifact: everything but the file
    names, and those too when the artifact was finished. *)
Definition preserved (f0 f : IndexFile) : Prop :=
  identifier f = identifier f0 ∧ suffix f = suffix f0 ∧ recipes f = recipes f0
  ∧ provided_directly f = provided_directly f0
  ∧ (is_finished f0 = true → filenames f = filenames f0).

(** Two artifacts with the same identifier whose recipes have the same
    inputs. *)
Definition same_inputs (f f' : IndexFile) : Prop :=
  identifier f' = identifier f ∧ inputs <$> recipes f' = inputs <$> recipes f.

(** An artifact after some steps of a plan: same identifier and recipes,
    and finished if it was. *)
Definition advanced (f f' : IndexFile) : Prop :=
  identifier f' = identifier f ∧ recipes f' = recipes f
  ∧ (is_finished f = true → is_finished f' = true).

(** What registration guarantees: identifiers and suffixes are not empty
    and pairwise distinct, the suffixes in use are the registered ones, and
    the recipes name registered artifacts. *)
Definition registry_ok (r : IndexRegistry) : Prop :=
  wf_registry (registry r)
  ∧ NoDup (suffix <$> registry r)
  ∧ registered_suffixes r ≡ₚ suffix <$> registry r
  ∧ ∀ f, f ∈ registry r → identifier f ≠ "" ∧ suffix f ≠ "".

(** The number of recipes in a registry. *)
Definition total_recipes (fs : list IndexFile) : nat :=
  sum_list ((λ f, length (recipes f)) <$> fs).

(** The number under which [to_dot] counts the recipe of ordinal [j] of
    the artifact in slot [i]: [recipe_idx] runs through the recipes of the
    registry in iteration order. *)
Definition recipe_number (fs : list IndexFile) (i j : nat) : nat :=
  total_recipes (take i fs) + j.

(** Every executor that returns has made at least one file. *)
Definition productive (fs : list IndexFile) : Prop :=
  ∀ f rc names prefix suf fns,
    f ∈ fs → rc ∈ recipes f → exec rc names prefix suf = Some fns → fns ≠ [].

(** ** Registries used in the examples *)

(** An executor that makes one file, named after the prefix and the
    suffix. *)
Definition one_file (names : list (list string)) (prefix suf : string)
  : option (list string) :=
  Some [prefix +:+ "." +:+ suf].

Definition new_registry : IndexRegistry :=
  {| registry := []; registered_suffixes := [];
     output_prefix := "index"; keep_intermediates := false |}.

Fixpoint register_indexes (r : IndexRegistry) (ids : list string) : outcome IndexRegistry :=
  match ids with
  | [] => Returns r
  | id :: rest => let* r' := register_index r id id in register_indexes r' rest
  end.

Fixpoint register_recipes (r : IndexRegistry) (rcs : list (string * list string))
  : outcome IndexRegistry :=
  match rcs with
  | [] => Returns r
  | rc :: rest => let* r' := register_recipe r rc.1 rc.2 one_file in register_recipes r' rest
  end.

Fixpoint provide_all (r : IndexRegistry) (ids : list string) : outcome IndexRegistry :=
  match ids with
  | [] => Returns r
  | id :: rest => let* r' := provide1 r id (id +:+ ".txt") in provide_all r' rest
  end.

(** Register the artifacts [ids] (each with its identifier as suffix), then
    the recipes [rcs], then provide one file for each of [provided]. *)
Definition setup (ids : list string) (rcs : list (string * list string))
    (provided : list string) : outcome IndexRegistry :=
  let* r := register_indexes new_registry ids in
  let* r := register_recipes r rcs in
  provide_all r provided.

Definition or_new (o : outcome IndexRegistry) : IndexRegistry :=
  match o with
  | Returns r => r
  | _ => new_registry
  end.

(** [A → B → C], with [A] provided. *)
Definition chain_registry : IndexRegistry :=
  Eval cbv -[one_file] in
    or_new (setup ["A"; "B"; "C"] [("B", ["A"]); ("C", ["B"])] ["A"]).

(** [chain_registry] after [make_indexes] has built [C]. *)
Definition built_registry : IndexRegistry :=
  {| registry :=
       [ {| identifier := "A"; suffix := "A"; filenames := ["A.txt"];
            provided_directly := true; recipes := [] |};
         {| identifier := "B"; suffix := "B"; filenames := ["/tmp/sha-B.B"];
            provided_directly := false;
            recipes := [ {| inputs := ["A"]; exec := one_file |} ] |};
         {| identifier := "C"; suffix := "C"; filenames := ["index.C"];
            provided_directly := false;
            recipes := [ {| inputs := ["B"]; exec := one_file |} ] |} ];
     registered_suffixes := ["C"; "B"; "A"];
     output_prefix := "index";
     keep_intermediates := false |}.

(** [C] is made from [A], or else from [X] and [Y]; [X] and [Y] are
    provided. *)
Definition fallback_registry : IndexRegistry :=
  Eval cbv -[one_file] in
    or_new (setup ["A"; "X"; "Y"; "C"] [("C", ["A"]); ("C", ["X"; "Y"])] ["X"; "Y"]).

(** [B] is made from [A]; [C] is made from [X], which nothing provides,
    or else from [A]; [A] is provided. *)
Definition preference_registry : IndexRegistry :=
  Eval cbv -[one_file] in
    or_new (setup ["A"; "X"; "B"; "C"] [("B", ["A"]); ("C", ["X"]); ("C", ["A"])] ["A"]).

(** [T] is made from [A]; both are provided. *)
Definition provided_target_registry : IndexRegistry :=
  Eval cbv -[one_file] in
    or_new (setup ["A"; "T"] [("T", ["A"])] ["A"; "T"]).

(** [T] needs [B] and [C]; [C] is made from [Raw] and [B], or else from
    [P]; [B] is made from [P], or else from [Raw]; only [P] is provided. *)
Definition lost_input_registry : IndexRegistry :=
  Eval cbv -[one_file] in
    or_new (setup ["Raw"; "P"; "B"; "C"; "T"]
                  [("B", ["P"]); ("B", ["Raw"]); ("C", ["Raw"; "B"]); ("C", ["P"]);
                   ("T", ["B"; "C"])]
                  ["P"]).

(** [E] needs [C] and [D]; [C] is made from [Raw], which nothing provides;
    [D] is made from [Raw] and [C], or else from [P]; only [P] is
    provided. *)
Definition unbuildable_registry : IndexRegistry :=
  Eval cbv -[one_file] in
    or_new (setup ["P"; "Raw"; "C"; "D"; "E"]
                  [("C", ["Raw"]); ("D", ["Raw"; "C"]); ("D", ["P"]); ("E", ["C"; "D"])]
                  ["P"]).

(** [A] is made from [B] and [B] from [A]. *)
Definition loop_registry : IndexRegistry :=
  Eval cbv -[one_file] in
    or_new (setup ["A"; "B"] [("A", ["B"]); ("B", ["A"])] []).

(** [A → B → C], with nothing provided. *)
Definition unprovided_registry : IndexRegistry :=
  Eval cbv -[one_file] in
    or_new (setup ["A"; "B"; "C"] [("B", ["A"]); ("C", ["B"])] []).

(** The statements [to_dot] writes for [chain_registry] and the target
    [C]. *)
Definition chain_statements : list (list string) :=
  Eval vm_compute in
    match to_dot_statements id 50 (registry chain_registry) ["C"] with
    | Some (Returns statements) => statements
    | _ => []
    end.

(** A stand-in for the [sha1sum] of the host. *)
Definition name_hash (s : string) : string := "sha-" +:+ s.

Definition aborts {A} (res : option (outcome A)) : bool :=
  match res with
  | Some Aborts => true
  | _ => false
  end.

Fixpoint buildableb (fuel : nat) (fs : list IndexFile) (id : string) : bool :=
  match fuel with
  | 0 => false
  | S fuel' =>
      match find_index fs id with
      | None => false
      | Some (_, f) =>
          is_finished f
          || existsb (λ rc, forallb (buildableb fuel' fs) (inputs rc)) (recipes f)
      end
  end.

Definition returns_plan (res : option (outcome (list (string * nat))))
    (expected : list (string * nat)) : bool :=
  match res with
  | Some (Returns plan) => bool_decide (plan = expected)
  | _ => false
  end.

(** Two outcomes of [make_plan] agree when they are equal or are the same
    [InsufficientInputException] raised for the target [u] in one and for
    [v] in the other. *)
Definition agree_up_to_target {A} (u v : string) (r1 r2 : option (outcome A)) : Prop :=
  r1 = r2
  ∨ ∃ ins, r1 = Some (Throws (InsufficientInputException u ins))
           ∧ r2 = Some (Throws (InsufficientInputException v ins)).

Section reachable.
Context (hash_order : list (string * nat) → list (string * nat)).
Context (temp_dir : string) (sha1sum : string → string).

(** The registries a driver can get to through the public operations,
    when every list of file names it passes to [provide] satisfies [ok]. *)
Inductive reachable (ok : list string → Prop) : IndexRegistry → Prop :=
| reachable_new prefix keep :
    reachable ok {| registry := []; registered_suffixes := [];
                    output_prefix := prefix; keep_intermediates := keep |}
| reachable_set_prefix r prefix :
    reachable ok r → reachable ok (set_prefix r prefix)
| reachable_set_keeping r keep :
    reachable ok r → reachable ok (set_intermediate_file_keeping r keep)
| reachable_register_index r id suf r' :
    reachable ok r → register_index r id suf = Returns r' → reachable ok r'
| reachable_register_recipe r id ins ex r' :
    reachable ok r → register_recipe r id ins ex = Returns r' → reachable ok r'
| reachable_provide r id fns r' :
    reachable ok r → ok fns → provide r id fns = Returns r' → reachable ok r'
| reachable_make_indexes r ids fuel r' removed :
    reachable ok r →
    make_indexes hash_order temp_dir sha1sum fuel r ids = Some (Returns (r', removed)) →
    reachable ok r'.
End reachable.


(** * Properties *)

(** ** General facts on lists and counters *)

Lemma incr_of_nat (k : nat) :
  (N.of_nat (S k) < size_max)%N → incr (N.of_nat k) = N.of_nat (S k).
Proof. intros H. unfold incr. rewrite N.mod_small; lia. Qed.

Lemma decr_of_nat (k : nat) :
  (N.of_nat (S k) < size_max)%N → decr (N.of_nat (S k)) = N.of_nat k.
Proof.
  intros H. unfold decr.
  replace (N.of_nat (S k) + size_max - 1)%N with (N.of_nat k + 1 * size_max)%N by lia.
  rewrite N.Div0.mod_add. rewrite N.mod_small; lia.
Qed.

Lemma length_filter_agree {A} (P Q : A → Prop) `{∀ x, Decision (P x)}
    `{∀ x, Decision (Q x)} (l : list A) :
  (∀ x, x ∈ l → (P x ↔ Q x)) → length (filter P l) = length (filter Q l).
Proof.
  induction l as [|x l IH]; intros Hpq; [done|].
  rewrite !filter_cons.
  assert (P x ↔ Q x) as Hx by (apply Hpq; left).
  assert (length (filter P l) = length (filter Q l)) as Hl
    by (apply IH; intros y Hy; apply Hpq; by right).
  destruct (decide (P x)), (decide (Q x)); simpl; tauto || lia.
Qed.

Lemma length_filter_drop `{EqDecision A} (P Q : A → Prop) `{∀ x, Decision (P x)}
    `{∀ x, Decision (Q x)} (l : list A) (i : A) :
  NoDup l → i ∈ l → P i → (∀ x, x ∈ l → (Q x ↔ P x ∧ x ≠ i)) →
  S (length (filter Q l)) = length (filter P l).
Proof.
  induction l as [|x l IH]; intros Hnd Hi Hpi Hq; [by apply elem_of_nil in Hi|].
  apply NoDup_cons in Hnd as [Hx Hnd].
  rewrite !filter_cons.
  destruct (decide (x = i)) as [->|Hne].
  - assert (¬ Q i) as Hqi by (rewrite Hq; [naive_solver | left]).
    destruct (decide (P i)); [|done]. destruct (decide (Q i)); [done|]. simpl.
    f_equal. apply length_filter_agree. intros y Hy. rewrite Hq by (by right).
    split; [tauto|]. intros Hp. split; [done|]. intros ->. done.
  - apply elem_of_cons in Hi as [->|Hi]; [done|].
    assert (Q x ↔ P x) as Hqx by (rewrite Hq; [naive_solver | left]).
    assert (S (length (filter Q l)) = length (filter P l)) as Hl.
    { apply IH; auto. intros y Hy. apply Hq. by right. }
    destruct (decide (P x)), (decide (Q x)); simpl; tauto || lia.
Qed.

Lemma NoDup_bounded_length (l : list nat) (n : nat) :
  NoDup l → (∀ x, x ∈ l → x < n) → length l ≤ n.
Proof.
  intros Hnd Hb. transitivity (length (seq 0 n)); [|by rewrite length_seq].
  apply submseteq_length, NoDup_submseteq; [done|].
  intros x Hx. apply elem_of_seq. specialize (Hb x Hx). lia.
Qed.

Lemma NoDup_bounded_full (l : list nat) (n : nat) :
  NoDup l → (∀ x, x ∈ l → x < n) → length l = n → l ≡ₚ seq 0 n.
Proof.
  intros Hnd Hb Hlen. apply submseteq_length_Permutation.
  - apply NoDup_submseteq; [done|]. intros x Hx. apply elem_of_seq. specialize (Hb x Hx). lia.
  - rewrite length_seq. lia.
Qed.

Lemma not_NoDup_split (l : list nat) :
  ¬ NoDup l → ∃ l1 v l2 l3, l = l1 ++ v :: l2 ++ v :: l3.
Proof.
  induction l as [|x l IH]; intros Hnd; [destruct Hnd; constructor|].
  destruct (decide (x ∈ l)) as [Hin|Hnin].
  - apply list_elem_of_split in Hin as (l2 & l3 & ->). by exists [], x, l2, l3.
  - destruct IH as (l1 & v & l2 & l3 & ->).
    { intros Hl. apply Hnd. by constructor. }
    by exists (x :: l1), v, l2, l3.
Qed.

Lemma filter_none {A} (P : A → Prop) `{∀ x, Decision (P x)} (l : list A) :
  (∀ x, x ∈ l → ¬ P x) → filter P l = [].
Proof.
  induction l as [|x l IH]; intros Hl; [done|].
  rewrite filter_cons_False by (apply Hl; left). apply IH. intros y Hy. apply Hl. by right.
Qed.

Lemma length_filter_lookup {A} (Q : A → Prop) `{∀ x, Decision (Q x)} (d : A) (l : list A) :
  length (filter (λ i, Q (default d (l !! i))) (seq 0 (length l))) = length (filter Q l).
Proof.
  induction l as [|x l IH] using rev_ind; [done|].
  rewrite length_app. simpl. rewrite Nat.add_1_r, seq_S. simpl.
  rewrite !filter_app, !length_app. f_equal.
  - rewrite <-IH. apply length_filter_agree. intros i Hi%elem_of_seq.
    rewrite lookup_app_l by lia. done.
  - rewrite !filter_cons, !filter_nil. rewrite list_lookup_middle by done. simpl.
    by destruct (decide (Q x)).
Qed.

(** ** Kahn's loop on a graph given by adjacency lists *)

Section kahn.
Context (g : list (list nat)).
Abbreviation n := (length g).
Hypothesis g_bound : ∀ i adj j, g !! i = Some adj → j ∈ adj → j < n.
Hypothesis g_nodup : ∀ i adj, g !! i = Some adj → NoDup adj.
Hypothesis n_fits : (N.of_nat n < size_max)%N.

Definition edge (a b : nat) : Prop := b ∈ default [] (g !! a).

Global Instance edge_dec a b : Decision (edge a b).
Proof. unfold edge. apply _. Defined.

Definition preds_left (order : list nat) (j : nat) : nat :=
  length (filter (λ i, edge i j ∧ i ∉ order) (seq 0 n)).

Lemma edge_lt a b : edge a b → a < n ∧ b < n.
Proof using All.
  unfold edge. destruct (g !! a) as [adj|] eqn:E; simpl; [|by intros ?%elem_of_nil].
  intros Hb. split; [by eapply lookup_lt_Some | by eapply g_bound].
Qed.

Lemma preds_left_le order j : preds_left order j ≤ n.
Proof using All. unfold preds_left. etrans; [apply length_filter|]. by rewrite length_seq. Qed.

Lemma preds_left_zero order j :
  preds_left order j = 0 ↔ ∀ a, edge a j → a ∈ order.
Proof using All.
  unfold preds_left. split.
  - intros H%nil_length_inv a Ha.
    destruct (decide (a ∈ order)) as [|Hn]; [done|]. exfalso.
    eapply (filter_nil_not_elem_of _ _ a H); [done|].
    apply elem_of_seq. apply edge_lt in Ha. lia.
  - intros H. rewrite filter_none; [done|]. intros x _ [Hx Hn]. by apply Hn, H.
Qed.

Lemma preds_left_snoc_edge order i j :
  i ∉ order → edge i j → S (preds_left (order ++ [i]) j) = preds_left order j.
Proof using All.
  intros Hi He. unfold preds_left.
  apply (length_filter_drop _ _ _ i).
  - apply NoDup_seq.
  - apply elem_of_seq. apply edge_lt in He. lia.
  - done.
  - intros x _. rewrite elem_of_app, list_elem_of_singleton. tauto.
Qed.

Lemma preds_left_snoc_other order i j :
  ¬ edge i j → preds_left (order ++ [i]) j = preds_left order j.
Proof using All.
  intros He. unfold preds_left. apply length_filter_agree.
  intros x _. rewrite elem_of_app, list_elem_of_singleton.
  split; [tauto|]. intros [Hx Hn]. split; [done|]. intros [?| ->]; tauto.
Qed.

(** The inner loop over the successors of the node taken off the stack. *)
Lemma visit_fold (adj : list nat) (d : list N) (st : list nat) :
  NoDup adj →
  length (foldl visit (d, st) adj).1 = length d ∧
  (∀ j, (foldl visit (d, st) adj).1 !! j
        = if decide (j ∈ adj) then decr <$> d !! j else d !! j) ∧
  (∀ x, x ∈ (foldl visit (d, st) adj).2
        ↔ x ∈ st ∨ (x ∈ adj ∧ (foldl visit (d, st) adj).1 !! x = Some 0%N)) ∧
  (NoDup st → (∀ x, x ∈ adj → x ∉ st) → NoDup (foldl visit (d, st) adj).2).
Proof using All.
  revert d st. induction adj as [|j adj IH]; intros d st Hnd.
  { simpl. split_and!; [done|done|intros x; rewrite elem_of_nil; tauto|done]. }
  apply NoDup_cons in Hnd as [Hj Hnd]. simpl.
  set (d1 := alter decr j d).
  set (st1 := (visit (d, st) j).2).
  assert (visit (d, st) j = (d1, st1)) as Hv.
  { unfold st1, d1, visit. simpl. by case_bool_decide. }
  rewrite Hv. destruct (IH d1 st1 Hnd) as (Hlen & Hlk & Hmem & Hnodup).
  assert ((foldl visit (d1, st1) adj).1 !! j = d1 !! j) as Hj1.
  { rewrite Hlk. by rewrite decide_False. }
  assert (∀ x, x ∈ st1 ↔ x ∈ st ∨ (x = j ∧ d1 !! j = Some 0%N)) as Hst1.
  { intros x. unfold st1, visit. simpl. fold d1. case_bool_decide; simpl.
    - rewrite elem_of_cons. naive_solver.
    - naive_solver. }
  split_and!.
  - rewrite Hlen. unfold d1. apply length_alter.
  - intros x. rewrite Hlk. unfold d1.
    destruct (decide (x = j)) as [->|Hne].
    + rewrite decide_False by done. rewrite decide_True by left.
      apply list_lookup_alter_eq.
    + rewrite list_lookup_alter_ne by done.
      destruct (decide (x ∈ adj)).
      * rewrite decide_True; [done | by right].
      * rewrite decide_False; [done|]. rewrite elem_of_cons. tauto.
  - intros x. rewrite Hmem, Hst1, elem_of_cons. rewrite <-Hj1.
    split; [|naive_solver].
    intros [[?|[-> ?]]|[? ?]]; eauto.
  - intros Hndst Hdisj. apply Hnodup.
    + unfold st1, visit. simpl. case_bool_decide; [|done].
      apply NoDup_cons. split; [|done]. apply Hdisj. left.
    + intros x Hx. rewrite Hst1. intros [Hxs|[-> _]]; [|done].
      eapply Hdisj; [|done]. by right.
Qed.

Record kahn_inv (in_degree : list N) (stack order : list nat) : Prop := {
  ki_length : length in_degree = n;
  ki_nodup : NoDup (stack ++ order);
  ki_bound : ∀ x, x ∈ stack ++ order → x < n;
  ki_degree : ∀ j, j < n → in_degree !! j = Some (N.of_nat (preds_left order j));
  ki_ready : ∀ j, j < n → (preds_left order j = 0 ↔ j ∈ stack ++ order);
  ki_before : ∀ l1 b l2 a, order = l1 ++ b :: l2 → edge a b → a ∈ l1
}.

Lemma of_nat_fits k : k ≤ n → (N.of_nat k < size_max)%N.
Proof. lia. Qed.

Lemma kahn_inv_step d i stack order :
  kahn_inv d (i :: stack) order →
  kahn_inv (foldl visit (d, stack) (default [] (g !! i))).1
           (foldl visit (d, stack) (default [] (g !! i))).2 (order ++ [i]).
Proof using All.
  intros [Hlen Hnd Hb Hdeg Hready Hbefore].
  assert (i < n) as Hi by (apply Hb; left).
  destruct (lookup_lt_is_Some_2 g i Hi) as [adj Hadj].
  assert (NoDup adj) as Hndadj by eauto.
  rewrite Hadj. simpl.
  assert (∀ j, edge i j ↔ j ∈ adj) as Hedge.
  { intros j. unfold edge. by rewrite Hadj. }
  change ((i :: stack) ++ order) with (i :: (stack ++ order)) in *.
  apply NoDup_cons in Hnd as [Hifresh Hnd].
  assert (i ∉ order) as Hio by (intros ?; apply Hifresh, elem_of_app; by right).
  destruct (visit_fold adj d stack Hndadj) as (Hlen' & Hlk & Hmem & Hnodup).
  set (d' := (foldl visit (d, stack) adj).1) in *.
  set (st' := (foldl visit (d, stack) adj).2) in *.
  assert (∀ j, j < n → d' !! j = Some (N.of_nat (preds_left (order ++ [i]) j))) as Hdeg'.
  { intros j Hj. rewrite Hlk, (Hdeg j Hj). destruct (decide (j ∈ adj)) as [Hin|Hin].
    - rewrite <-(preds_left_snoc_edge order i j) by (by rewrite ?Hedge). simpl.
      rewrite decr_of_nat; [done|]. apply of_nat_fits.
      rewrite (preds_left_snoc_edge order i j) by (by rewrite ?Hedge).
      apply preds_left_le.
    - rewrite preds_left_snoc_other; [done|]. by rewrite Hedge. }
  assert (∀ j, j ∈ adj → preds_left order j ≠ 0) as Hpos.
  { intros j Hj. rewrite <-(preds_left_snoc_edge order i j) by (by rewrite ?Hedge). lia. }
  assert (∀ x, x ∈ st' ↔ x ∈ stack ∨ (x ∈ adj ∧ preds_left (order ++ [i]) x = 0)) as Hmem'.
  { intros x. rewrite Hmem. split; (intros [?|[Hx H0]]; [by left|right; split; [done|]]).
    - assert (x < n) as Hxn by eauto. rewrite (Hdeg' x Hxn) in H0.
      injection H0 as H0. lia.
    - assert (x < n) as Hxn by eauto. rewrite (Hdeg' x Hxn), H0. done. }
  assert (∀ x, x ∈ adj → x ∉ i :: (stack ++ order)) as Hfresh.
  { intros x Hx Hin. apply (Hpos x Hx). apply Hready; [eauto|done]. }
  constructor.
  - by rewrite Hlen'.
  - rewrite app_assoc. apply NoDup_app. split_and!.
    + apply NoDup_app. split_and!.
      * apply Hnodup; [by apply NoDup_app in Hnd as (?&?&?)|].
        intros x Hx Hin. apply (Hfresh x Hx). right. apply elem_of_app. by left.
      * intros x. rewrite Hmem'. intros [Hx|[Hx _]].
        -- by apply NoDup_app in Hnd as (_&Hd&_); apply Hd.
        -- intros Hin. apply (Hfresh x Hx). right. apply elem_of_app. by right.
      * by apply NoDup_app in Hnd as (?&?&?).
    + intros x. rewrite elem_of_app, Hmem', list_elem_of_singleton.
      intros [[Hx|[Hx _]]|Hx] ->.
      * apply Hifresh, elem_of_app. by left.
      * apply (Hfresh i Hx). left.
      * done.
    + apply NoDup_singleton.
  - intros x. rewrite !elem_of_app, Hmem', list_elem_of_singleton.
    intros [[Hx|[Hx _]]|[Hx| ->]]; [| by eauto | |done].
    + apply Hb. right. apply elem_of_app. by left.
    + apply Hb. right. apply elem_of_app. by right.
  - done.
  - intros j Hj. rewrite !elem_of_app, Hmem', list_elem_of_singleton. split.
    + intros H0. destruct (decide (j ∈ adj)) as [Hin|Hin]; [by left; right|].
      rewrite preds_left_snoc_other in H0 by (by rewrite Hedge).
      apply Hready in H0; [|done].
      apply elem_of_cons in H0 as [->|H0]; [by right; right|].
      apply elem_of_app in H0 as [?|?]; [by left; left | by right; left].
    + intros Hin.
      assert (j ∈ i :: (stack ++ order) → preds_left (order ++ [i]) j = 0) as Hold.
      { intros H0%Hready; [|done].
        destruct (decide (j ∈ adj)) as [Hin'|Hin'].
        - pose proof (preds_left_snoc_edge order i j Hio) as Hs.
          rewrite Hedge in Hs. specialize (Hs Hin'). lia.
        - rewrite preds_left_snoc_other; [done | by rewrite Hedge]. }
      destruct Hin as [[Hx|[_ H0]]|[Hx| ->]]; [|done| |].
      * apply Hold. right. apply elem_of_app. by left.
      * apply Hold. right. apply elem_of_app. by right.
      * apply Hold. left.
  - intros l1 b l2 a Heq He.
    destruct l2 as [|c l2 _] using rev_ind.
    + apply app_inj_tail in Heq as [-> ->].
      assert (preds_left l1 b = 0) as H0 by (apply Hready; [done | left]).
      by apply (preds_left_zero l1 b).
    + rewrite app_comm_cons, app_assoc in Heq. apply app_inj_tail in Heq as [-> _].
      by eapply Hbefore.
Qed.

(** The in-degrees computed before the loop. *)
Lemma incr_fold (adj : list nat) (d : list N) :
  NoDup adj →
  length (foldl (λ d i, alter incr i d) d adj) = length d ∧
  ∀ j, foldl (λ d i, alter incr i d) d adj !! j
       = if decide (j ∈ adj) then incr <$> d !! j else d !! j.
Proof using All.
  revert d. induction adj as [|i adj IH]; intros d Hnd; [done|].
  apply NoDup_cons in Hnd as [Hi Hnd]. simpl.
  destruct (IH (alter incr i d) Hnd) as [Hlen Hlk]. split.
  - by rewrite Hlen, length_alter.
  - intros j. rewrite Hlk. destruct (decide (j = i)) as [->|Hne].
    + rewrite decide_False by done. rewrite decide_True by left.
      apply list_lookup_alter_eq.
    + rewrite list_lookup_alter_ne by done.
      destruct (decide (j ∈ adj)).
      * rewrite decide_True; [done | by right].
      * rewrite decide_False; [done|]. rewrite elem_of_cons. tauto.
Qed.

Lemma count_rows (rows : list (list nat)) (d : list N) (j k : nat) :
  (∀ row, row ∈ rows → NoDup row) →
  d !! j = Some (N.of_nat k) →
  (N.of_nat (k + length rows) < size_max)%N →
  foldl (λ d adj, foldl (λ d i, alter incr i d) d adj) d rows !! j
  = Some (N.of_nat (k + length (filter (λ row, j ∈ row) rows))).
Proof using All.
  revert d k. induction rows as [|row rows IH]; intros d k Hnd Hd Hfit.
  { simpl. by rewrite Nat.add_0_r. }
  simpl. rewrite filter_cons.
  assert (NoDup row) as Hrow by (apply Hnd; left).
  destruct (incr_fold row d Hrow) as [_ Hlk].
  simpl in Hfit.
  destruct (decide (j ∈ row)) as [Hin|Hin].
  - rewrite (IH _ (S k)).
    + simpl. f_equal. f_equal. lia.
    + intros r Hr. apply Hnd. by right.
    + rewrite Hlk, decide_True, Hd by done. simpl. f_equal. apply incr_of_nat. lia.
    + lia.
  - rewrite (IH _ k).
    + done.
    + intros r Hr. apply Hnd. by right.
    + by rewrite Hlk, decide_False.
    + lia.
Qed.

Lemma count_rows_length (rows : list (list nat)) (d : list N) :
  (∀ row, row ∈ rows → NoDup row) →
  length (foldl (λ d adj, foldl (λ d i, alter incr i d) d adj) d rows) = length d.
Proof using All.
  revert d. induction rows as [|row rows IH]; intros d Hnd; [done|].
  simpl. rewrite IH by (intros r Hr; apply Hnd; by right).
  apply incr_fold. apply Hnd. left.
Qed.

Lemma rows_nodup row : row ∈ g → NoDup row.
Proof. intros [i Hi]%list_elem_of_lookup. eauto. Qed.

Lemma count_in_degree_length : length (count_in_degree g) = n.
Proof using All.
  unfold count_in_degree. rewrite count_rows_length by apply rows_nodup.
  apply length_replicate.
Qed.

Lemma count_in_degree_spec j :
  j < n → count_in_degree g !! j = Some (N.of_nat (preds_left [] j)).
Proof using All.
  intros Hj. unfold count_in_degree.
  rewrite (count_rows g _ j 0).
  - simpl. do 2 f_equal. unfold preds_left.
    rewrite <-(length_filter_lookup (λ row, j ∈ row) [] g).
    apply length_filter_agree. intros i _. unfold edge.
    split; [|by intros [? _]]. intros H. split; [done | apply not_elem_of_nil].
  - apply rows_nodup.
  - by apply lookup_replicate_2.
  - simpl. done.
Qed.

Lemma initial_stack_spec (d : list N) (i : nat) (st : list nat) :
  (∀ x, x ∈ initial_stack i d st ↔ x ∈ st ∨ ∃ k, x = i + k ∧ d !! k = Some 0%N) ∧
  (NoDup st → (∀ x, x ∈ st → x < i) → NoDup (initial_stack i d st)).
Proof using All.
  revert i st. induction d as [|c d IH]; intros i st.
  { simpl. split; [|done]. intros x. split; [by left|]. by intros [?|(k & _ & ?)]. }
  simpl. destruct (IH (S i) (if bool_decide (c = 0%N) then i :: st else st)) as [Hmem Hnd].
  split.
  - intros x. rewrite Hmem. split.
    + intros [Hx|(k & -> & Hk)].
      * case_bool_decide as Hc; [|by left].
        apply elem_of_cons in Hx as [->|Hx]; [|by left].
        right. exists 0. split; [lia|]. by rewrite Hc.
      * right. exists (S k). split; [lia | done].
    + intros [Hx|(k & -> & Hk)].
      * left. case_bool_decide; [by right | done].
      * destruct k as [|k]; simpl in Hk.
        -- left. injection Hk as ->. rewrite bool_decide_true by done.
           rewrite Nat.add_0_r. left.
        -- right. exists k. split; [lia | done].
  - intros Hst Hlt. apply Hnd.
    + case_bool_decide; [|done]. apply NoDup_cons. split; [|done].
      intros Hi%Hlt. lia.
    + intros x Hx. case_bool_decide.
      * apply elem_of_cons in Hx as [->|Hx%Hlt]; lia.
      * apply Hlt in Hx. lia.
Qed.

Lemma kahn_inv_init :
  kahn_inv (count_in_degree g) (initial_stack 0 (count_in_degree g) []) [].
Proof using All.
  destruct (initial_stack_spec (count_in_degree g) 0 []) as [Hmem Hnd].
  assert (∀ x, x ∈ initial_stack 0 (count_in_degree g) []
               ↔ x < n ∧ preds_left [] x = 0) as Hmem'.
  { intros x. rewrite Hmem. split.
    - intros [[]%elem_of_nil|(k & -> & Hk)]. simpl.
      assert (k < n) as Hkn.
      { rewrite <-count_in_degree_length. by eapply lookup_lt_Some. }
      split; [done|]. rewrite count_in_degree_spec in Hk by done.
      injection Hk as Hk. lia.
    - intros [Hx H0]. right. exists x. split; [done|].
      rewrite count_in_degree_spec by done. by rewrite H0. }
  constructor.
  - apply count_in_degree_length.
  - rewrite app_nil_r. apply Hnd; [constructor|]. by intros x ?%elem_of_nil.
  - intros x. rewrite app_nil_r, Hmem'. tauto.
  - apply count_in_degree_spec.
  - intros j Hj. rewrite app_nil_r, Hmem'. tauto.
  - intros l1 b l2 a Heq. by destruct l1.
Qed.

Lemma kahn_loop_total fuel d stack order :
  kahn_inv d stack order → n < fuel + length order →
  ∃ d' order', kahn_loop fuel g d stack order = Some order' ∧ kahn_inv d' [] order'.
Proof using All.
  revert d stack order. induction fuel as [|fuel IH]; intros d stack order Hinv Hfuel.
  { exfalso. pose proof (ki_nodup _ _ _ Hinv) as Hnd.
    pose proof (NoDup_bounded_length (stack ++ order) n Hnd (ki_bound _ _ _ Hinv)) as Hle.
    rewrite length_app in Hle. simpl in Hfuel. lia. }
  destruct stack as [|i stack]; simpl.
  { by exists d, order. }
  apply IH.
  - by apply kahn_inv_step.
  - pose proof (ki_nodup _ _ _ Hinv) as Hnd.
    pose proof (NoDup_bounded_length _ n Hnd (ki_bound _ _ _ Hinv)) as Hle.
    rewrite length_app in *. simpl in *. lia.
Qed.

(** When the loop ends with every node in the order. *)
Lemma kahn_full d order :
  kahn_inv d [] order → length order = n →
  order ≡ₚ seq 0 n ∧
  ∀ a b, edge a b → ∃ l1 l2, order = l1 ++ b :: l2 ∧ a ∈ l1.
Proof using All.
  intros Hinv Hlen.
  assert (order ≡ₚ seq 0 n) as Hperm.
  { apply NoDup_bounded_full; [apply (ki_nodup _ _ _ Hinv)| |done].
    apply (ki_bound _ _ _ Hinv). }
  split; [done|]. intros a b He.
  assert (b ∈ order) as Hb.
  { rewrite Hperm. apply elem_of_seq. apply edge_lt in He. lia. }
  apply list_elem_of_split in Hb as (l1 & l2 & ->). exists l1, l2. split; [done|].
  by eapply (ki_before _ _ _ Hinv).
Qed.

(** When the loop ends with nodes left over, they lie on a cycle. *)
Lemma kahn_chain d order :
  kahn_inv d [] order → length order ≠ n →
  ∀ k, (∃ v, tc edge v v) ∨
       ∃ v l, length l = k ∧ NoDup (v :: l) ∧
              (∀ x, x ∈ v :: l → x < n ∧ x ∉ order) ∧
              (∀ x, x ∈ l → tc edge v x).
Proof using All.
  intros Hinv Hlen.
  assert (∀ x, x < n → x ∉ order → ∃ a, a < n ∧ a ∉ order ∧ edge a x) as Hpred.
  { intros x Hx Hxo.
    destruct (decide (preds_left order x = 0)) as [H0|H0].
    { apply (ki_ready _ _ _ Hinv) in H0; done. }
    unfold preds_left in H0.
    destruct (filter _ (seq 0 n)) as [|a l] eqn:Hf; [done|].
    assert (a ∈ filter (λ i, edge i x ∧ i ∉ order) (seq 0 n)) as Ha
      by (rewrite Hf; left).
    apply list_elem_of_filter in Ha as [[He Hao] Han%elem_of_seq].
    exists a. split_and!; [lia|done|done]. }
  assert (∃ x, x < n ∧ x ∉ order) as (x0 & Hx0 & Hx0o).
  { destruct (decide (Forall (λ x, x ∈ order) (seq 0 n))) as [Hall|Hnall].
    - exfalso. apply Hlen. apply Nat.le_antisymm.
      + apply NoDup_bounded_length; [apply (ki_nodup _ _ _ Hinv)|apply (ki_bound _ _ _ Hinv)].
      + transitivity (length (seq 0 n)); [by rewrite length_seq|].
        apply submseteq_length, NoDup_submseteq; [apply NoDup_seq|].
        by apply Forall_forall.
    - apply not_Forall_Exists in Hnall; [|apply _].
      apply Exists_exists in Hnall as (x & Hx%elem_of_seq & Hxo).
      exists x. split; [lia | done]. }
  induction k as [|k [Hcyc|(v & l & Hl & Hnd & Hout & Htc)]]; [| by left |].
  - right. exists x0, []. split_and!; [done|apply NoDup_singleton| |by intros ? ?%elem_of_nil].
    intros x ->%list_elem_of_singleton. done.
  - destruct (Hout v) as [Hv Hvo]; [left|].
    destruct (Hpred v Hv Hvo) as (a & Ha & Hao & He).
    destruct (decide (a ∈ v :: l)) as [Hin|Hin].
    + left. exists a. apply elem_of_cons in Hin as [->|Hin]; [by apply tc_once|].
      eapply tc_l; [done | by apply Htc].
    + right. exists a, (v :: l). split_and!.
      * simpl. by rewrite Hl.
      * by apply NoDup_cons.
      * intros x [->|Hx]%elem_of_cons; [done | by apply Hout].
      * intros x [->|Hx]%elem_of_cons; [by apply tc_once|].
        eapply tc_l; [done | by apply Htc].
Qed.

Lemma kahn_stuck d order :
  kahn_inv d [] order → length order ≠ n → ∃ v, tc edge v v.
Proof using All.
  intros Hinv Hlen.
  destruct (kahn_chain d order Hinv Hlen n) as [Hcyc|(v & l & Hl & Hnd & Hout & _)]; [done|].
  exfalso.
  assert (length (v :: l) ≤ n) as Hle.
  { apply NoDup_bounded_length; [done|]. intros x Hx. by apply Hout. }
  simpl in Hle. lia.
Qed.
End kahn.

(** ** From the registry to the graph *)

Lemma wf_input_registered fs f rc i :
  wf_registry fs → f ∈ fs → rc ∈ recipes f → i ∈ inputs rc → i ∈ identifiers fs.
Proof.
  intros [_ Hwf] Hf Hrc Hi.
  rewrite Forall_forall in Hwf. specialize (Hwf f Hf).
  rewrite Forall_forall in Hwf. specialize (Hwf rc Hrc).
  rewrite Forall_forall in Hwf. by apply Hwf.
Qed.

Lemma index_table_absent ids i m id :
  id ∉ ids → index_table ids i m !! id = m !! id.
Proof.
  revert i m. induction ids as [|x ids IH]; intros i m Hid; [done|].
  apply not_elem_of_cons in Hid as [Hne Hid]. simpl.
  rewrite IH by done. by rewrite lookup_insert_ne.
Qed.

Lemma index_table_present ids i m id k :
  NoDup ids → ids !! k = Some id → index_table ids i m !! id = Some (i + k).
Proof.
  revert i m k. induction ids as [|x ids IH]; intros i m k Hnd Hk; [done|].
  apply NoDup_cons in Hnd as [Hx Hnd]. simpl. destruct k as [|k]; simpl in Hk.
  - injection Hk as ->. rewrite index_table_absent by done.
    rewrite lookup_insert_eq. f_equal. lia.
  - rewrite (IH _ _ k) by done. f_equal. lia.
Qed.

Lemma index_table_range ids i m id v :
  index_table ids i m !! id = Some v → m !! id = Some v ∨ (i ≤ v < i + length ids).
Proof.
  revert i m. induction ids as [|x ids IH]; intros i m Hv; [by left|].
  simpl in Hv. apply IH in Hv as [Hv|Hv]; [|right; simpl; lia].
  destruct (decide (x = id)) as [->|Hne].
  - rewrite lookup_insert_eq in Hv. injection Hv as <-. right. simpl. lia.
  - rewrite lookup_insert_ne in Hv by done. by left.
Qed.

Lemma subscript_present ids id k :
  NoDup ids → ids !! k = Some id → subscript (index_table ids 0 ∅) id = k.
Proof. intros Hnd Hk. unfold subscript. by rewrite (index_table_present ids 0 ∅ id k). Qed.

Lemma subscript_absent ids id :
  id ∉ ids → subscript (index_table ids 0 ∅) id = 0.
Proof. intros Hid. unfold subscript. by rewrite index_table_absent. Qed.

Lemma subscript_range ids id :
  ids ≠ [] → subscript (index_table ids 0 ∅) id < length ids.
Proof.
  intros Hne. unfold subscript.
  destruct (index_table ids 0 ∅ !! id) as [v|] eqn:Hv; simpl.
  - apply index_table_range in Hv as [Hv|Hv]; [done | lia].
  - destruct ids; [done | simpl; lia].
Qed.

Lemma find_index_lookup fs i f :
  NoDup (identifiers fs) → fs !! i = Some f → find_index fs (identifier f) = Some (i, f).
Proof.
  intros Hnd Hi. unfold find_index. apply list_find_Some. split_and!; [done|done|].
  intros j y Hj Hlt Heq.
  assert (i = j); [|lia].
  eapply NoDup_lookup; [done| |].
  - unfold identifiers. rewrite list_lookup_fmap, Hi. done.
  - unfold identifiers. rewrite list_lookup_fmap, Hj. simpl. by rewrite Heq.
Qed.

Lemma find_index_Some fs id i f :
  find_index fs id = Some (i, f) → fs !! i = Some f ∧ identifier f = id.
Proof. unfold find_index. intros H%list_find_Some. tauto. Qed.

Lemma find_index_None fs id :
  find_index fs id = None ↔ id ∉ identifiers fs.
Proof.
  unfold find_index, identifiers. rewrite list_find_None, Forall_forall, list_elem_of_fmap.
  split.
  - intros H (f & -> & Hf). by apply (H f).
  - intros H f Hf Heq. apply H. by exists f.
Qed.

Lemma get_index_lookup fs i f :
  NoDup (identifiers fs) → fs !! i = Some f → get_index fs (identifier f) = Returns f.
Proof. intros Hnd Hi. unfold get_index. by rewrite (find_index_lookup fs i f). Qed.

Lemma fmap_lookup_seq {A} (d : A) (l : list A) :
  (λ i, default d (l !! i)) <$> seq 0 (length l) = l.
Proof.
  apply list_eq. intros i. rewrite list_lookup_fmap.
  destruct (decide (i < length l)) as [Hi|Hi].
  - rewrite lookup_seq_lt by done. simpl.
    destruct (lookup_lt_is_Some_2 l i Hi) as [x Hx]. by rewrite Hx.
  - rewrite lookup_seq_ge by lia. simpl. symmetry. apply lookup_ge_None. lia.
Qed.

Lemma unique_elem_of (l : list nat) x : x ∈ unique l ↔ x ∈ l.
Proof.
  induction l as [|a l IH]; [done|].
  destruct l as [|b l]; [done|].
  change (unique (a :: b :: l)) with
    (if bool_decide (a = b) then unique (b :: l) else a :: unique (b :: l)).
  case_bool_decide as Hab.
  - subst b. rewrite IH. rewrite !elem_of_cons. tauto.
  - rewrite elem_of_cons, IH. rewrite !elem_of_cons. tauto.
Qed.

Lemma unique_NoDup (l : list nat) : StronglySorted (≤) l → NoDup (unique l).
Proof.
  induction 1 as [|a l Hs IH Hall]; [constructor|].
  destruct l as [|b l]; [apply NoDup_singleton|].
  change (unique (a :: b :: l)) with
    (if bool_decide (a = b) then unique (b :: l) else a :: unique (b :: l)).
  case_bool_decide as Hab; [done|].
  apply NoDup_cons. split; [|done].
  rewrite unique_elem_of. intros Hin.
  apply StronglySorted_inv in Hs as [_ Hb].
  rewrite Forall_forall in Hb. rewrite Forall_forall in Hall.
  assert (a ≤ b) by (apply Hall; left).
  apply elem_of_cons in Hin as [->|Hin]; [done|].
  specialize (Hb a Hin). lia.
Qed.

Lemma deduplicate_length g : length (deduplicate g) = length g.
Proof. unfold deduplicate. apply length_fmap. Qed.

Lemma deduplicate_lookup g a :
  default [] (deduplicate g !! a) = unique (merge_sort (≤) (default [] (g !! a))).
Proof.
  unfold deduplicate. rewrite list_lookup_fmap. by destruct (g !! a).
Qed.

Lemma deduplicate_elem_of g a x :
  x ∈ default [] (deduplicate g !! a) ↔ x ∈ default [] (g !! a).
Proof. rewrite deduplicate_lookup, unique_elem_of. by rewrite merge_sort_Permutation. Qed.

Lemma deduplicate_NoDup g a adj : deduplicate g !! a = Some adj → NoDup adj.
Proof.
  unfold deduplicate. rewrite list_lookup_fmap.
  destruct (g !! a) as [row|]; [|done]. intros [= <-].
  apply unique_NoDup. apply StronglySorted_merge_sort; apply _.
Qed.

Lemma alter_push_elem (g : list (list nat)) (i s a x : nat) :
  s < length g →
  x ∈ default [] (alter (push_back_edge i) s g !! a)
  ↔ x ∈ default [] (g !! a) ∨ (x = i ∧ s = a).
Proof.
  intros Hs. destruct (decide (s = a)) as [->|Hne].
  - rewrite list_lookup_alter_eq.
    destruct (lookup_lt_is_Some_2 g a Hs) as [row ->]. simpl.
    unfold push_back_edge. rewrite elem_of_app, list_elem_of_singleton. tauto.
  - rewrite list_lookup_alter_ne by done. tauto.
Qed.

Section build_graph.
Context (graph_idx : gmap string nat).

Lemma push_inputs_spec (i : nat) (ins : list string) (g : list (list nat)) :
  (∀ id, subscript graph_idx id < length g) →
  length (foldl (λ g input, alter (push_back_edge i) (subscript graph_idx input) g) g ins)
  = length g ∧
  ∀ a x,
    x ∈ default []
          (foldl (λ g input, alter (push_back_edge i) (subscript graph_idx input) g) g ins
           !! a)
    ↔ x ∈ default [] (g !! a)
      ∨ (x = i ∧ ∃ input, input ∈ ins ∧ subscript graph_idx input = a).
Proof.
  revert g. induction ins as [|input ins IH]; intros g Hr.
  { split; [done|]. intros a x. split; [by left|].
    by intros [?|(_ & ? & []%elem_of_nil & _)]. }
  simpl. destruct (IH (alter (push_back_edge i) (subscript graph_idx input) g)) as [Hlen Hmem].
  { intros id. rewrite length_alter. apply Hr. }
  split; [by rewrite Hlen, length_alter|].
  intros a x. rewrite Hmem, alter_push_elem by apply Hr. split.
  - intros [[?|[-> <-]]|(-> & inp & Hin & <-)].
    + by left.
    + right. split; [done|]. exists input. split; [left | done].
    + right. split; [done|]. exists inp. split; [by right | done].
  - intros [?|(-> & inp & [->|Hin]%elem_of_cons & <-)].
    + by left; left.
    + left. by right.
    + right. split; [done|]. by exists inp.
Qed.

Lemma push_edges_spec (i : nat) (f : IndexFile) (g : list (list nat)) :
  (∀ id, subscript graph_idx id < length g) →
  length (push_edges graph_idx i f g) = length g ∧
  ∀ a x,
    x ∈ default [] (push_edges graph_idx i f g !! a)
    ↔ x ∈ default [] (g !! a)
      ∨ (x = i ∧ ∃ rc input, rc ∈ recipes f ∧ input ∈ inputs rc
                             ∧ subscript graph_idx input = a).
Proof.
  unfold push_edges. revert g. induction (recipes f) as [|rc rcs IH]; intros g Hr.
  { split; [done|]. intros a x. split; [by left|].
    by intros [?|(_ & ? & ? & []%elem_of_nil & _)]. }
  simpl. destruct (push_inputs_spec i (inputs rc) g Hr) as [Hlen1 Hmem1].
  destruct (IH (foldl (λ g input, alter (push_back_edge i) (subscript graph_idx input) g)
                      g (inputs rc))) as [Hlen Hmem].
  { intros id. rewrite Hlen1. apply Hr. }
  split; [by rewrite Hlen, Hlen1|].
  intros a x. rewrite Hmem, Hmem1. split.
  - intros [[?|(-> & inp & Hin & <-)]|(-> & rc' & inp & Hrc & Hin & <-)].
    + by left.
    + right. split; [done|]. exists rc, inp. split_and!; [left|done|done].
    + right. split; [done|]. exists rc', inp. split_and!; [by right|done|done].
  - intros [?|(-> & rc' & inp & [->|Hrc]%elem_of_cons & Hin & <-)].
    + by left; left.
    + left. right. split; [done|]. by exists inp.
    + right. split; [done|]. by exists rc', inp.
Qed.

Lemma build_graph_spec (suf pre : list IndexFile) (g : list (list nat)) :
  NoDup (identifiers (pre ++ suf)) →
  (suf ≠ [] → ∀ id, subscript graph_idx id < length g) →
  ∃ g', build_graph (pre ++ suf) graph_idx (identifiers suf) (length pre) g = Returns g'
        ∧ length g' = length g
        ∧ ∀ a x, x ∈ default [] (g' !! a)
                 ↔ x ∈ default [] (g !! a)
                   ∨ ∃ f rc input, (pre ++ suf) !! x = Some f ∧ length pre ≤ x
                                   ∧ rc ∈ recipes f ∧ input ∈ inputs rc
                                   ∧ subscript graph_idx input = a.
Proof.
  revert pre g. induction suf as [|f suf IH]; intros pre g Hnd Hr.
  { exists g. split_and!; [done|done|]. intros a x. split; [by left|].
    intros [?|(f & rc & inp & Hf & Hle & _)]; [done|].
    apply lookup_lt_Some in Hf. rewrite app_nil_r in Hf. lia. }
  specialize (Hr ltac:(done)). simpl.
  rewrite (get_index_lookup (pre ++ f :: suf) (length pre) f Hnd)
    by (by rewrite list_lookup_middle).
  simpl. destruct (push_edges_spec (length pre) f g Hr) as [Hlen1 Hmem1].
  destruct (IH (pre ++ [f]) (push_edges graph_idx (length pre) f g)) as (g' & Hg' & Hlen & Hmem).
  { by rewrite <-app_assoc. }
  { intros _ id. rewrite Hlen1. apply Hr. }
  rewrite <-app_assoc in Hg'. simpl in Hg'. rewrite length_app in Hg'. simpl in Hg'.
  rewrite Nat.add_1_r in Hg'.
  exists g'. split_and!; [done | by rewrite Hlen, Hlen1 |].
  intros a x. rewrite Hmem, Hmem1. rewrite <-app_assoc. simpl.
  rewrite length_app. simpl. split.
  - intros [[?|(-> & rc & inp & Hrc & Hin & <-)]|(f' & rc & inp & Hf & Hle & Hrc & Hin & <-)].
    + by left.
    + right. exists f, rc, inp. split_and!; [by rewrite list_lookup_middle|done..].
    + right. exists f', rc, inp. split_and!; [done|lia|done..].
  - intros [?|(f' & rc & inp & Hf & Hle & Hrc & Hin & <-)]; [by left; left|].
    destruct (decide (x = length pre)) as [->|Hne].
    + rewrite list_lookup_middle in Hf by done. injection Hf as <-.
      left. right. split; [done|]. by exists rc, inp.
    + right. exists f', rc, inp. split_and!; [done|lia|done..].
Qed.
End build_graph.

Section dependency_order.
Context (fs : list IndexFile).
Hypothesis fs_wf : wf_registry fs.
Hypothesis fs_fits : (N.of_nat (length fs) < size_max)%N.

(** The graph the loop runs on. *)
Lemma dependency_graph_spec :
  ∃ g, build_graph fs (index_table (identifiers fs) 0 ∅) (identifiers fs) 0
                   (replicate (length (identifiers fs)) []) = Returns g
       ∧ length (deduplicate g) = length fs
       ∧ (∀ a x, x ∈ default [] (deduplicate g !! a)
                 ↔ ∃ f rc input, fs !! x = Some f ∧ rc ∈ recipes f ∧ input ∈ inputs rc
                                 ∧ identifiers fs !! a = Some input).
Proof.
  destruct fs_wf as [Hnd Hwf].
  destruct (build_graph_spec (index_table (identifiers fs) 0 ∅) fs []
              (replicate (length (identifiers fs)) [])) as (g & Hg & Hlen & Hmem).
  { done. }
  { intros Hne id. rewrite length_replicate. apply subscript_range.
    unfold identifiers. by destruct fs. }
  simpl in Hg. exists g. split_and!; [done| |].
  - rewrite deduplicate_length, Hlen, length_replicate. unfold identifiers.
    apply length_fmap.
  - intros a x. rewrite deduplicate_elem_of, Hmem. simpl. split.
    + intros [Hx|(f & rc & inp & Hf & _ & Hrc & Hin & <-)].
      { destruct (replicate _ _ !! a) as [row|] eqn:Hrow; [|by apply elem_of_nil in Hx].
        apply lookup_replicate in Hrow as [-> _]. by apply elem_of_nil in Hx. }
      exists f, rc, inp. split_and!; [done..|].
      assert (inp ∈ identifiers fs) as Hreg.
      { eapply wf_input_registered; [done| |done..]. by eapply list_elem_of_lookup_2. }
      apply list_elem_of_lookup in Hreg as [k Hk].
      by rewrite (subscript_present _ _ k).
    + intros (f & rc & inp & Hf & Hrc & Hin & Ha). right.
      exists f, rc, inp. split_and!; [done|lia|done..|].
      by apply subscript_present.
Qed.

Lemma dependency_order_correct fuel :
  length fs < fuel →
  (∃ order, dependency_order fuel fs = Some (Returns order)
            ∧ order ≡ₚ identifiers fs
            ∧ ∀ a b, depends fs a b → precedes a b order)
  ∨ (dependency_order fuel fs = Some Exits ∧ cyclic fs).
Proof.
  intros Hfuel. destruct dependency_graph_spec as (g0 & Hg0 & Hlen & Hedge).
  unfold dependency_order. rewrite Hg0. simpl.
  set (g := deduplicate g0) in *.
  set (lab := λ i : nat, default "" (identifiers fs !! i)).
  assert (∀ i adj j, g !! i = Some adj → j ∈ adj → j < length g) as Hbound.
  { intros i adj j Hi Hj.
    assert (j ∈ default [] (g !! i)) as Hj' by (by rewrite Hi).
    apply Hedge in Hj' as (f & _ & _ & Hf%lookup_lt_Some & _). by rewrite Hlen. }
  assert (∀ i adj, g !! i = Some adj → NoDup adj) as Hnodup.
  { intros i adj. apply deduplicate_NoDup. }
  assert (N.of_nat (length g) < size_max)%N as Hfits by (by rewrite Hlen).
  destruct (kahn_loop_total g Hbound Hnodup Hfits fuel (count_in_degree g)
              (initial_stack 0 (count_in_degree g) []) [])
    as (d' & order & Hloop & Hinv).
  { by apply kahn_inv_init. }
  { simpl. rewrite Hlen. lia. }
  rewrite Hloop. case_bool_decide as Hsize.
  - right. split; [done|].
    destruct (kahn_stuck g Hbound Hnodup Hfits d' order Hinv Hsize) as [v Hv].
    exists (lab v). apply (tc_congruence lab (depends fs)) in Hv; [done|].
    intros a b Hab. apply Hedge in Hab as (f & rc & inp & Hf & Hrc & Hin & Ha).
    exists f, rc. unfold lab. rewrite Ha. simpl. split_and!; [|  |done..].
    + by eapply list_elem_of_lookup_2.
    + unfold identifiers. by rewrite list_lookup_fmap, Hf.
  - left. eexists. split; [done|].
    assert (length order = length g) as Hfull by (by destruct (decide (length order = length g))).
    destruct (kahn_full g Hbound Hnodup Hfits d' order Hinv Hfull) as [Hperm Htopo].
    split.
    + rewrite Hperm, Hlen.
      replace (length fs) with (length (identifiers fs)) by apply length_fmap.
      unfold lab. by rewrite fmap_lookup_seq.
    + intros a b (f & rc & Hf & <- & Hrc & Ha).
      apply list_elem_of_lookup in Hf as [j Hj].
      assert (a ∈ identifiers fs) as Hreg.
      { eapply wf_input_registered; [done| |done..]. by eapply list_elem_of_lookup_2. }
      apply list_elem_of_lookup in Hreg as [i Hi].
      destruct (Htopo i j) as (l1 & l2 & -> & Hil1).
      { apply Hedge. by exists f, rc, a. }
      apply list_elem_of_lookup in Hil1 as [k Hk].
      exists k, (length l1). split_and!.
      * rewrite list_lookup_fmap, lookup_app_l by (by eapply lookup_lt_Some).
        rewrite Hk. simpl. unfold lab. by rewrite Hi.
      * rewrite list_lookup_fmap, list_lookup_middle by done. simpl.
        unfold lab, identifiers. by rewrite list_lookup_fmap, Hj.
      * by eapply lookup_lt_Some.
Qed.
End dependency_order.

Lemma precedes_irrefl {A} (a : A) (l : list A) : NoDup l → ¬ precedes a a l.
Proof.
  intros Hnd (i & j & Hi & Hj & Hlt).
  assert (i = j) by (by eapply NoDup_lookup). lia.
Qed.

Lemma precedes_trans {A} (a b c : A) (l : list A) :
  NoDup l → precedes a b l → precedes b c l → precedes a c l.
Proof.
  intros Hnd (i & j & Hi & Hj & Hlt) (j' & k & Hj' & Hk & Hlt').
  assert (j = j') as <- by (by eapply NoDup_lookup).
  exists i, k. split_and!; [done..|lia].
Qed.

Lemma topological_acyclic fs order :
  NoDup order → (∀ a b, depends fs a b → precedes a b order) → ¬ cyclic fs.
Proof.
  intros Hnd Htopo [a Ha].
  assert (∀ x y, tc (depends fs) x y → precedes x y order) as Htc.
  { induction 1 as [x y Hxy|x y z Hxy _ IH]; [by apply Htopo|].
    eapply precedes_trans; [done| |done]. by apply Htopo. }
  by eapply precedes_irrefl, Htc.
Qed.


(** ** The queue *)

Lemma foldr_later_key_None {V} (l : list (nat * V)) :
  foldr later_key None l = None → l = [].
Proof.
  destruct l as [|a l]; [done|]. simpl. unfold later_key at 1.
  destruct (foldr later_key None l); [case_decide|]; done.
Qed.

Lemma queue_begin_None {V} (q : gmap nat V) : queue_begin q = None ↔ q = ∅.
Proof.
  unfold queue_begin. split.
  - intros H. apply map_to_list_empty_iff. by apply foldr_later_key_None.
  - intros ->. by rewrite map_to_list_empty.
Qed.

Lemma foldr_later_key {V} (l : list (nat * V)) kv :
  foldr later_key None l = Some kv →
  kv ∈ l ∧ ∀ kv', kv' ∈ l → kv'.1 ≤ kv.1.
Proof.
  revert kv. induction l as [|a l IH]; intros kv H; [done|].
  simpl in H. unfold later_key in H at 1.
  destruct (foldr later_key None l) as [b|] eqn:Hl.
  - destruct (IH b eq_refl) as [Hb Hmax]. case_decide as Hlt.
    + injection H as <-. split; [left|].
      intros kv' [->|Hin]%elem_of_cons; [done|]. specialize (Hmax kv' Hin). lia.
    + injection H as <-. split; [by right|].
      intros kv' [->|Hin]%elem_of_cons; [lia | by apply Hmax].
  - injection H as <-. apply foldr_later_key_None in Hl as ->.
    split; [left|]. by intros kv' ->%list_elem_of_singleton.
Qed.

Lemma queue_begin_Some {V} (q : gmap nat V) k v :
  queue_begin q = Some (k, v) →
  q !! k = Some v ∧ ∀ k' v', q !! k' = Some v' → k' ≤ k.
Proof.
  intros [Hin Hmax]%foldr_later_key. split.
  - by apply elem_of_map_to_list in Hin.
  - intros k' v' H'. apply elem_of_map_to_list in H'. by apply (Hmax (k', v')).
Qed.

Lemma occurrences_cons x y l :
  occurrences x (y :: l) = (if decide (y = x) then 1 else 0) + occurrences x l.
Proof. unfold occurrences. rewrite filter_cons. by case_decide. Qed.

Lemma occurrences_pos x l : 0 < occurrences x l ↔ x ∈ l.
Proof.
  induction l as [|y l IH]; [unfold occurrences; simpl; split; [lia | by intros ?%elem_of_nil]|].
  rewrite occurrences_cons, elem_of_cons. case_decide; [naive_solver lia|].
  rewrite <-IH. split; [intros; right; lia|]. intros [->|?]; [done | lia].
Qed.

Lemma occurrences_le x l : occurrences x l ≤ length l.
Proof. apply length_filter. Qed.

(** Requesting a list of inputs. *)
Lemma enqueue_fold (p : nat) (ins : list nat) (q : gmap nat (nat * N)) (x : nat) :
  (∀ r c, q !! x = Some (r, c) → ∃ k, c = N.of_nat k
                                       ∧ (N.of_nat (k + occurrences x ins) < size_max)%N) →
  (N.of_nat (occurrences x ins) < size_max)%N →
  foldl (enqueue p) q ins !! x
  = match q !! x with
    | Some (r, c) => Some (r, (c + N.of_nat (occurrences x ins))%N)
    | None => if decide (occurrences x ins = 0) then None
              else Some (p, N.of_nat (occurrences x ins))
    end.
Proof.
  revert q. induction ins as [|y ins IH]; intros q Hq Hfit.
  { simpl. destruct (q !! x) as [[r c]|]; [|done]. unfold occurrences. simpl.
    by rewrite N.add_0_r. }
  simpl. rewrite occurrences_cons in *.
  destruct (decide (y = x)) as [->|Hne].
  - rewrite IH.
    + unfold enqueue. destruct (q !! x) as [[r c]|] eqn:Hx.
      * rewrite lookup_insert_eq. destruct (Hq r c eq_refl) as (k & -> & Hk).
        rewrite incr_of_nat by lia. do 2 f_equal. lia.
      * rewrite lookup_insert_eq. rewrite decide_False by lia.
        do 2 f_equal. lia.
    + intros r c. unfold enqueue. destruct (q !! x) as [[r' c']|] eqn:Hx.
      * rewrite lookup_insert_eq. intros [= <- <-].
        destruct (Hq r' c' eq_refl) as (k & -> & Hk).
        exists (S k). rewrite incr_of_nat by lia. split; [done | lia].
      * rewrite lookup_insert_eq. intros [= <- <-]. exists 1. split; [done | lia].
    + lia.
  - rewrite IH.
    + unfold enqueue. destruct (q !! y) as [[r' c']|]; by rewrite lookup_insert_ne.
    + intros r c. unfold enqueue.
      destruct (q !! y) as [[r' c']|]; rewrite lookup_insert_ne by done; apply Hq.
    + lia.
Qed.

(** Withdrawing a list of inputs. *)
Lemma release_fold_None (ins : list nat) (q : gmap nat (nat * N)) (x : nat) :
  q !! x = None → foldl release q ins !! x = None.
Proof.
  revert q. induction ins as [|y ins IH]; intros q Hq; [done|].
  simpl. apply IH. unfold release. destruct (q !! y) as [[r c]|] eqn:Hy; [|done].
  case_bool_decide.
  - destruct (decide (y = x)) as [->|]; [by rewrite lookup_delete_eq|].
    by rewrite lookup_delete_ne.
  - destruct (decide (y = x)) as [->|]; [congruence|]. by rewrite lookup_insert_ne.
Qed.

Lemma release_fold (ins : list nat) (q : gmap nat (nat * N)) (x r k : nat) :
  q !! x = Some (r, N.of_nat k) → 0 < k → (N.of_nat k < size_max)%N →
  foldl release q ins !! x
  = if decide (occurrences x ins < k) then Some (r, N.of_nat (k - occurrences x ins))
    else None.
Proof.
  revert q k. induction ins as [|y ins IH]; intros q k Hq Hk Hfit.
  { simpl. unfold occurrences. simpl. rewrite decide_True by lia.
    by rewrite Nat.sub_0_r. }
  simpl. rewrite occurrences_cons. destruct (decide (y = x)) as [->|Hne].
  - destruct k as [|k]; [lia|].
    unfold release at 2. rewrite Hq. rewrite decr_of_nat by done.
    case_bool_decide as Hz.
    + assert (k = 0) as -> by lia.
      rewrite release_fold_None by apply lookup_delete_eq.
      rewrite decide_False by lia. done.
    + rewrite (IH _ k); [|apply lookup_insert_eq|lia|lia].
      destruct (decide (occurrences x ins < k)).
      * rewrite decide_True by lia. do 2 f_equal.
      * rewrite decide_False by lia. done.
  - rewrite (IH _ k); [done| |done..].
    unfold release. destruct (q !! y) as [[r' c']|]; [|done].
    case_bool_decide; [by rewrite lookup_delete_ne | by rewrite lookup_insert_ne].
Qed.

Lemma max_inputs_le fs f rc :
  f ∈ fs → rc ∈ recipes f → length (inputs rc) ≤ max_inputs fs.
Proof.
  intros Hf Hrc. unfold max_inputs.
  transitivity (max_list ((λ rc, length (inputs rc)) <$> recipes f)).
  - apply max_list_elem_of_le. apply list_elem_of_fmap. by exists rc.
  - apply max_list_elem_of_le. apply list_elem_of_fmap. by exists f.
Qed.

Lemma max_recipes_le fs f : f ∈ fs → length (recipes f) ≤ max_recipes fs.
Proof.
  intros Hf. apply max_list_elem_of_le, list_elem_of_fmap. by exists f.
Qed.

(** ** More fuel does not change a result *)

Section fuel.
Context (fs : list IndexFile) (identifier_order : list string)
        (dep : gmap string nat).

Lemma backtrack_mono fuel fuel' path q res :
  backtrack fs identifier_order dep fuel path q = Some res → fuel ≤ fuel' →
  backtrack fs identifier_order dep fuel' path q = Some res.
Proof.
  revert fuel' path q. induction fuel as [|fuel IH]; intros fuel' path q Hrun Hle; [done|].
  destruct fuel' as [|fuel']; [lia|]. cbn [backtrack] in *.
  destruct path as [|e rest]; [done|].
  unfold fbind in *.
  destruct (index_at fs identifier_order e.1.1) as [f| | | |]; try done.
  case_bool_decide; [|done].
  destruct (unwind fs identifier_order dep e.1.2 (e :: rest) q) as [st| | | |]; try done.
  destruct st.1 as [|e1 rest1]; [apply IH; [done | lia]|].
  destruct (drop_requests fs identifier_order dep e1 st.2) as [q2| | | |]; try done.
  apply IH; [done | lia].
Qed.

Lemma search_mono fuel fuel' path q res :
  search fs identifier_order dep fuel path q = Some res → fuel ≤ fuel' →
  search fs identifier_order dep fuel' path q = Some res.
Proof.
  revert fuel' path q. induction fuel as [|fuel IH]; intros fuel' path q Hrun Hle; [done|].
  destruct fuel' as [|fuel']; [lia|]. cbn [search] in *.
  destruct (queue_begin q) as [it|]; [|done].
  unfold fbind in *.
  destruct (index_at fs identifier_order it.1) as [f| | | |]; try done.
  destruct (is_finished f); [apply IH; [done | lia]|].
  destruct (recipes f) as [|recipe rcs]; [|apply IH; [done | lia]].
  destruct (backtrack fs identifier_order dep fuel _ _) as [back|] eqn:Hback; [|done].
  rewrite (backtrack_mono _ fuel' _ _ _ Hback) by lia.
  destruct back as [st| | | |]; try done.
  destruct st.1 as [|e rest]; [apply IH; [done | lia]|].
  destruct (index_at fs identifier_order e.1.1) as [f'| | | |]; try done.
  destruct (recipes f' !! e.2) as [rc|]; [|done].
  apply IH; [done | lia].
Qed.

Lemma plan_products_mono fuel fuel' products pe res :
  plan_products fs identifier_order dep fuel products pe = Some res → fuel ≤ fuel' →
  plan_products fs identifier_order dep fuel' products pe = Some res.
Proof.
  intros Hrun Hle. revert pe Hrun.
  induction products as [|product rest IH]; intros pe Hrun; [done|].
  cbn [plan_products] in *. unfold fbind in *.
  destruct (search fs identifier_order dep fuel [] _) as [found|] eqn:Hsearch; [|done].
  rewrite (search_mono _ fuel' _ _ _ Hsearch) by lia.
  destruct found as [path| | | |]; try done.
  destruct path as [|e path]; [done|].
  destruct (record_path identifier_order _ pe) as [pe'| | | |]; try done.
  by apply IH.
Qed.
End fuel.

Section planner_invariant.
Context (fs : list IndexFile) (identifier_order : list string).
Hypothesis fs_wf : wf_registry fs.
Hypothesis order_perm : identifier_order ≡ₚ identifiers fs.
Hypothesis order_topo : ∀ a b, depends fs a b → precedes a b identifier_order.
Hypothesis fs_fits : (N.of_nat (length fs * max_inputs fs) < size_max)%N.
(** The position the search starts from. *)
Context (t : nat).

Abbreviation dep_of := (index_table identifier_order 0 ∅).
Abbreviation at_pos := (index_at fs identifier_order).
Abbreviation total := (length identifier_order).

Lemma order_nodup : NoDup identifier_order.
Proof using All. rewrite order_perm. apply fs_wf. Qed.

Lemma order_length : total = length fs.
Proof using All. rewrite order_perm. apply length_fmap. Qed.

Lemma at_pos_Some p :
  p < total →
  ∃ f, at_pos p = Returns f ∧ f ∈ fs ∧ identifier_order !! p = Some (identifier f).
Proof using All.
  intros Hp. destruct (lookup_lt_is_Some_2 _ _ Hp) as [id Hid].
  assert (id ∈ identifiers fs) as Hin.
  { rewrite <-order_perm. by eapply list_elem_of_lookup_2. }
  apply list_elem_of_lookup in Hin as [i Hi].
  unfold identifiers in Hi. rewrite list_lookup_fmap in Hi.
  destruct (fs !! i) as [f|] eqn:Hf; [|done]. injection Hi as <-.
  exists f. unfold index_at. rewrite Hid.
  split_and!; [|by eapply list_elem_of_lookup_2|done].
  eapply get_index_lookup; [apply fs_wf | done].
Qed.

Lemma at_pos_inv p f :
  at_pos p = Returns f →
  p < total ∧ f ∈ fs ∧ identifier_order !! p = Some (identifier f).
Proof using All.
  unfold index_at. destruct (identifier_order !! p) as [id|] eqn:Hid; [|done].
  unfold get_index. destruct (find_index fs id) as [[i f']|] eqn:Hfind; [|done].
  intros [= ->]. apply find_index_Some in Hfind as [Hf <-].
  split_and!; [by eapply lookup_lt_Some | by eapply list_elem_of_lookup_2 | done].
Qed.

Lemma subscript_order p id :
  identifier_order !! p = Some id → subscript dep_of id = p.
Proof using All. apply subscript_present, order_nodup. Qed.

Lemma input_position p f rc i :
  at_pos p = Returns f → rc ∈ recipes f → i ∈ input_positions dep_of rc →
  i < p ∧ ∃ input, input ∈ inputs rc ∧ identifier_order !! i = Some input.
Proof using All.
  intros Hp Hrc Hi. apply at_pos_inv in Hp as (Hlt & Hf & Hid).
  unfold input_positions in Hi. apply list_elem_of_fmap in Hi as (input & -> & Hin).
  destruct (order_topo input (identifier f)) as (a & b & Ha & Hb & Hab).
  { by exists f, rc. }
  assert (b = p) as -> by (eapply NoDup_lookup; [apply order_nodup|done..]).
  rewrite (subscript_order a input Ha). split; [done|]. by exists input.
Qed.

(** The inputs an entry of the path is asking for. *)
Definition requests (e : path_elem) : list nat :=
  match at_pos e.1.1 with
  | Returns f =>
      if is_finished f then []
      else match recipes f !! e.2 with
           | Some rc => input_positions dep_of rc
           | None => []
           end
  | _ => []
  end.

Lemma requests_lt e x : x ∈ requests e → x < e.1.1.
Proof using All.
  unfold requests. destruct (at_pos e.1.1) as [f| | | |] eqn:Hf; try by intros ?%elem_of_nil.
  destruct (is_finished f); [by intros ?%elem_of_nil|].
  destruct (recipes f !! e.2) as [rc|] eqn:Hrc; [|by intros ?%elem_of_nil].
  intros Hx. eapply input_position; [done| |done]. by eapply list_elem_of_lookup_2.
Qed.

Lemma requests_length e : length (requests e) ≤ max_inputs fs.
Proof using All.
  unfold requests. destruct (at_pos e.1.1) as [f| | | |] eqn:Hf; simpl; try lia.
  destruct (is_finished f); simpl; [lia|].
  destruct (recipes f !! e.2) as [rc|] eqn:Hrc; simpl; [|lia].
  unfold input_positions. rewrite length_fmap.
  apply at_pos_inv in Hf as (_ & Hf & _).
  eapply max_inputs_le; [done|]. by eapply list_elem_of_lookup_2.
Qed.

Lemma drop_requests_eq e q :
  e.1.1 < total →
  drop_requests fs identifier_order dep_of e q = Returns (foldl release q (requests e)).
Proof using All.
  intros Hp. destruct (at_pos_Some _ Hp) as (f & Hf & _).
  unfold drop_requests, requests. rewrite Hf. simpl.
  destruct (is_finished f); simpl; [done|].
  case_bool_decide as Hk.
  - destruct (lookup_lt_is_Some_2 _ _ Hk) as [rc ->]. done.
  - rewrite lookup_ge_None_2 by lia. done.
Qed.

Definition settled (e : path_elem) : Prop :=
  ∃ f, at_pos e.1.1 = Returns f
       ∧ (is_finished f = true ∧ e.2 = 0 ∨ e.2 < length (recipes f)).

(** Every recipe before the selected one has an input that cannot be
    built. *)
Definition tried (e : path_elem) : Prop :=
  ∀ f j rc, at_pos e.1.1 = Returns f → is_finished f = false → j < e.2 →
            recipes f !! j = Some rc → ∃ i, i ∈ inputs rc ∧ ¬ buildable fs i.

Definition linked (e : path_elem) (rest : list path_elem) : Prop :=
  match rest with
  | [] => e.1.2 = total ∧ e.1.1 = t
  | _ :: _ => ∃ e', e' ∈ rest ∧ e'.1.1 = e.1.2 ∧ e.1.1 ∈ requests e'
  end.

Definition elem_ok (e : path_elem) (rest : list path_elem) : Prop :=
  e.1.1 < total ∧ (∀ e', e' ∈ rest → e.1.1 < e'.1.1) ∧ linked e rest ∧ tried e.

Fixpoint path_ok (path : list path_elem) : Prop :=
  match path with
  | [] => True
  | e :: rest => elem_ok e rest ∧ settled e ∧ path_ok rest
  end.

Fixpoint demand (x : nat) (l : list path_elem) : nat :=
  match l with
  | [] => 0
  | e :: l' => occurrences x (requests e) + demand x l'
  end.

Definition queue_ok (path : list path_elem) (q : gmap nat (nat * N)) : Prop :=
  ∀ x r c, q !! x = Some (r, c) →
    (∀ e, e ∈ path → x < e.1.1) ∧
    ∃ l1 e l2, path = l1 ++ e :: l2 ∧ e.1.1 = r ∧ x ∈ requests e
               ∧ c = N.of_nat (demand x (l1 ++ [e])).

Definition plan_inv (path : list path_elem) (q : gmap nat (nat * N)) : Prop :=
  path_ok path ∧ queue_ok path q.

Definition pending (e : path_elem) (rest : list path_elem) (q : gmap nat (nat * N)) : Prop :=
  elem_ok e rest ∧ plan_inv rest q ∧ (∀ x v, q !! x = Some v → x < e.1.1).

Lemma demand_app x l1 l2 : demand x (l1 ++ l2) = demand x l1 + demand x l2.
Proof using All. induction l1 as [|e l1 IH]; simpl; [done | rewrite IH; lia]. Qed.

Lemma demand_bound x l : demand x l ≤ length l * max_inputs fs.
Proof using All.
  induction l as [|e l IH]; simpl; [lia|].
  pose proof (occurrences_le x (requests e)). pose proof (requests_length e). lia.
Qed.

Lemma path_ok_positions path :
  path_ok path → NoDup (path.*1.*1) ∧ ∀ p, p ∈ path.*1.*1 → p < total.
Proof using All.
  induction path as [|e path IH]; simpl.
  { intros _. split; [constructor | by intros ? ?%elem_of_nil]. }
  intros ((Hlt & Hmin & _ & _) & _ & Hok). destruct (IH Hok) as [Hnd Hb]. split.
  - apply NoDup_cons. split; [|done].
    intros (e1 & He1 & (e' & -> & He')%list_elem_of_fmap)%list_elem_of_fmap.
    specialize (Hmin e' He'). rewrite He1 in Hmin. lia.
  - intros p [->|Hp]%elem_of_cons; [done | by apply Hb].
Qed.

Lemma path_ok_length path : path_ok path → length path ≤ total.
Proof using All.
  intros [Hnd Hb]%path_ok_positions.
  transitivity (length (path.*1.*1)); [by rewrite !length_fmap|].
  by apply NoDup_bounded_length.
Qed.

Lemma path_ok_fits path x l1 e l2 :
  path_ok path → path = l1 ++ e :: l2 →
  (N.of_nat (demand x (l1 ++ [e])) < size_max)%N.
Proof using All.
  intros Hok ->. apply path_ok_length in Hok.
  pose proof (demand_bound x (l1 ++ [e])) as Hd.
  rewrite !length_app in *. simpl in *. rewrite order_length in Hok.
  assert (demand x (l1 ++ [e]) ≤ length fs * max_inputs fs); [|lia].
  etrans; [done|]. apply Nat.mul_le_mono_r. lia.
Qed.

Lemma path_ok_unique path e1 e2 :
  path_ok path → e1 ∈ path → e2 ∈ path → e1.1.1 = e2.1.1 →
  ∃ l1 l2, path = l1 ++ e1 :: l2 ∧ e1 = e2.
Proof using All.
  induction path as [|e path IH]; [by intros _ ?%elem_of_nil|].
  simpl. intros ((_ & Hmin & _ & _) & _ & Hok) [->|H1]%elem_of_cons [->|H2]%elem_of_cons Heq.
  - by exists [], path.
  - specialize (Hmin e2 H2). lia.
  - specialize (Hmin e1 H1). lia.
  - destruct (IH Hok H1 H2 Heq) as (l1 & l2 & -> & ->). by exists (e :: l1), l2.
Qed.

Lemma demand_requester x l e : x ∈ requests e → 0 < demand x (l ++ [e]).
Proof using All.
  intros Hx%occurrences_pos. rewrite demand_app. simpl. lia.
Qed.

Lemma queue_ok_empty q : queue_ok [] q → q = ∅.
Proof using All.
  intros Hq. apply map_empty. intros x.
  destruct (q !! x) as [[r c]|] eqn:Hx; [|done].
  destruct (Hq x r c Hx) as (_ & l1 & e & l2 & Heq & _). by destruct l1.
Qed.

(** Taking the front of the queue. *)
Lemma dequeue_pending path q x r c :
  plan_inv path q → queue_begin q = Some (x, (r, c)) →
  pending (x, r, 0) path (delete x q).
Proof using All.
  intros [Hpath Hqueue] [Hx Hmax]%queue_begin_Some.
  destruct (Hqueue x r c Hx) as (Hlt & l1 & e & l2 & -> & Her & Hreq & _).
  split_and!.
  - split_and!.
    + simpl. apply path_ok_positions in Hpath as [_ Hb].
      assert (x < e.1.1) by (apply Hlt, elem_of_app; right; left).
      assert (e.1.1 < total); [|lia]. apply Hb.
      apply list_elem_of_fmap. exists e.1. split; [done|].
      apply list_elem_of_fmap. exists e. split; [done|].
      apply elem_of_app. right. left.
    + done.
    + unfold linked. destruct (l1 ++ e :: l2) eqn:Heq; [by destruct l1|].
      rewrite <-Heq. exists e. split_and!; [|done..].
      apply elem_of_app. right. left.
    + intros f j rc _ _ Hj. simpl in Hj. lia.
  - split; [done|]. intros y r' c' Hy.
    apply lookup_delete_Some in Hy as [_ Hy]. by apply Hqueue.
  - intros y v Hy. apply lookup_delete_Some in Hy as [Hne Hy].
    specialize (Hmax y v Hy). simpl. lia.
Qed.

(** Putting a pending entry on the path and requesting its inputs. *)
Lemma settle e rest q :
  pending e rest q → settled e →
  plan_inv (e :: rest) (foldl (enqueue e.1.1) q (requests e)).
Proof using All.
  intros (Hok & [Hpath Hqueue] & Hkeys) Hset.
  assert (path_ok (e :: rest)) as Hpath' by done.
  split; [done|]. intros x r c Hx.
  rewrite enqueue_fold in Hx.
  - destruct (q !! x) as [[r0 c0]|] eqn:Hq.
    + injection Hx as <- <-.
      destruct (Hqueue x r0 c0 Hq) as (Hlt & l1 & e0 & l2 & -> & Hr & Hreq & ->).
      split.
      * intros e' [->|He']%elem_of_cons; [by eapply Hkeys | by apply Hlt].
      * exists (e :: l1), e0, l2. split_and!; [done..|]. simpl. lia.
    + case_decide as Hocc; [done|]. injection Hx as <- <-.
      assert (x ∈ requests e) as Hreq by (apply occurrences_pos; lia).
      split.
      * intros e' [->|He']%elem_of_cons; [by apply requests_lt|].
        apply requests_lt in Hreq. destruct Hok as (_ & Hmin & _).
        specialize (Hmin e' He'). lia.
      * exists [], e, rest. split_and!; [done..|]. simpl. f_equal. lia.
  - intros r0 c0 Hq.
    destruct (Hqueue x r0 c0 Hq) as (_ & l1 & e0 & l2 & -> & _ & _ & ->).
    eexists. split; [done|].
    pose proof (path_ok_fits (e :: l1 ++ e0 :: l2) x (e :: l1) e0 l2 Hpath' eq_refl) as Hf.
    simpl in Hf. by rewrite Nat.add_comm.
  - pose proof (path_ok_fits (e :: rest) x [] e rest Hpath' eq_refl) as Hf.
    simpl in Hf. by rewrite Nat.add_0_r in Hf.
Qed.

(** Taking the last entry off the path and withdrawing its requests. *)
Lemma pop b rest q :
  plan_inv (b :: rest) q → plan_inv rest (foldl release q (requests b)).
Proof using All.
  intros [Hpath Hqueue]. split; [apply Hpath|].
  intros x r c Hx.
  destruct (q !! x) as [[r0 c0]|] eqn:Hq; [|by rewrite release_fold_None in Hx].
  destruct (Hqueue x r0 c0 Hq) as (Hlt & l1 & e & l2 & Heq & Hr & Hreq & ->).
  rewrite (release_fold _ _ _ r0 (demand x (l1 ++ [e]))) in Hx;
    [|done|by apply demand_requester|by eapply path_ok_fits].
  case_decide as Hocc; [|done]. injection Hx as <- <-.
  destruct l1 as [|b' l1]; simpl in Heq; injection Heq as <- Heq.
  - simpl in Hocc. lia.
  - split; [intros e' He'; apply Hlt; by right|].
    exists l1, e, l2. split_and!; [done..|]. f_equal. simpl. lia.
Qed.

Lemma release_keys ins (q : gmap nat (nat * N)) x v :
  foldl release q ins !! x = Some v → is_Some (q !! x).
Proof.
  intros Hx. destruct (q !! x) eqn:Hq; [done|]. by rewrite release_fold_None in Hx.
Qed.

(** The loop that looks for the requester. *)
Lemma unwind_spec r path q :
  plan_inv path q →
  ∃ path' q',
    unwind fs identifier_order dep_of r path q = Returns (path', q')
    ∧ plan_inv path' q'
    ∧ (∃ l, path = l ++ path')
    ∧ match path' with
      | [] => ∀ e, e ∈ path → e.1.1 ≠ r
      | e :: _ => e.1.1 = r
      end.
Proof using All.
  revert q. induction path as [|e path IH]; intros q Hinv.
  { exists [], q. split_and!; [done|done|by exists []|by intros ? ?%elem_of_nil]. }
  simpl. case_bool_decide as Hne.
  - rewrite drop_requests_eq by apply Hinv. simpl.
    destruct (IH _ (pop _ _ _ Hinv)) as (path' & q' & Hu & Hinv' & [l Hl] & Hhead).
    exists path', q'. split_and!; [done|done|exists (e :: l); by rewrite Hl|].
    destruct path'; [|done].
    intros e' [->|He']%elem_of_cons; [done | by apply Hhead].
  - exists (e :: path), q. split_and!; [done|done|by exists []|].
    by destruct (decide (e.1.1 = r)).
Qed.

(** Leaving the recipe of the last entry of the path for the next one. *)
Lemma retire b rest q :
  plan_inv (b :: rest) q → tried (b.1, S b.2) →
  pending (b.1, S b.2) rest (foldl release q (requests b)).
Proof using All.
  intros Hinv Htried. pose proof (pop _ _ _ Hinv) as Hinv'.
  destruct Hinv as [((Hlt & Hmin & Hlink & _) & _ & _) Hqueue].
  split_and!; [|done|].
  - split_and!; done.
  - intros x v [[r c] Hx]%release_keys.
    destruct (Hqueue x r c Hx) as [Hb _]. apply (Hb b). left.
Qed.

Lemma exhausted_unbuildable e f :
  at_pos e.1.1 = Returns f → is_finished f = false → e.2 = length (recipes f) →
  tried e → ¬ buildable fs (identifier f).
Proof using All.
  intros Hf Hfin Hk Htried Hb.
  pose proof (at_pos_inv _ _ Hf) as (_ & Hin & _).
  assert (∀ f', f' ∈ fs → identifier f' = identifier f → f' = f) as Huniq.
  { intros f' [i Hi]%list_elem_of_lookup Heq.
    apply list_elem_of_lookup in Hin as [j Hj].
    assert (i = j) as ->; [|congruence].
    eapply NoDup_lookup; [apply fs_wf| |].
    - unfold identifiers. by rewrite list_lookup_fmap, Hi.
    - unfold identifiers. rewrite list_lookup_fmap, Hj. simpl. by rewrite Heq. }
  inversion Hb as [f' Hf' Hfin' Heq|f' rc Hf' Hrc Hall Heq].
  - apply Huniq in Heq as ->; [congruence | done].
  - apply Huniq in Heq as ->; [|done].
    apply list_elem_of_lookup in Hrc as [j Hj].
    destruct (Htried f j rc Hf Hfin) as (i & Hi & Hnb); [|done|].
    + rewrite Hk. by eapply lookup_lt_Some.
    + by apply Hnb, Hall.
Qed.

Lemma requests_active e x :
  x ∈ requests e →
  ∃ f rc, at_pos e.1.1 = Returns f ∧ is_finished f = false
          ∧ recipes f !! e.2 = Some rc ∧ requests e = input_positions dep_of rc.
Proof using All.
  unfold requests. destruct (at_pos e.1.1) as [f| | | |]; try by intros ?%elem_of_nil.
  destruct (is_finished f) eqn:Hfin; [by intros ?%elem_of_nil|].
  destruct (recipes f !! e.2) as [rc|] eqn:Hrc; [|by intros ?%elem_of_nil].
  intros _. by exists f, rc.
Qed.

Lemma linked_requester_ne e rest : elem_ok e rest → e.1.1 ≠ e.1.2.
Proof using All.
  intros (Hlt & Hmin & Hlink & _). unfold linked in Hlink. destruct rest as [|e0 rest].
  - destruct Hlink as [-> _]. lia.
  - destruct Hlink as (e' & He' & <- & _). specialize (Hmin e' He'). lia.
Qed.

(** The end product of the search cannot be built. *)
Definition target_unbuildable : Prop :=
  ∀ f, at_pos t = Returns f → ¬ buildable fs (identifier f).

Lemma pending_length e rest q : pending e rest q → S (length rest) ≤ total.
Proof using All.
  intros ((Hlt & Hmin & _) & [Hpath _] & _).
  apply path_ok_positions in Hpath as [Hnd Hb].
  transitivity (length (e.1.1 :: rest.*1.*1)); [simpl; by rewrite !length_fmap|].
  apply NoDup_bounded_length.
  - apply NoDup_cons. split; [|done].
    intros (e1 & He1 & (e' & -> & He')%list_elem_of_fmap)%list_elem_of_fmap.
    specialize (Hmin e' He'). rewrite He1 in Hmin. lia.
  - intros p [->|Hp]%elem_of_cons; [done | by apply Hb].
Qed.

(** The backtracking loop, from an entry that has not requested its
    inputs yet: it comes to an end, and either the path is used up and the
    end product cannot be built, or an entry of the path has moved on to
    its next recipe and everything above it is gone. *)
Lemma backtrack_total fuel e rest q :
  pending e rest q →
  (∃ f, at_pos e.1.1 = Returns f ∧ is_finished f = false ∧ e.2 ≤ length (recipes f)) →
  length rest + 2 ≤ fuel →
  ∃ st,
    backtrack fs identifier_order dep_of fuel (e :: rest) q = Some (Returns st)
    ∧ ((st = ([], ∅) ∧ target_unbuildable)
       ∨ ∃ e' rest',
           st.1 = e' :: rest' ∧ pending e' rest' st.2
           ∧ (∃ f rc, at_pos e'.1.1 = Returns f ∧ is_finished f = false
                      ∧ recipes f !! e'.2 = Some rc)
           ∧ (e' :: rest' = e :: rest
              ∨ ∃ l e0, l ≠ [] ∧ e :: rest = l ++ e0 :: rest' ∧ e' = (e0.1, S e0.2))).
Proof using All.
  revert e rest q.
  induction fuel as [|fuel IH]; intros e rest q Hpend (f & Hf & Hfin & Hk) Hfuel; [lia|].
  cbn [backtrack]. rewrite Hf. cbn [fbind].
  case_bool_decide as Hex; cycle 1.
  { eexists. split; [done|]. right. exists e, rest. split_and!; [done..| |by left].
    destruct (lookup_lt_is_Some_2 (recipes f) e.2) as [rc Hrc]; [lia|].
    by exists f, rc. }
  destruct Hpend as (Hok & Hinv & Hkeys).
  cbn [unwind]. rewrite bool_decide_true by (by eapply linked_requester_ne).
  rewrite drop_requests_eq by apply Hok. cbn [obind].
  assert (requests e = []) as Hnone.
  { unfold requests. rewrite Hf, Hfin. by rewrite lookup_ge_None_2 by lia. }
  rewrite Hnone. cbn [foldl].
  destruct (unwind_spec e.1.2 rest q Hinv) as (path' & q' & Hu & Hinv' & [l Hl] & Hhead).
  rewrite Hu. cbn [fst snd].
  destruct Hok as (Hlt & Hmin & Hlink & Htried).
  destruct path' as [|e1 rest1].
  { destruct fuel as [|fuel]; [lia|]. cbn [backtrack]. eexists. split; [done|]. left. split.
    - f_equal. apply queue_ok_empty, Hinv'.
    - unfold linked in Hlink. destruct rest as [|e0 rest0].
      + destruct Hlink as [_ Ht]. intros f' Hf'. rewrite <-Ht, Hf in Hf'.
        injection Hf' as <-. by eapply exhausted_unbuildable.
      + destruct Hlink as (e2 & He2 & Hpos & _). by destruct (Hhead e2 He2). }
  assert (e1 ∈ rest) as He1 by (rewrite Hl; apply elem_of_app; right; left).
  unfold linked in Hlink. destruct rest as [|e0 rest0]; [by apply elem_of_nil in He1|].
  destruct Hlink as (e2 & He2 & Hpos & Hreq).
  destruct (path_ok_unique (e0 :: rest0) e1 e2) as (_ & _ & _ & <-);
    [apply Hinv|done|done|congruence|].
  destruct (requests_active e1 _ Hreq) as (f1 & rc1 & Hf1 & Hfin1 & Hrc1 & Hreq1).
  rewrite drop_requests_eq by (by eapply at_pos_inv). cbn [fbind].
  destruct (IH (e1.1, S e1.2) rest1 (foldl release q' (requests e1)))
    as (st & Hrun & Hpost).
  - apply retire; [done|].
    intros f' j rc' Hf' Hfin' Hj Hrc'. simpl in *.
    rewrite Hf1 in Hf'. injection Hf' as <-.
    destruct (decide (j = e1.2)) as [->|Hne].
    + rewrite Hrc1 in Hrc'. injection Hrc' as <-.
      rewrite Hreq1 in Hreq.
      destruct (input_position _ _ _ _ Hf1 ltac:(by eapply list_elem_of_lookup_2) Hreq)
        as (_ & input & Hin & Hinput).
      exists input. split; [done|].
      pose proof (at_pos_inv _ _ Hf) as (_ & _ & Hid).
      rewrite Hid in Hinput. injection Hinput as <-.
      by eapply exhausted_unbuildable.
    + destruct Hinv' as [((_ & _ & _ & Ht1) & _) _].
      eapply (Ht1 f1 j rc'); [done|done|lia|done].
  - exists f1. simpl. split_and!; [done..|]. apply lookup_lt_Some in Hrc1. lia.
  - apply (f_equal length) in Hl. rewrite length_app in Hl. simpl in *. lia.
  - exists st. split; [done|].
    destruct Hpost as [?|(e' & rest' & Hst & Hpend' & Hact & Hhist)]; [by left|].
    right. exists e', rest'. split_and!; [done..|]. right.
    destruct Hhist as [[= -> ->]|(l2 & e3 & Hl2 & Heq & ->)].
    + exists (e :: l), e1. split_and!; [done|by rewrite Hl|done].
    + destruct l2 as [|e4 l2]; [done|]. injection Heq as _ ->.
      exists (e :: l ++ e1 :: l2), e3. split_and!; [done| |done].
      rewrite Hl. simpl. by rewrite <-app_assoc.
Qed.

Lemma settle_requests e rest q (ins : list nat) :
  pending e rest q → settled e → requests e = ins →
  plan_inv (e :: rest) (foldl (enqueue e.1.1) q ins).
Proof using All. intros Hp Hs <-. by apply settle. Qed.

(** *** The search comes to an end

    Read from its first entry, the path is a numeral in base [radix fs]
    whose digits are the recipe ordinals plus one; every turn of the main
    loop makes it larger. *)
Fixpoint weight (path : list path_elem) : nat :=
  match path with
  | [] => 0
  | e :: rest => S e.2 * radix fs ^ (total - length rest) + weight rest
  end.

(** What the last entry of the path can still grow by. *)
Definition free (path : list path_elem) : nat := radix fs ^ (S total - length path).

Definition bounded (e : path_elem) : Prop := S e.2 < radix fs.

Lemma radix_pow_pos n : 0 < radix fs ^ n.
Proof. assert (radix fs ^ n ≠ 0); [by apply Nat.pow_nonzero | lia]. Qed.

Lemma weight_push e rest : weight rest < weight (e :: rest).
Proof. simpl. pose proof (radix_pow_pos (total - length rest)). lia. Qed.

Lemma weight_next e rest :
  weight ((e.1, S e.2) :: rest) = weight (e :: rest) + free (e :: rest).
Proof. unfold free. simpl. lia. Qed.

Lemma weight_carry l rest :
  length (l ++ rest) ≤ total → Forall bounded l →
  weight (l ++ rest) + free (l ++ rest) ≤ weight rest + free rest.
Proof.
  induction l as [|e l IH]; intros Hlen Hb; [done|].
  simpl in Hlen. apply Forall_cons in Hb as [He Hb].
  specialize (IH ltac:(lia) Hb). unfold free, bounded in *. simpl.
  replace (S total - length (l ++ rest)) with (S (total - length (l ++ rest))) in IH by lia.
  rewrite Nat.pow_succ_r' in IH. nia.
Qed.

Lemma weight_bound path :
  length path ≤ total → Forall bounded path → weight path < radix fs ^ S total.
Proof.
  intros Hlen Hb. pose proof (weight_carry path []) as Hc.
  rewrite app_nil_r in Hc. specialize (Hc Hlen Hb).
  pose proof (radix_pow_pos (S total - length path)).
  unfold free in Hc. cbn [weight length] in Hc. rewrite Nat.sub_0_r in Hc. lia.
Qed.

Lemma settled_bounded e : settled e → bounded e.
Proof using All.
  intros (f & Hf & Hk). apply at_pos_inv in Hf as (_ & Hf & _).
  pose proof (max_recipes_le fs f Hf). unfold bounded, radix. lia.
Qed.

Lemma path_ok_bounded path : path_ok path → Forall bounded path.
Proof using All.
  induction path as [|e path IH]; [done|].
  intros (_ & Hset & Hok). constructor; [by apply settled_bounded | by apply IH].
Qed.

(** One turn of the main loop, after the front of the queue is taken. *)
Lemma search_turn fuel path q x r c :
  (∀ path' q', plan_inv path' q' → path' ≠ [] → weight path < weight path' →
     ∃ final, search fs identifier_order dep_of fuel path' q' = Some (Returns final)
              ∧ plan_inv final ∅ ∧ (final = [] → target_unbuildable)) →
  total + 3 ≤ fuel →
  queue_begin q = Some (x, (r, c)) →
  pending (x, r, 0) path (delete x q) →
  ∃ final, search fs identifier_order dep_of (S fuel) path q = Some (Returns final)
           ∧ plan_inv final ∅ ∧ (final = [] → target_unbuildable).
Proof using All.
  intros IH Hfuel Hbegin Hpend. cbn [search]. rewrite Hbegin. simpl.
  destruct (at_pos_Some x) as (f & Hf & _); [apply Hpend|].
  rewrite Hf. cbn [fbind].
  destruct (is_finished f) eqn:Hfin.
  { apply IH; [|done|apply weight_push].
    refine (settle_requests (x, r, 0) path (delete x q) [] _ _ _); [done| |].
    - exists f. split; [done | by left].
    - unfold requests. simpl. by rewrite Hf, Hfin. }
  destruct (recipes f) as [|recipe rcs] eqn:Hrcs; cycle 1.
  { apply IH; [|done|apply weight_push].
    refine (settle_requests (x, r, 0) path (delete x q) _ _ _ _); [done| |].
    + exists f. split; [done|]. right. rewrite Hrcs. simpl. lia.
    + unfold requests. simpl. by rewrite Hf, Hfin, Hrcs. }
  pose proof (pending_length _ _ _ Hpend) as Hlen.
  destruct (backtrack_total fuel (x, r, 0) path (delete x q)) as (st & Hback & Hpost);
    [done| |lia|].
  { exists f. simpl. rewrite Hrcs. split_and!; [done..|simpl; lia]. }
  unfold path_elem in *. rewrite Hback. cbn [fbind].
  destruct Hpost as [[-> Hunb]|(e' & rest' & Hst & Hpend' & (f' & rc' & Hf' & Hfin' & Hrc') & Hhist)].
  { destruct fuel as [|fuel]; [lia|]. exists []. split_and!; [done| |done].
    split; [done|]. by intros x0 r0 c0 ?. }
  rewrite Hst, Hf'. cbn [fbind]. rewrite Hrc'.
  destruct st as [path' q']. simpl in Hst, Hpend'. subst path'.
  apply IH; [|done|].
  - refine (settle_requests e' rest' q' _ _ _ _); [done| |].
    + exists f'. split; [done|]. right. by eapply lookup_lt_Some.
    + unfold requests. by rewrite Hf', Hfin', Hrc'.
  - destruct Hhist as [[= -> ->]|(l & e0 & Hl & Heq & ->)].
    { simpl in Hf'. rewrite Hf in Hf'. injection Hf' as <-. by rewrite Hrcs in Hrc'. }
    rewrite weight_next.
    pose proof (weight_push (x, r, 0) path) as Hpush.
    pose proof (weight_carry l (e0 :: rest')) as Hcarry.
    pose proof (radix_pow_pos (S total - length (l ++ e0 :: rest'))) as Hpos.
    unfold free in Hcarry at 1.
    assert (Forall bounded (l ++ e0 :: rest')) as [Hb _]%Forall_app.
    { rewrite <-Heq. constructor; [unfold bounded, radix; simpl; lia|].
      apply path_ok_bounded, Hpend. }
    change (S (length path)) with (length ((x, r, 0) :: path)) in Hlen.
    unfold path_elem in *. rewrite Heq in Hpush, Hlen.
    specialize (Hcarry Hlen Hb). lia.
Qed.

(** The main loop comes to an end, with an empty queue. *)
Lemma search_total fuel path q :
  plan_inv path q →
  radix fs ^ S total + total + 4 ≤ fuel + weight path →
  ∃ final, search fs identifier_order dep_of fuel path q = Some (Returns final)
           ∧ plan_inv final ∅ ∧ (final = [] → path = [] ∨ target_unbuildable).
Proof using All.
  revert path q. induction fuel as [|fuel IH]; intros path q Hinv Hfuel;
    pose proof (weight_bound path (path_ok_length _ (proj1 Hinv))
                  (path_ok_bounded _ (proj1 Hinv))) as Hw; [lia|].
  destruct (queue_begin q) as [[x [r c]]|] eqn:Hbegin.
  - destruct (search_turn fuel path q x r c) as (final & Hrun & Hinv' & Hunb);
      [|lia|done|by eapply dequeue_pending|].
    + intros path' q' Hinv' Hne Hlt.
      destruct (IH path' q' Hinv') as (final & Hrun & Hfinal & Hcase); [lia|].
      exists final. split_and!; [done..|]. intros ->. by destruct Hcase.
    + exists final. split_and!; [done..|]. intros ?. right. by apply Hunb.
  - cbn [search]. rewrite Hbegin. exists path. split_and!; [done| |by left].
    by apply queue_begin_None in Hbegin as ->.
Qed.

(** The search for one end product comes to an end; when it leaves the
    path empty the end product cannot be built. *)
Lemma search_target_total fuel :
  t < total → radix fs ^ S total + total + 4 ≤ fuel →
  ∃ final,
    search fs identifier_order dep_of fuel [] {[ t := (total, 1%N) ]} = Some (Returns final)
    ∧ plan_inv final ∅ ∧ (final = [] → target_unbuildable).
Proof using All.
  intros Ht Hfuel. destruct fuel as [|fuel]; [lia|].
  assert (queue_begin ({[ t := (total, 1%N) ]} : gmap nat (nat * N))
          = Some (t, (total, 1%N))) as Hbegin.
  { unfold queue_begin. by rewrite map_to_list_singleton. }
  eapply search_turn; [|lia|done|].
  - intros path' q' Hinv Hne Hlt. simpl in Hlt.
    destruct (search_total fuel path' q' Hinv) as (final & Hrun & Hfinal & Hcase); [lia|].
    exists final. split_and!; [done..|]. intros ->. by destruct Hcase.
  - rewrite delete_singleton_eq. split_and!.
    + split_and!; [done|by intros ? ?%elem_of_nil|done|].
      intros f j rc _ _ Hj. simpl in Hj. lia.
    + split; [done|]. by intros x r c ?.
    + by intros x v ?.
Qed.

(** Whatever the fuel, a search that comes to an end has found this
    result. *)
Lemma search_target fuel res :
  t < total →
  search fs identifier_order dep_of fuel [] {[ t := (total, 1%N) ]} = Some res →
  ∃ final, res = Returns final ∧ plan_inv final ∅ ∧ (final = [] → target_unbuildable).
Proof using All.
  intros Ht Hrun.
  destruct (search_target_total (fuel + (radix fs ^ S total + total + 4)) Ht)
    as (final & Hrun' & Hpost); [lia|].
  rewrite (search_mono _ _ _ fuel _ _ _ _ Hrun) in Hrun' by lia.
  exists final. split; [congruence | done].
Qed.

(** What the path found for an end product looks like. *)
Lemma plan_inv_elem final e :
  plan_inv final ∅ → e ∈ final → e.1.1 < total ∧ settled e ∧ tried e.
Proof using All.
  intros [Hpath _]. induction final as [|e0 final IH]; [by intros ?%elem_of_nil|].
  destruct Hpath as ((Hlt & _ & _ & Htried) & Hset & Hpath).
  intros [->|He]%elem_of_cons; [done | by apply IH].
Qed.

Lemma plan_inv_last final :
  plan_inv final ∅ → final ≠ [] → ∃ l k, final = l ++ [(t, total, k)].
Proof using All.
  intros [Hpath _] Hne. induction final as [|e final IH]; [done|].
  destruct Hpath as ((_ & _ & Hlink & _) & _ & Hpath).
  destruct final as [|e' final].
  - destruct Hlink as [Hr Hp]. exists [], e.2. simpl.
    destruct e as [[p r] k]. simpl in *. by subst.
  - destruct (IH Hpath) as (l & k & Hl); [done|]. exists (e :: l), k. by rewrite Hl.
Qed.
(** Every entry of the path found is the end product or was requested by
    an entry of the path. *)
Lemma plan_inv_requested final e :
  plan_inv final ∅ → e ∈ final →
  e.1.1 = t ∨ ∃ e', e' ∈ final ∧ e.1.1 ∈ requests e'.
Proof using All.
  intros [Hpath _]. induction final as [|e0 final IH]; [by intros ?%elem_of_nil|].
  destruct Hpath as ((_ & _ & Hlink & _) & _ & Hpath).
  intros [->|He]%elem_of_cons.
  - unfold linked in Hlink. destruct final as [|e1 final]; [left; apply Hlink|].
    destruct Hlink as (e' & He' & _ & Hreq). right. exists e'. split; [by right | done].
  - destruct (IH Hpath He) as [?|(e' & He' & Hreq)]; [by left|].
    right. exists e'. split; [by right | done].
Qed.

Lemma requests_input e x :
  x ∈ requests e →
  ∃ f rc input, at_pos e.1.1 = Returns f ∧ is_finished f = false
                ∧ recipes f !! e.2 = Some rc ∧ input ∈ inputs rc
                ∧ identifier_order !! x = Some input.
Proof using All.
  intros Hx. destruct (requests_active e x Hx) as (f & rc & Hf & Hfin & Hrc & Hreq).
  rewrite Hreq in Hx.
  destruct (input_position _ _ _ _ Hf ltac:(by eapply list_elem_of_lookup_2) Hx)
    as (_ & input & Hin & Hinput).
  by exists f, rc, input.
Qed.
End planner_invariant.

(** ** Fuel *)

Lemma kahn_loop_mono fuel fuel' g d stack order res :
  kahn_loop fuel g d stack order = Some res → fuel ≤ fuel' →
  kahn_loop fuel' g d stack order = Some res.
Proof.
  revert fuel' d stack order. induction fuel as [|fuel IH]; intros fuel' d stack order H Hle;
    [done|].
  destruct fuel' as [|fuel']; [lia|]. simpl in *.
  destruct stack as [|i stack]; [done|]. apply IH; [done | lia].
Qed.

Lemma dependency_order_mono fuel fuel' fs res :
  dependency_order fuel fs = Some res → fuel ≤ fuel' →
  dependency_order fuel' fs = Some res.
Proof.
  unfold dependency_order. intros H Hle.
  destruct (build_graph _ _ _ _ _) as [g| | | |]; simpl in *; try done.
  destruct (kahn_loop fuel _ _ _ _) as [order|] eqn:Hk; [|done].
  by rewrite (kahn_loop_mono _ _ _ _ _ _ _ Hk Hle).
Qed.

Lemma make_plan_mono hash_order fuel fuel' fs products res :
  make_plan hash_order fuel fs products = Some res → fuel ≤ fuel' →
  make_plan hash_order fuel' fs products = Some res.
Proof.
  unfold make_plan, full_plan. intros Hrun Hle.
  destruct (dependency_order fuel fs) as [found|] eqn:Horder; [|done].
  rewrite (dependency_order_mono _ _ _ _ Horder Hle).
  destruct found as [order| | | |]; cbn [fbind] in *; try done.
  destruct (plan_products _ _ _ fuel _ _) as [pe|] eqn:Hpe; [|done].
  by rewrite (plan_products_mono _ _ _ _ _ _ _ _ Hpe Hle).
Qed.

Lemma dependency_order_result fuel fs res :
  wf_registry fs → registry_fits fs →
  dependency_order fuel fs = Some res →
  (∃ order, res = Returns order ∧ order ≡ₚ identifiers fs
            ∧ ∀ a b, depends fs a b → precedes a b order)
  ∨ (res = Exits ∧ cyclic fs).
Proof.
  intros Hwf Hfits Hrun.
  apply (dependency_order_mono _ (fuel + S (length fs))) in Hrun; [|lia].
  destruct (dependency_order_correct fs Hwf) with (fuel := fuel + S (length fs))
    as [(order' & Hrun' & Hperm & Htopo)|[Hrun' Hcyc]].
  - unfold registry_fits in Hfits. lia.
  - lia.
  - left. exists order'. split; [congruence | done].
  - right. split; [congruence | done].
Qed.

Lemma dependency_order_returns fuel fs order :
  wf_registry fs → registry_fits fs →
  dependency_order fuel fs = Some (Returns order) →
  order ≡ₚ identifiers fs ∧ ∀ a b, depends fs a b → precedes a b order.
Proof.
  intros Hwf Hfits Hrun.
  destruct (dependency_order_result _ _ _ Hwf Hfits Hrun)
    as [(order' & [= <-] & Hperm & Htopo)|[[=] _]].
  done.
Qed.

(** ** The elements of a plan *)

Lemma remove_finished_filter fs plan plan' :
  remove_finished fs plan = Returns plan' → plan' = filter (still_needed fs) plan.
Proof.
  revert plan'. induction plan as [|c plan IH]; intros plan' H; simpl in H.
  { by injection H as <-. }
  rewrite filter_cons.
  destruct (decide (still_needed fs c)) as [Hn|Hn]; unfold still_needed in Hn;
    destruct (get_index fs c.1) as [f| | | |]; simpl in H; try done;
    destruct (remove_finished fs plan) as [rest| | | |]; simpl in H; try done;
    injection H as <-; rewrite (IH rest eq_refl); by destruct (is_finished f).
Qed.

Lemma StronglySorted_filter {A} (R : relation A) (P : A → Prop) `{∀ x, Decision (P x)}
    (l : list A) :
  StronglySorted R l → StronglySorted R (filter P l).
Proof.
  induction 1 as [|x l Hs IH Hall]; [constructor|].
  rewrite filter_cons. case_decide; [|done].
  constructor; [done|]. rewrite Forall_forall in *.
  intros y [_ Hy]%list_elem_of_filter. by apply Hall.
Qed.

Global Instance dep_le_trans dep : Transitive (dep_le dep).
Proof. intros a b c. unfold dep_le. lia. Qed.

Global Instance dep_le_total dep : Total (dep_le dep).
Proof. intros a b. unfold dep_le. lia. Qed.

Lemma emplace_elem_of (c x : string * nat) (s : list (string * nat)) :
  x ∈ emplace c s ↔ x ∈ s ∨ x = c.
Proof.
  unfold emplace. case_bool_decide.
  - split; [by left|]. by intros [?| ->].
  - rewrite elem_of_app, list_elem_of_singleton. done.
Qed.

Lemma emplace_NoDup (c : string * nat) (s : list (string * nat)) :
  NoDup s → NoDup (emplace c s).
Proof.
  intros Hnd. unfold emplace. case_bool_decide; [done|].
  apply NoDup_app. split_and!; [done| |apply NoDup_singleton].
  by intros x Hx ->%list_elem_of_singleton.
Qed.

Lemma record_path_spec (order : list string) (path : list path_elem)
    (pe : list (string * nat)) :
  (∀ e, e ∈ path → e.1.1 < length order) →
  ∃ pe', record_path order path pe = Returns pe'
         ∧ (∀ x, x ∈ pe' ↔ x ∈ pe ∨ ∃ e, e ∈ path ∧ order !! e.1.1 = Some x.1 ∧ x.2 = e.2)
         ∧ (NoDup pe → NoDup pe').
Proof.
  revert pe. induction path as [|e path IH]; intros pe Hb.
  { exists pe. split_and!; [done| |done]. intros x. split; [by left|].
    by intros [?|(? & []%elem_of_nil & _)]. }
  simpl. destruct (lookup_lt_is_Some_2 order e.1.1) as [id Hid]; [apply Hb; left|].
  rewrite Hid.
  destruct (IH (emplace (id, e.2) pe)) as (pe' & Hrun & Hmem & Hnd).
  { intros e' He'. apply Hb. by right. }
  exists pe'. split_and!; [done| |by intros ?%(emplace_NoDup (id, e.2))%Hnd].
  intros x. rewrite Hmem, emplace_elem_of. split.
  - intros [[?| ->]|(e' & He' & Hx)]; [by left| |].
    + right. exists e. split_and!; [left|done..].
    + right. exists e'. split; [by right | done].
  - intros [?|(e' & [->|He']%elem_of_cons & Hx1 & Hx2)]; [by left; left| |].
    + left. right. destruct x as [x1 x2]. simpl in *. congruence.
    + right. by exists e'.
Qed.

Lemma registry_fits_inputs fs :
  registry_fits fs → (N.of_nat (length fs * max_inputs fs) < size_max)%N.
Proof. unfold registry_fits. nia. Qed.

Lemma registry_fits_length fs :
  registry_fits fs → (N.of_nat (length fs) < size_max)%N.
Proof. unfold registry_fits. nia. Qed.

Section plan_products.
Context (fs : list IndexFile) (identifier_order : list string).
Hypothesis fs_wf : wf_registry fs.
Hypothesis order_perm : identifier_order ≡ₚ identifiers fs.
Hypothesis order_topo : ∀ a b, depends fs a b → precedes a b identifier_order.
Hypothesis fs_fits : registry_fits fs.

Abbreviation dep_of := (index_table identifier_order 0 ∅).

Lemma search_start fuel t v res :
  search fs identifier_order dep_of fuel [] {[ t := v ]} = Some res →
  res ≠ Undefined → t < length identifier_order.
Proof.
  destruct fuel as [|fuel]; [done|]. simpl.
  assert (queue_begin ({[ t := v ]} : gmap nat (nat * N)) = Some (t, v)) as ->.
  { unfold queue_begin. by rewrite map_to_list_singleton. }
  simpl. unfold index_at.
  destruct (identifier_order !! t) as [id|] eqn:Hid; [|by intros [= <-]].
  intros _ _. by eapply lookup_lt_Some.
Qed.

Lemma path_choice t final e :
  plan_inv fs identifier_order t final ∅ → e ∈ final →
  ∃ id, identifier_order !! e.1.1 = Some id ∧ good_choice fs (id, e.2).
Proof using All.
  intros Hinv He.
  destruct (plan_inv_elem fs identifier_order fs_wf order_perm order_topo
              (registry_fits_inputs _ fs_fits) t final e Hinv He)
    as (Hlt & (f & Hf & Hset) & Htried).
  pose proof Hf as Hf'. unfold index_at in Hf'.
  destruct (identifier_order !! e.1.1) as [id|] eqn:Hid; [|done].
  exists id. split; [done|]. exists f. split_and!; [done|tauto|].
  intros Hfin j rc Hj Hrc. by eapply Htried.
Qed.

Lemma plan_products_spec fuel products pe pe' :
  NoDup pe → (∀ c, c ∈ pe → good_choice fs c) →
  plan_products fs identifier_order dep_of fuel products pe = Some (Returns pe') →
  NoDup pe' ∧ (∀ c, c ∈ pe' → good_choice fs c) ∧ (∀ c, c ∈ pe → c ∈ pe')
  ∧ ∀ T, T ∈ products → T ∈ identifiers fs → ∃ k, (T, k) ∈ pe'.
Proof using All.
  revert pe. induction products as [|product rest IH]; intros pe Hnd Hgood Hrun.
  { simpl in Hrun. injection Hrun as <-. split_and!; [done..|]. by intros T ?%elem_of_nil. }
  simpl in Hrun.
  destruct (search _ _ _ fuel [] _) as [[final| | | |]|] eqn:Hsearch; try done.
  simpl in Hrun. destruct final as [|e0 final0] eqn:Hfinal; [done|]. rewrite <-Hfinal in *.
  pose proof (search_start _ _ _ _ Hsearch ltac:(done)) as Ht.
  apply (search_target fs identifier_order fs_wf order_perm order_topo
           (registry_fits_inputs _ fs_fits)) in Hsearch as (? & [= <-] & Hsearch & _);
    [|done].
  destruct (record_path_spec identifier_order (reverse final) pe) as (pe1 & Hrec & Hmem & Hnd1).
  { intros e He. rewrite elem_of_reverse in He.
    by destruct (plan_inv_elem fs identifier_order fs_wf order_perm order_topo
                   (registry_fits_inputs _ fs_fits) _ final e Hsearch He) as [? _]. }
  rewrite Hfinal in Hrun. rewrite <-Hfinal in Hrun. rewrite Hrec in Hrun. simpl in Hrun.
  destruct (IH pe1) as (Hnd' & Hgood' & Hsub & Htargets); [by apply Hnd1| |done|].
  { intros c [Hc|(e & He & Hid & Hk)]%Hmem; [by apply Hgood|].
    rewrite elem_of_reverse in He.
    destruct (path_choice _ _ e Hsearch He) as (id & Hid' & Hg).
    destruct c as [c1 c2]. simpl in *. congruence. }
  split_and!; [done|done| |].
  - intros c Hc. apply Hsub, Hmem. by left.
  - intros T [->|HT]%elem_of_cons Hreg; [|by apply Htargets].
    destruct (plan_inv_last fs identifier_order fs_wf order_perm order_topo
                (registry_fits_inputs _ fs_fits) _ final Hsearch)
      as (l & k & Hl); [by rewrite Hfinal|].
    exists k. apply Hsub, Hmem. right.
    exists (subscript dep_of product, length identifier_order, k).
    split_and!; [|simpl|done].
    + apply elem_of_reverse. rewrite Hl. apply elem_of_app. right. left.
    + rewrite <-order_perm in Hreg. apply list_elem_of_lookup in Hreg as [i Hi].
      rewrite (subscript_present _ _ i); [done| |done].
      rewrite order_perm. apply fs_wf.
Qed.

(** The loop over the end products comes to an end: with the elements
    of a path for every end product, or at the first end product whose
    search leaves nothing, and that one cannot be built. *)
Lemma plan_products_total fuel products pe :
  (∀ T, T ∈ products → subscript dep_of T < length identifier_order) →
  radix fs ^ S (length identifier_order) + length identifier_order + 4 ≤ fuel →
  (∃ pe', plan_products fs identifier_order dep_of fuel products pe = Some (Returns pe'))
  ∨ ∃ T f,
      T ∈ products
      ∧ plan_products fs identifier_order dep_of fuel products pe
        = Some (Throws (InsufficientInputException T (completed_indexes fs)))
      ∧ index_at fs identifier_order (subscript dep_of T) = Returns f
      ∧ ¬ buildable fs (identifier f).
Proof using All.
  revert pe. induction products as [|product rest IH]; intros pe Hpos Hfuel.
  { left. by exists pe. }
  assert (subscript dep_of product < length identifier_order) as Ht by (apply Hpos; left).
  cbn [plan_products].
  destruct (search_target_total fs identifier_order fs_wf order_perm order_topo
              (registry_fits_inputs _ fs_fits) (subscript dep_of product) fuel)
    as (final & Hrun & Hinv & Hunb); [done..|].
  rewrite Hrun. cbn [fbind].
  destruct final as [|e0 final0] eqn:Hfinal.
  - right.
    destruct (at_pos_Some fs identifier_order fs_wf order_perm order_topo
                (registry_fits_inputs _ fs_fits) (subscript dep_of product) _ Ht)
      as (f & Hf & _).
    exists product, f. split_and!; [left|done|done|by apply Hunb].
  - rewrite <-Hfinal in *.
    destruct (record_path_spec identifier_order (reverse final) pe) as (pe1 & Hrec & _).
    { intros e He. rewrite elem_of_reverse in He.
      by destruct (plan_inv_elem fs identifier_order fs_wf order_perm order_topo
                     (registry_fits_inputs _ fs_fits) _ final e Hinv He) as [? _]. }
    rewrite Hrec. cbn [fbind].
    destruct (IH pe1) as [[pe' Hpe']|(T & f & HT & Hthrow & Hf & Hnb)];
      [intros T HT; apply Hpos; by right|done| |].
    + left. by exists pe'.
    + right. exists T, f. split_and!; [by right|done..].
Qed.

(** Whatever the fuel, the exception is only raised for an end product
    that cannot be built. *)
Lemma plan_products_throws fuel products pe T cs :
  plan_products fs identifier_order dep_of fuel products pe
  = Some (Throws (InsufficientInputException T cs)) →
  T ∈ products
  ∧ ∃ f, index_at fs identifier_order (subscript dep_of T) = Returns f
         ∧ ¬ buildable fs (identifier f).
Proof using All.
  revert pe. induction products as [|product rest IH]; intros pe Hrun; [done|].
  cbn [plan_products] in Hrun.
  destruct (search _ _ _ fuel [] _) as [res|] eqn:Hsearch; [|done].
  assert (res ≠ Undefined) as Hres by (by intros ->).
  pose proof (search_start _ _ _ _ Hsearch Hres) as Ht.
  apply (search_target fs identifier_order fs_wf order_perm order_topo
           (registry_fits_inputs _ fs_fits)) in Hsearch as (final & -> & Hinv & Hunb);
    [|done].
  cbn [fbind] in Hrun.
  destruct (record_path_spec identifier_order (reverse final) pe) as (pe1 & Hrec & _).
  { intros e He. rewrite elem_of_reverse in He.
    by destruct (plan_inv_elem fs identifier_order fs_wf order_perm order_topo
                   (registry_fits_inputs _ fs_fits) _ final e Hinv He) as [? _]. }
  destruct final as [|e0 final0].
  - injection Hrun as <- <-. split; [left|].
    destruct (at_pos_Some fs identifier_order fs_wf order_perm order_topo
                (registry_fits_inputs _ fs_fits) (subscript dep_of product) _ Ht)
      as (f & Hf & _).
    exists f. split; [done | by apply Hunb].
  - rewrite Hrec in Hrun. cbn [fbind] in Hrun.
    destruct (IH _ Hrun) as [HT Hf]. split; [by right | done].
Qed.

Lemma asked_for_mono roots pe pe' c :
  (∀ x, x ∈ pe → x ∈ pe') → asked_for fs roots pe c → asked_for fs roots pe' c.
Proof.
  intros Hsub [?|(c' & f & rc & Hc' & Hrest)]; [by left|].
  right. exists c', f, rc. split; [by apply Hsub | done].
Qed.

(** No choice is recorded that nothing asked for. *)
Lemma plan_products_asked_for fuel products roots pe pe' :
  (∀ T, T ∈ products → T ∈ identifiers fs ∧ T ∈ roots) →
  (∀ c, c ∈ pe → asked_for fs roots pe c) →
  plan_products fs identifier_order dep_of fuel products pe = Some (Returns pe') →
  ∀ c, c ∈ pe' → asked_for fs roots pe' c.
Proof using All.
  revert pe. induction products as [|product rest IH]; intros pe Hroots Hpe Hrun.
  { simpl in Hrun. by injection Hrun as <-. }
  cbn [plan_products] in Hrun.
  destruct (search _ _ _ fuel [] _) as [res|] eqn:Hsearch; [|done].
  assert (res ≠ Undefined) as Hres by (by intros ->).
  pose proof (search_start _ _ _ _ Hsearch Hres) as Ht.
  apply (search_target fs identifier_order fs_wf order_perm order_topo
           (registry_fits_inputs _ fs_fits)) in Hsearch as (final & -> & Hinv & _);
    [|done].
  cbn [fbind] in Hrun.
  destruct (record_path_spec identifier_order (reverse final) pe) as (pe1 & Hrec & Hmem & _).
  { intros e He. rewrite elem_of_reverse in He.
    by destruct (plan_inv_elem fs identifier_order fs_wf order_perm order_topo
                   (registry_fits_inputs _ fs_fits) _ final e Hinv He) as [? _]. }
  destruct final as [|e0 final0] eqn:Hfinal; [done|]. rewrite <-Hfinal in *.
  rewrite Hfinal in Hrun. rewrite <-Hfinal in Hrun. rewrite Hrec in Hrun.
  cbn [fbind] in Hrun.
  apply (IH pe1); [intros T HT; apply Hroots; by right| |done].
  assert (∀ e f, e ∈ final → index_at fs identifier_order e.1.1 = Returns f →
                 (identifier f, e.2) ∈ pe1 ∧ get_index fs (identifier f) = Returns f)
    as Hrecorded.
  { intros e f He Hf.
    pose proof (at_pos_inv fs identifier_order fs_wf order_perm order_topo
                  (registry_fits_inputs _ fs_fits) 0 _ _ Hf) as (_ & _ & Hid).
    split.
    - apply Hmem. right. exists e. split_and!; [by apply elem_of_reverse|done..].
    - unfold index_at in Hf. by rewrite Hid in Hf. }
  intros c [Hc|(e & He & Hid & Hk)]%Hmem.
  { eapply asked_for_mono; [|by apply Hpe]. intros x Hx. apply Hmem. by left. }
  rewrite elem_of_reverse in He.
  destruct (plan_inv_requested fs identifier_order fs_wf order_perm order_topo
              (registry_fits_inputs _ fs_fits) _ final e Hinv He)
    as [Htarget|(e' & He' & Hreq)].
  - left. destruct (Hroots product) as [Hreg Hroot]; [left|].
    rewrite <-order_perm in Hreg. apply list_elem_of_lookup in Hreg as [i Hi].
    rewrite Htarget, (subscript_present _ _ i) in Hid; [|rewrite order_perm; apply fs_wf|done].
    congruence.
  - right.
    destruct (requests_input fs identifier_order fs_wf order_perm order_topo
                (registry_fits_inputs _ fs_fits) 0 _ _ Hreq)
      as (f & rc & input & Hf & Hfin & Hrc & Hin & Hinput).
    destruct (Hrecorded e' f He' Hf) as [Hpe1 Hget].
    exists (identifier f, e'.2), f, rc. split_and!; [done..|].
    simpl. congruence.
Qed.
End plan_products.

Section make_plan_correct.
Context (hash_order : list (string * nat) → list (string * nat)).
Hypothesis hash_order_perm : ∀ l, hash_order l ≡ₚ l.

Lemma full_plan_spec fuel fs products full :
  wf_registry fs → registry_fits fs →
  full_plan hash_order fuel fs products = Some (Returns full) →
  ∃ order,
    dependency_order fuel fs = Some (Returns order)
    ∧ NoDup full
    ∧ StronglySorted (dep_le (index_table order 0 ∅)) full
    ∧ (∀ c, c ∈ full → good_choice fs c)
    ∧ ∀ T, T ∈ products → T ∈ identifiers fs → ∃ k, (T, k) ∈ full.
Proof using All.
  intros Hwf Hfits Hrun. unfold full_plan in Hrun.
  destruct (dependency_order fuel fs) as [[order| | | |]|] eqn:Horder; try done.
  simpl in Hrun.
  destruct (plan_products _ _ _ _ _ _) as [[pe| | | |]|] eqn:Hpe; try done.
  simpl in Hrun. injection Hrun as <-.
  destruct (dependency_order_returns _ _ _ Hwf Hfits Horder) as [Hperm Htopo].
  destruct (plan_products_spec fs order Hwf Hperm Htopo Hfits _ _ _ _
              (NoDup_nil_2) ltac:(by intros ? ?%elem_of_nil) Hpe)
    as (Hnd & Hgood & _ & Htargets).
  exists order. split_and!; [done| | | |].
  - by rewrite merge_sort_Permutation, hash_order_perm.
  - apply StronglySorted_merge_sort; apply _.
  - intros c. rewrite merge_sort_Permutation, hash_order_perm. apply Hgood.
  - intros T HT Hreg. destruct (Htargets T HT Hreg) as [k Hk]. exists k.
    by rewrite merge_sort_Permutation, hash_order_perm.
Qed.

Lemma make_plan_filter fuel fs products plan :
  make_plan hash_order fuel fs products = Some (Returns plan) →
  ∃ full, full_plan hash_order fuel fs products = Some (Returns full)
          ∧ plan = filter (still_needed fs) full.
Proof.
  unfold make_plan. intros Hrun.
  destruct (full_plan _ _ _ _) as [[full| | | |]|]; try done. simpl in Hrun.
  exists full. split; [done|]. apply remove_finished_filter. by injection Hrun.
Qed.

Lemma good_choice_first fs T k f rc :
  good_choice fs (T, k) → get_index fs T = Returns f → is_finished f = false →
  recipes f !! 0 = Some rc → (∀ i, i ∈ inputs rc → buildable fs i) → k = 0.
Proof.
  intros (f' & Hf' & _ & Htried) Hf Hfin Hrc Hall. simpl in *.
  rewrite Hf in Hf'. injection Hf' as <-.
  destruct k as [|k]; [done|]. exfalso.
  destruct (Htried Hfin 0 rc) as (i & Hi & Hnb); [lia|done|]. by apply Hnb, Hall.
Qed.

Lemma remove_finished_total fs plan :
  (∀ c, c ∈ plan → ∃ f, get_index fs c.1 = Returns f) →
  remove_finished fs plan = Returns (filter (still_needed fs) plan).
Proof.
  intros Hreg.
  assert (∃ plan', remove_finished fs plan = Returns plan') as [plan' Hrun].
  { induction plan as [|c plan IH]; [by exists []|]. simpl.
    destruct (Hreg c) as [f ->]; [left|]. simpl.
    destruct IH as [rest' ->]; [intros c' Hc'; apply Hreg; by right|]. simpl. by eexists. }
  by rewrite Hrun, (remove_finished_filter _ _ _ Hrun).
Qed.

Lemma target_position order T (f : IndexFile) :
  NoDup order → T ∈ order →
  order !! subscript (index_table order 0 ∅) T = Some (identifier f) → identifier f = T.
Proof.
  intros Hnd [k Hk]%list_elem_of_lookup Hf.
  rewrite (subscript_present _ _ _ Hnd Hk) in Hf. congruence.
Qed.

Lemma root_unbuildable fs order T f :
  wf_registry fs → registry_fits fs → order ≡ₚ identifiers fs →
  (∀ a b, depends fs a b → precedes a b order) →
  index_at fs order (subscript (index_table order 0 ∅) T) = Returns f →
  ¬ buildable fs (identifier f) → T ∈ identifiers fs → ¬ buildable fs T.
Proof.
  intros Hwf Hfits Hperm Htopo Hf Hnb Hreg.
  apply (at_pos_inv fs order Hwf Hperm Htopo (registry_fits_inputs _ Hfits) 0)
    in Hf as (_ & _ & Hf).
  rewrite <-(target_position order T f); [done| |by rewrite Hperm|done].
  rewrite Hperm. apply Hwf.
Qed.

Lemma make_plan_after_order fuel fs products order :
  wf_registry fs → registry_fits fs → (fs = [] → products = []) →
  dependency_order fuel fs = Some (Returns order) →
  radix fs ^ S (length fs) + length fs + 4 ≤ fuel →
  (∃ plan, make_plan hash_order fuel fs products = Some (Returns plan))
  ∨ ∃ T, T ∈ products
         ∧ make_plan hash_order fuel fs products
           = Some (Throws (InsufficientInputException T (completed_indexes fs)))
         ∧ (T ∈ identifiers fs → ¬ buildable fs T).
Proof using All.
  intros Hwf Hfits Hempty Horder Hfuel.
  destruct (dependency_order_returns _ _ _ Hwf Hfits Horder) as [Hperm Htopo].
  assert (length order = length fs) as Hlen by (rewrite Hperm; apply length_fmap).
  destruct (plan_products_total fs order Hwf Hperm Htopo Hfits fuel products [])
    as [[pe Hpe]|(T & f & HT & Hthrow & Hf & Hnb)].
  { intros T HT. apply subscript_range. intros ->.
    destruct fs; [by rewrite Hempty in HT; [apply elem_of_nil in HT|] | done]. }
  { by rewrite Hlen. }
  - left. unfold make_plan, full_plan. rewrite Horder. cbn [fbind]. rewrite Hpe. cbn [fbind].
    destruct (plan_products_spec fs order Hwf Hperm Htopo Hfits _ _ _ _
                (NoDup_nil_2) ltac:(by intros ? ?%elem_of_nil) Hpe)
      as (_ & Hgood & _).
    rewrite remove_finished_total; [by eexists|].
    intros c. rewrite merge_sort_Permutation, hash_order_perm.
    intros (f & Hf & _)%Hgood. by exists f.
  - right. exists T. split; [done|].
    assert (make_plan hash_order fuel fs products
            = Some (Throws (InsufficientInputException T (completed_indexes fs)))) as Hrun.
    { unfold make_plan, full_plan. rewrite Horder. cbn [fbind]. by rewrite Hthrow. }
    split; [done|]. by eapply root_unbuildable.
Qed.

(** Whatever the fuel, these are the ways [make_plan] can come to an
    end. *)
Lemma make_plan_result fuel fs products res :
  wf_registry fs → registry_fits fs → (fs = [] → products = []) →
  make_plan hash_order fuel fs products = Some res →
  (∃ plan, res = Returns plan)
  ∨ (∃ T, T ∈ products
          ∧ res = Throws (InsufficientInputException T (completed_indexes fs))
          ∧ (T ∈ identifiers fs → ¬ buildable fs T))
  ∨ (res = Exits ∧ cyclic fs).
Proof using All.
  intros Hwf Hfits Hempty Hrun.
  set (fuel' := fuel + (radix fs ^ S (length fs) + length fs + 4)).
  apply (make_plan_mono _ _ fuel') in Hrun; [|unfold fuel'; lia].
  destruct (dependency_order_correct fs Hwf (registry_fits_length _ Hfits) fuel')
    as [(order & Horder & _)|[Horder Hcyc]]; [unfold fuel'; lia| |].
  - destruct (make_plan_after_order fuel' fs products order)
      as [[plan Hplan]|(T & HT & Hthrow & Hnb)]; [done..|unfold fuel'; lia| |].
    + left. exists plan. congruence.
    + right. left. exists T. split_and!; [done| |done]. congruence.
  - right. right. split; [|done].
    unfold make_plan, full_plan in Hrun. rewrite Horder in Hrun. cbn [fbind] in Hrun.
    congruence.
Qed.

(** C4 (amended): in every plan [make_plan] returns, each pair of an
    artifact and a recipe ordinal occurs once, the artifact is registered
    and not finished, the ordinal is within the recipes of the artifact,
    and the pairs are in dependency order.  (That the inputs of the chosen
    recipes are themselves planned or finished is not part of this
    statement.) *)
Theorem plan_entries_well_formed fuel fs end_products plan :
  wf_registry fs → registry_fits fs →
  make_plan hash_order fuel fs end_products = Some (Returns plan) →
  NoDup plan
  ∧ (∀ id k, (id, k) ∈ plan →
             ∃ f, get_index fs id = Returns f ∧ is_finished f = false
                  ∧ k < length (recipes f))
  ∧ ∃ order, dependency_order fuel fs = Some (Returns order)
             ∧ StronglySorted (dep_le (index_table order 0 ∅)) plan.
Proof using All.
  intros Hwf Hfits (full & Hfull & ->)%make_plan_filter.
  destruct (full_plan_spec _ _ _ _ Hwf Hfits Hfull) as (order & Horder & Hnd & Hsorted & Hgood & _).
  split_and!.
  - by apply NoDup_filter.
  - intros id k [Hneeded Hin]%list_elem_of_filter.
    destruct (Hgood _ Hin) as (f & Hf & Hrange & _). simpl in *.
    unfold still_needed in Hneeded. simpl in Hneeded. rewrite Hf in Hneeded.
    exists f. split_and!; [done..|]. destruct Hrange; congruence.
  - exists order. split; [done|]. by apply StronglySorted_filter.
Qed.

(** C2 (amended): when a target is not finished and every input of its
    recipe 0 can be built, every plan [make_plan] returns has the pair of
    the target and 0 and no pair of the target and a later recipe.
    Recipes are tried in registration order: in every plan [make_plan]
    returns, whenever the plan has the recipe of ordinal [k] for an
    artifact, every recipe before [k] of that artifact has an input that
    cannot be built. *)
Theorem preferred_recipe_used fuel fs end_products plan :
  wf_registry fs → registry_fits fs →
  make_plan hash_order fuel fs end_products = Some (Returns plan) →
  (∀ T f rc, T ∈ end_products → get_index fs T = Returns f → is_finished f = false →
             recipes f !! 0 = Some rc → (∀ i, i ∈ inputs rc → buildable fs i) →
             (T, 0) ∈ plan ∧ ∀ k, (T, k) ∈ plan → k = 0)
  ∧ ∀ id k j g rcj, (id, k) ∈ plan → j < k → get_index fs id = Returns g →
                     recipes g !! j = Some rcj → ∃ i, i ∈ inputs rcj ∧ ¬ buildable fs i.
Proof using All.
  intros Hwf Hfits (full & Hfull & ->)%make_plan_filter.
  destruct (full_plan_spec _ _ _ _ Hwf Hfits Hfull) as (order & _ & _ & _ & Hgood & Htargets).
  split.
  - intros T f rc HT Hf Hfin Hrc Hall. split.
    + destruct (Htargets T HT) as [k Hk].
      { unfold get_index in Hf. destruct (find_index fs T) as [[i f']|] eqn:Hfind; [|done].
        apply find_index_Some in Hfind as [Hi <-].
        unfold identifiers. apply list_elem_of_fmap. exists f'.
        split; [done | by eapply list_elem_of_lookup_2]. }
      assert (k = 0) as -> by (by eapply good_choice_first; [apply Hgood|..]).
      apply list_elem_of_filter. split; [|done].
      unfold still_needed. simpl. by rewrite Hf.
    + intros k [_ Hin]%list_elem_of_filter. by eapply good_choice_first; [apply Hgood|..].
  - intros id k j g rcj [Hneeded Hin]%list_elem_of_filter Hj Hg Hrcj.
    destruct (Hgood _ Hin) as (g' & Hg' & _ & Htried). simpl in *.
    rewrite Hg in Hg'. injection Hg' as <-.
    unfold still_needed in Hneeded. simpl in Hneeded. rewrite Hg in Hneeded.
    by eapply Htried.
Qed.
End make_plan_correct.

(** ** Look-ups of identifiers that are not registered *)

Lemma get_index_unregistered fs id :
  id ∉ identifiers fs → get_index fs id = Throws out_of_range.
Proof. intros H%find_index_None. unfold get_index. by rewrite H. Qed.

Lemma get_index_cases fs id :
  (∃ f, get_index fs id = Returns f ∧ id ∈ identifiers fs)
  ∨ get_index fs id = Throws out_of_range.
Proof.
  unfold get_index. destruct (find_index fs id) as [[i f]|] eqn:Hfind; [left|by right].
  exists f. split; [done|]. apply find_index_Some in Hfind as [Hi <-].
  unfold identifiers. apply list_elem_of_fmap. exists f.
  split; [done | by eapply list_elem_of_lookup_2].
Qed.

Lemma resolve_inputs_cases fs ins :
  (∃ l, resolve_inputs fs ins = Returns l ∧ ∀ i, i ∈ ins → i ∈ identifiers fs)
  ∨ resolve_inputs fs ins = Throws out_of_range.
Proof.
  induction ins as [|i ins IH]; simpl.
  { left. exists []. split; [done | by intros ? ?%elem_of_nil]. }
  destruct (get_index_cases fs i) as [(f & -> & Hi)| ->]; [|by right]. simpl.
  destruct IH as [(l & -> & Hl)| ->]; [|by right]. simpl. left.
  eexists. split; [done|]. intros j [->|Hj]%elem_of_cons; [done | by apply Hl].
Qed.

(** C10: [provide] and [register_recipe] look the identifiers up with
    [registry.at], so an identifier that is not registered, as the artifact
    provided, as the output of the recipe or among its inputs, makes them
    throw [std::out_of_range]; they do not end the process with a
    diagnostic. *)
Theorem unregistered_identifier_throws (r : IndexRegistry) (id : string) :
  id ∉ identifiers (registry r) →
  (∀ fns, provide r id fns = Throws out_of_range)
  ∧ (∀ fn, provide1 r id fn = Throws out_of_range)
  ∧ (∀ ins ex, register_recipe r id ins ex = Throws out_of_range)
  ∧ (∀ out ins ex, id ∈ ins → register_recipe r out ins ex = Throws out_of_range).
Proof.
  intros Hid. pose proof Hid as Hnone%find_index_None. split_and!.
  - intros fns. unfold provide. by rewrite Hnone.
  - intros fn. unfold provide1, provide. by rewrite Hnone.
  - intros ins ex. unfold register_recipe.
    destruct (resolve_inputs_cases (registry r) ins) as [(l & -> & _)| ->]; [|done].
    simpl. by rewrite Hnone.
  - intros out ins ex Hin. unfold register_recipe.
    destruct (resolve_inputs_cases (registry r) ins) as [(l & _ & Hl)| ->]; [|done].
    destruct Hid. by apply Hl.
Qed.

(** ** Clean-up *)

Lemma to_keep_elem_of identifiers fs fn :
  fn ∈ to_keep identifiers fs
  ↔ ∃ f, f ∈ fs ∧ is_intermediate identifiers f = false ∧ fn ∈ filenames f.
Proof.
  unfold to_keep. rewrite list_elem_of_join. split.
  - intros (l & Hfn & (f & -> & [Hf Hin]%list_elem_of_filter)%list_elem_of_fmap).
    by exists f.
  - intros (f & Hf & Hint & Hfn). exists (filenames f). split; [done|].
    apply list_elem_of_fmap. exists f. split; [done|]. by apply list_elem_of_filter.
Qed.

Lemma clean_up_elem_of identifiers fs fn :
  fn ∈ clean_up identifiers fs
  ↔ (∃ f, f ∈ fs ∧ is_intermediate identifiers f = true ∧ fn ∈ filenames f)
    ∧ ¬ ∃ f, f ∈ fs ∧ is_intermediate identifiers f = false ∧ fn ∈ filenames f.
Proof.
  unfold clean_up. rewrite list_elem_of_filter, to_keep_elem_of, list_elem_of_join. split.
  - intros [Hkeep (l & Hfn & (f & -> & Hf)%list_elem_of_fmap)]. split; [|done].
    exists f. split_and!; [done| |done].
    destruct (is_intermediate identifiers f) eqn:Hint; [done|].
    destruct Hkeep. by exists f.
  - intros [(f & Hf & _ & Hfn) Hkeep]. split; [done|].
    exists (filenames f). split; [done|]. apply list_elem_of_fmap. by exists f.
Qed.

Section clean_up.
Context (hash_order : list (string * nat) → list (string * nat)).
Context (temp_dir : string) (sha1sum : string → string).

Lemma make_indexes_returns fuel r identifiers r' removed :
  make_indexes hash_order temp_dir sha1sum fuel r identifiers = Some (Returns (r', removed)) →
  ∃ plan, make_plan hash_order fuel (registry r) identifiers = Some (Returns plan)
          ∧ run_plan temp_dir sha1sum r identifiers plan (registry r) = Returns (registry r')
          ∧ r' = with_registry r (registry r')
          ∧ removed = if keep_intermediates r then []
                      else clean_up identifiers (registry r').
Proof.
  unfold make_indexes. intros Hrun.
  destruct (make_plan _ _ _ _) as [[plan| | | |]|] eqn:Hplan; try done. simpl in Hrun.
  destruct (run_plan _ _ _ _ _ _) as [fs'| | | |] eqn:Hexec; try done. simpl in Hrun.
  injection Hrun as <- <-. by exists plan.
Qed.

(** C6: when [make_indexes] completes with [keep_intermediates] false, a
    file is removed exactly when it is listed on an intermediate artifact
    and on no artifact that is not intermediate; a file listed on an
    artifact that is not intermediate is never removed, also when an
    intermediate artifact lists the same file. *)
Theorem clean_up_removes_exactly fuel r identifiers r' removed :
  keep_intermediates r = false →
  make_indexes hash_order temp_dir sha1sum fuel r identifiers = Some (Returns (r', removed)) →
  (∀ fn, fn ∈ removed
         ↔ (∃ f, f ∈ registry r' ∧ is_intermediate identifiers f = true ∧ fn ∈ filenames f)
           ∧ ¬ ∃ f, f ∈ registry r' ∧ is_intermediate identifiers f = false
                    ∧ fn ∈ filenames f)
  ∧ ∀ f fn, f ∈ registry r' → is_intermediate identifiers f = false →
            fn ∈ filenames f → fn ∉ removed.
Proof.
  intros Hkeep (plan & _ & _ & _ & ->)%make_indexes_returns. rewrite Hkeep.
  split; [intros fn; apply clean_up_elem_of|].
  intros f fn Hf Hint Hfn [_ Hno]%clean_up_elem_of. apply Hno. by exists f.
Qed.
End clean_up.

(** ** What the last step of [make_plan] removes *)

Section provided_filter.
Context (hash_order : list (string * nat) → list (string * nat)).

(** C7 (amended): the last step of [make_plan] removes from the plan
    exactly the choices whose artifact is finished (has file names),
    whether the files were provided or made by an earlier run; every
    choice selected during planning whose artifact is not finished stays in
    the plan returned. *)
Theorem finished_artifacts_are_filtered fuel fs end_products plan :
  make_plan hash_order fuel fs end_products = Some (Returns plan) →
  ∃ full,
    full_plan hash_order fuel fs end_products = Some (Returns full)
    ∧ (∀ c, c ∈ plan → c ∈ full)
    ∧ (∀ c f, c ∈ full → get_index fs c.1 = Returns f → is_finished f = true → c ∉ plan)
    ∧ (∀ c f, c ∈ full → get_index fs c.1 = Returns f → is_finished f = false → c ∈ plan).
Proof.
  intros (full & Hfull & ->)%make_plan_filter. exists full. split_and!; [done| | |].
  - by intros c [_ ?]%list_elem_of_filter.
  - intros c f Hc Hf Hfin [Hneeded _]%list_elem_of_filter.
    unfold still_needed in Hneeded. rewrite Hf in Hneeded. congruence.
  - intros c f Hc Hf Hfin. apply list_elem_of_filter. split; [|done].
    unfold still_needed. by rewrite Hf.
Qed.
End provided_filter.

(** ** A target that is not registered *)

Section unregistered_target.
Context (hash_order : list (string * nat) → list (string * nat)).

Lemma plan_products_same_position fs order dep fuel u v xs ys pe :
  subscript dep u = subscript dep v →
  agree_up_to_target u v
    (plan_products fs order dep fuel (xs ++ u :: ys) pe)
    (plan_products fs order dep fuel (xs ++ v :: ys) pe).
Proof.
  intros Hpos. revert pe. induction xs as [|x xs IH]; intros pe; simpl.
  - rewrite Hpos.
    destruct (search fs order dep fuel [] _) as [[path| | | |]|]; simpl; try by left.
    destruct path as [|e path]; [right; by eexists | by left].
  - destruct (search fs order dep fuel [] _) as [[path| | | |]|]; simpl; try by left.
    destruct path as [|e path]; [by left|].
    destruct (record_path order _ pe) as [pe'| | | |]; simpl; try by left.
    apply IH.
Qed.

(** C9 (amended): where [dependency_order] returns an order with a first
    artifact, that is in a registry with at least one artifact and no
    cycle, a target that was never registered is looked up with the
    subscript operator, which yields position 0 of the dependency order and
    no look-up error; planning for it is planning for the artifact at
    position 0: the outcomes are the same, except that an
    [InsufficientInputException] carries the name that was asked for.
    When the iteration order of the set of plan elements is an order of
    its elements, [make_plan] does not end with [std::out_of_range]. *)
Theorem unregistered_target_takes_position_zero fuel fs u a0 rest xs ys :
  wf_registry fs → registry_fits fs → u ∉ identifiers fs →
  dependency_order fuel fs = Some (Returns (a0 :: rest)) →
  subscript (index_table (a0 :: rest) 0 ∅) u = 0
  ∧ subscript (index_table (a0 :: rest) 0 ∅) a0 = 0
  ∧ agree_up_to_target u a0
      (make_plan hash_order fuel fs (xs ++ u :: ys))
      (make_plan hash_order fuel fs (xs ++ a0 :: ys))
  ∧ ((∀ l, hash_order l ≡ₚ l) →
     make_plan hash_order fuel fs (xs ++ u :: ys) ≠ Some (Throws out_of_range)).
Proof.
  intros Hwf Hfits Hu Horder.
  destruct (dependency_order_returns _ _ _ Hwf Hfits Horder) as [Hperm _].
  assert (subscript (index_table (a0 :: rest) 0 ∅) u = 0) as Hu0.
  { apply subscript_absent. by rewrite Hperm. }
  assert (subscript (index_table (a0 :: rest) 0 ∅) a0 = 0) as Ha0.
  { apply subscript_present; [|done]. rewrite Hperm. apply Hwf. }
  split_and!; [done..| |].
  - unfold make_plan, full_plan. rewrite Horder. cbn [fbind].
    destruct (plan_products_same_position fs (a0 :: rest) (index_table (a0 :: rest) 0 ∅)
                fuel u a0 xs ys []) as [->|(ins & -> & ->)].
    + by rewrite Hu0, Ha0.
    + by left.
    + right. by exists ins.
  - intros Horder_perm Hrun.
    apply (make_plan_result hash_order Horder_perm) in Hrun
      as [[plan [=]]|[(T & _ & [=] & _)|[[=] _]]]; [done..|].
    intros ->. by apply Permutation_nil_r in Hperm.
Qed.
End unregistered_target.

(** ** Provided artifacts stay finished *)

Definition provided_are_finished (fs : list IndexFile) : Prop :=
  ∀ f, f ∈ fs → provided_directly f = true → is_finished f = true.

(** What executing a plan keeps of the registry [fs0] it started from. *)
Definition kept (f0 f : IndexFile) : Prop :=
  identifier f = identifier f0
  ∧ provided_directly f = provided_directly f0
  ∧ (is_finished f0 = true → filenames f = filenames f0).

Lemma find_index_identifiers fs0 fs id :
  identifiers fs = identifiers fs0 →
  fst <$> find_index fs id = fst <$> find_index fs0 id.
Proof.
  unfold find_index, identifiers. revert fs0. induction fs as [|f fs IH]; intros fs0 Hid.
  { symmetry in Hid. apply fmap_nil_inv in Hid as ->. done. }
  destruct fs0 as [|f0 fs0]; [done|]. simpl in Hid. injection Hid as Hf Hid.
  simpl. rewrite Hf. case_decide; [done|].
  specialize (IH fs0 Hid).
  destruct (list_find _ fs) as [[i x]|], (list_find _ fs0) as [[i0 x0]|]; simpl in *; congruence.
Qed.

Lemma kept_identifiers fs0 fs : Forall2 kept fs0 fs → identifiers fs = identifiers fs0.
Proof.
  unfold identifiers. induction 1 as [|f0 f fs0 fs (Hid & _) _ IH]; [done|].
  rewrite !fmap_cons. by rewrite Hid, IH.
Qed.

Lemma execute_recipe_kept fs0 fs id k prefix fs' :
  Forall2 kept fs0 fs → still_needed fs0 (id, k) →
  execute_recipe fs id k prefix = Returns fs' → Forall2 kept fs0 fs'.
Proof.
  intros Hkept Hneeded Hrun. unfold execute_recipe in Hrun.
  destruct (find_index fs id) as [[i f]|] eqn:Hfind; [|done].
  destruct (recipes f !! k) as [rc|]; [|done].
  destruct (check_inputs fs (inputs rc)) as [names| | | |]; try done. simpl in Hrun.
  destruct (exec rc names prefix (suffix f)) as [fns|]; [|done]. injection Hrun as <-.
  apply Forall2_alter_r; [done|]. intros f0 f' Hf0 Hf' (Hid & Hprov & Hfin).
  split_and!; [done..|]. intros Hfin0. exfalso.
  unfold still_needed, get_index in Hneeded. simpl in Hneeded.
  pose proof (find_index_identifiers fs0 fs id (kept_identifiers _ _ Hkept)) as Hsame.
  rewrite Hfind in Hsame. simpl in Hsame.
  destruct (find_index fs0 id) as [[i0 g]|] eqn:Hfind0; [|done].
  simpl in Hsame. injection Hsame as <-.
  apply find_index_Some in Hfind0 as [Hg _]. congruence.
Qed.

Section provided_invariant.
Context (hash_order : list (string * nat) → list (string * nat)).
Context (temp_dir : string) (sha1sum : string → string).

Lemma run_plan_kept r identifiers fs0 plan fs fs' :
  Forall2 kept fs0 fs → (∀ c, c ∈ plan → still_needed fs0 c) →
  run_plan temp_dir sha1sum r identifiers plan fs = Returns fs' → Forall2 kept fs0 fs'.
Proof.
  revert fs. induction plan as [|step plan IH]; intros fs Hkept Hneeded Hrun; simpl in Hrun.
  { by injection Hrun as <-. }
  destruct (step_prefix _ _ _ _ _ _) as [prefix| | | |]; try done. simpl in Hrun.
  destruct (execute_recipe fs step.1 step.2 prefix) as [fs1| | | |] eqn:Hexec; try done.
  simpl in Hrun. eapply IH; [|intros c Hc; apply Hneeded; by right|done].
  eapply execute_recipe_kept; [done| |done].
  destruct step. apply Hneeded. left.
Qed.

Lemma kept_provided_are_finished fs0 fs :
  Forall2 kept fs0 fs → provided_are_finished fs0 → provided_are_finished fs.
Proof.
  intros Hkept Hinv f [i Hi]%list_elem_of_lookup Hprov.
  destruct (Forall2_lookup_r _ _ _ _ _ Hkept Hi) as (f0 & Hf0 & _ & Hp & Hfn).
  assert (is_finished f0 = true) as Hfin0.
  { apply Hinv; [by eapply list_elem_of_lookup_2 | congruence]. }
  unfold is_finished in *. by rewrite Hfn.
Qed.

Lemma alter_provided_are_finished (g : IndexFile → IndexFile) i fs :
  provided_are_finished fs →
  (∀ f, (provided_directly f = true → is_finished f = true) →
        provided_directly (g f) = true → is_finished (g f) = true) →
  provided_are_finished (alter g i fs).
Proof.
  intros Hinv Hg f [j Hj]%list_elem_of_lookup Hprov.
  destruct (decide (i = j)) as [->|Hne].
  - rewrite list_lookup_alter_eq in Hj.
    destruct (fs !! j) as [f0|] eqn:Hf0; [|done]. injection Hj as <-.
    apply Hg; [|done]. apply Hinv. by eapply list_elem_of_lookup_2.
  - rewrite list_lookup_alter_ne in Hj by done.
    apply Hinv; [by eapply list_elem_of_lookup_2 | done].
Qed.

(** C8 (amended): in every registry reached through the public
    operations, when no call of [provide] passes an empty list of file
    names, every artifact whose [provided_directly] flag is set is
    finished. *)
Theorem provided_implies_finished (r : IndexRegistry) :
  reachable hash_order temp_dir sha1sum (λ fns, fns ≠ []) r →
  ∀ f, f ∈ registry r → provided_directly f = true → is_finished f = true.
Proof.
  induction 1 as [prefix keep|r prefix _ IH|r keep _ IH|r id suf r' _ IH Hop
                 |r id ins ex r' _ IH Hop|r id fns r' _ IH Hfns Hop
                 |r ids fuel r' removed _ IH Hop].
  - by intros f ?%elem_of_nil.
  - done.
  - done.
  - unfold register_index in Hop. repeat case_bool_decide; try done.
    injection Hop as <-. simpl.
    intros f [Hf| ->%list_elem_of_singleton]%elem_of_app; [by apply IH | done].
  - unfold register_recipe in Hop.
    destruct (resolve_inputs _ _) as [l| | | |]; try done. simpl in Hop.
    destruct (find_index _ _) as [[i g]|]; [|done]. injection Hop as <-. simpl.
    apply alter_provided_are_finished; [done|]. intros g' Hg'. apply Hg'.
  - unfold provide in Hop. destruct (find_index _ _) as [[i g]|]; [|done].
    injection Hop as <-. simpl.
    apply alter_provided_are_finished; [done|]. intros g' _ _.
    unfold is_finished. simpl. by rewrite bool_decide_false.
  - apply make_indexes_returns in Hop as (plan & Hplan & Hexec & _).
    apply make_plan_filter in Hplan as (full & _ & ->).
    eapply (kept_provided_are_finished (registry r)); [|done].
    eapply run_plan_kept; [|by intros c [? _]%list_elem_of_filter|done].
    apply Forall_Forall2_diag, Forall_forall. by intros x _.
Qed.
End provided_invariant.

(** ** Deciding what can be built *)

Lemma buildableb_sound fuel fs id : buildableb fuel fs id = true → buildable fs id.
Proof.
  revert id. induction fuel as [|fuel IH]; intros id; [done|]. simpl.
  destruct (find_index fs id) as [[i f]|] eqn:Hfind; [|done].
  apply find_index_Some in Hfind as [Hf <-].
  assert (f ∈ fs) as Hin by (by eapply list_elem_of_lookup_2).
  intros [Hfin|Hrc]%orb_true_iff; [by apply buildable_finished|].
  apply existsb_exists in Hrc as (rc & Hrc%list_elem_of_In & Hall).
  apply (buildable_recipe fs f rc); [done..|].
  intros j Hj%list_elem_of_In. apply IH. by eapply forallb_forall.
Qed.

(** A set of artifacts none of which is finished and each recipe of which
    needs an artifact of the set: nothing in it can be built. *)
Definition closed_unfinished (fs : list IndexFile) (S : list string) : Prop :=
  Forall (λ f, identifier f ∈ S →
               is_finished f = false
               ∧ Forall (λ rc, Exists (λ i, i ∈ S) (inputs rc)) (recipes f)) fs.

Lemma closed_unfinished_unbuildable fs S id :
  closed_unfinished fs S → id ∈ S → ¬ buildable fs id.
Proof.
  intros Hclosed Hid Hb. induction Hb as [f Hf Hfin|f rc Hf Hrc _ IH].
  - unfold closed_unfinished in Hclosed. rewrite Forall_forall in Hclosed.
    destruct (Hclosed f Hf Hid). congruence.
  - unfold closed_unfinished in Hclosed. rewrite Forall_forall in Hclosed.
    destruct (Hclosed f Hf Hid) as [_ Hall]. rewrite Forall_forall in Hall.
    specialize (Hall rc Hrc). apply Exists_exists in Hall as (i & Hi & HiS).
    by apply (IH i).
Qed.

Global Instance wf_registry_dec fs : Decision (wf_registry fs).
Proof. unfold wf_registry. apply _. Defined.

Global Instance closed_unfinished_dec fs S : Decision (closed_unfinished fs S).
Proof. unfold closed_unfinished. apply _. Defined.

Ltac by_computation := apply (bool_decide_unpack _); vm_compute; exact I.

Lemma setup_reachable ids rcs provided r :
  setup ids rcs provided = Returns r →
  reachable id "/tmp" name_hash (λ fns, fns ≠ []) r.
Proof.
  unfold setup.
  assert (∀ r0 r1 l, reachable id "/tmp" name_hash (λ fns, fns ≠ []) r0 →
                     register_indexes r0 l = Returns r1 →
                     reachable id "/tmp" name_hash (λ fns, fns ≠ []) r1) as Hreg.
  { intros r0 r1 l. revert r0. induction l as [|x l IH]; intros r0 Hr0 Hrun; simpl in Hrun.
    - by injection Hrun as <-.
    - destruct (register_index r0 x x) as [r'| | | |] eqn:Hop; try done.
      eapply IH; [|done]. by eapply reachable_register_index. }
  assert (∀ r0 r1 l, reachable id "/tmp" name_hash (λ fns, fns ≠ []) r0 →
                     register_recipes r0 l = Returns r1 →
                     reachable id "/tmp" name_hash (λ fns, fns ≠ []) r1) as Hrcp.
  { intros r0 r1 l. revert r0. induction l as [|x l IH]; intros r0 Hr0 Hrun; simpl in Hrun.
    - by injection Hrun as <-.
    - destruct (register_recipe r0 x.1 x.2 one_file) as [r'| | | |] eqn:Hop; try done.
      eapply IH; [|done]. by eapply reachable_register_recipe. }
  assert (∀ r0 r1 l, reachable id "/tmp" name_hash (λ fns, fns ≠ []) r0 →
                     provide_all r0 l = Returns r1 →
                     reachable id "/tmp" name_hash (λ fns, fns ≠ []) r1) as Hprov.
  { intros r0 r1 l. revert r0. induction l as [|x l IH]; intros r0 Hr0 Hrun; simpl in Hrun.
    - by injection Hrun as <-.
    - destruct (provide1 r0 x (x +:+ ".txt")) as [r'| | | |] eqn:Hop; try done.
      eapply IH; [|done].
      by eapply (reachable_provide _ _ _ _ r0 x [x +:+ ".txt"]). }
  intros Hrun.
  destruct (register_indexes new_registry ids) as [r1| | | |] eqn:H1; try done.
  simpl in Hrun.
  destruct (register_recipes r1 rcs) as [r2| | | |] eqn:H2; try done. simpl in Hrun.
  eapply Hprov; [|done]. eapply Hrcp; [|done]. eapply Hreg; [|done]. constructor.
Qed.

(** ** Concrete registries *)

(** C1 (code bug): [make_plan] returns a plan for [E] although no choice
    of recipes builds [E]; this is so for every order in which the
    registry may be iterated.  The search drops [C] from the path when it
    backtracks to [D], and [E] keeps its recipe that needs [C]. *)
Theorem plan_for_unbuildable_target :
  (∀ fs, fs ≡ₚ registry unbuildable_registry →
         make_plan id 50 fs ["E"] = Some (Returns [("D", 1); ("E", 0)]))
  ∧ ¬ buildable (registry unbuildable_registry) "E".
Proof.
  split.
  - intros fs Hperm. symmetry in Hperm. apply permutations_Permutation in Hperm.
    assert (forallb (λ fs, returns_plan (make_plan id 50 fs ["E"]) [("D", 1); ("E", 0)])
                    (permutations (registry unbuildable_registry)) = true) as Hall
      by (vm_compute; reflexivity).
    rewrite forallb_forall in Hall. apply list_elem_of_In, Hall in Hperm.
    unfold returns_plan in Hperm.
    destruct (make_plan id 50 fs ["E"]) as [[plan| | | |]|]; try done.
    by apply bool_decide_eq_true in Hperm as ->.
  - apply (closed_unfinished_unbuildable _ ["Raw"; "C"; "E"]); [by_computation|].
    by_computation.
Qed.

(** C3 (code bug): the plan for [T] has no step for [B], an input of the
    recipe chosen for [T] that is not finished, although [T] can be built;
    [make_indexes] then fails the assertion of [execute_recipe].  This is
    so for every order in which the registry may be iterated. *)
Theorem planned_recipe_lacks_input :
  (∀ fs, fs ≡ₚ registry lost_input_registry →
         make_plan id 50 fs ["T"] = Some (Returns [("C", 1); ("T", 0)])
         ∧ make_indexes id "/tmp" name_hash 50 (with_registry lost_input_registry fs) ["T"]
           = Some Aborts)
  ∧ buildable (registry lost_input_registry) "T".
Proof.
  split.
  - intros fs Hperm. symmetry in Hperm. apply permutations_Permutation in Hperm.
    assert (forallb (λ fs, returns_plan (make_plan id 50 fs ["T"]) [("C", 1); ("T", 0)]
                           && aborts (make_indexes id "/tmp" name_hash 50
                                        (with_registry lost_input_registry fs) ["T"]))
                    (permutations (registry lost_input_registry)) = true) as Hall
      by (vm_compute; reflexivity).
    rewrite forallb_forall in Hall. apply list_elem_of_In, Hall in Hperm.
    apply andb_true_iff in Hperm as [Hplan Habort].
    unfold returns_plan in Hplan. unfold aborts in Habort.
    destruct (make_plan id 50 fs ["T"]) as [[plan| | | |]|]; try done.
    apply bool_decide_eq_true in Hplan as ->. split; [done|].
    by destruct (make_indexes _ _ _ _ _ _) as [[?| | | |]|].
  - apply (buildableb_sound 5). vm_compute. reflexivity.
Qed.

(** C2, as stated, fails for a target that is already finished: recipe 0
    of [T] can be run from the provided [A], yet the plan has no step for
    [T]. *)
Lemma finished_target_has_no_step :
  ∃ f rc,
    get_index (registry provided_target_registry) "T" = Returns f
    ∧ recipes f !! 0 = Some rc
    ∧ (∀ i, i ∈ inputs rc → buildable (registry provided_target_registry) i)
    ∧ make_plan id 50 (registry provided_target_registry) ["T"] = Some (Returns [])
    ∧ ("T", 0) ∉ ([] : list (string * nat)).
Proof.
  eexists. eexists. split_and!.
  - vm_compute. reflexivity.
  - reflexivity.
  - intros i ->%list_elem_of_singleton. apply (buildableb_sound 5). vm_compute. reflexivity.
  - vm_compute. reflexivity.
  - apply not_elem_of_nil.
Qed.

(** C4, as stated, fails where a recipe that was not chosen has an input
    that nothing provides: [A] comes before [C] in the dependency order and
    is an input of a recipe of [C], it is neither in the plan nor
    provided. *)
Lemma unused_predecessor_not_in_plan :
  ∃ f,
    make_plan id 50 (registry fallback_registry) ["C"] = Some (Returns [("C", 1)])
    ∧ dependency_order 50 (registry fallback_registry) = Some (Returns ["Y"; "X"; "A"; "C"])
    ∧ precedes "A" "C" ["Y"; "X"; "A"; "C"]
    ∧ depends (registry fallback_registry) "A" "C"
    ∧ get_index (registry fallback_registry) "A" = Returns f
    ∧ provided_directly f = false
    ∧ (∀ k, ("A", k) ∉ [("C", 1)]).
Proof.
  eexists. split_and!.
  - vm_compute. reflexivity.
  - vm_compute. reflexivity.
  - exists 2, 3. split_and!; [done..|lia].
  - eexists _, {| inputs := ["A"]; exec := one_file |}. split_and!.
    + apply list_elem_of_lookup. by exists 3.
    + done.
    + left.
    + left.
  - vm_compute. reflexivity.
  - reflexivity.
  - intros k [=]%list_elem_of_singleton.
Qed.

(** C7, as stated, fails for an artifact that an earlier run has built:
    [C] is selected by the planner and is not directly provided, yet it is
    removed from the plan. *)
Lemma built_artifact_is_filtered :
  ∃ f,
    make_indexes id "/tmp" name_hash 50 chain_registry ["C"]
    = Some (Returns (built_registry, ["/tmp/sha-B.B"]))
    ∧ get_index (registry built_registry) "C" = Returns f
    ∧ provided_directly f = false
    ∧ full_plan id 50 (registry built_registry) ["C"] = Some (Returns [("C", 0)])
    ∧ make_plan id 50 (registry built_registry) ["C"] = Some (Returns []).
Proof.
  eexists. split_and!.
  - vm_compute. reflexivity.
  - vm_compute. reflexivity.
  - reflexivity.
  - vm_compute. reflexivity.
  - vm_compute. reflexivity.
Qed.

(** C8, as stated, fails when [provide] is given an empty list: the
    artifact is flagged as provided and is not finished. *)
Lemma provide_empty_list_not_finished :
  ∃ r f,
    reachable id "/tmp" name_hash (λ _, True) r
    ∧ f ∈ registry r ∧ provided_directly f = true ∧ is_finished f = false.
Proof.
  exists {| registry := [ IndexFile_provide [] (new_IndexFile "A" "a") ];
            registered_suffixes := ["a"]; output_prefix := "index";
            keep_intermediates := false |},
         (IndexFile_provide [] (new_IndexFile "A" "a")).
  split_and!; [|left|done|done].
  eapply (reachable_provide _ _ _ _ _ "A" []); [|done|].
  - eapply (reachable_register_index _ _ _ _ new_registry "A" "a"); [constructor|].
    vm_compute. reflexivity.
  - vm_compute. reflexivity.
Qed.

(** C9, as stated, fails on a registry without artifacts: the dependency
    order is empty, so there is no artifact at position 0 to plan for, and
    planning for a target that was never registered subscripts the empty
    [identifier_order] at 0; the outcome is neither a plan nor an
    [InsufficientInputException]. *)
Lemma empty_registry_has_no_position_zero :
  wf_registry (registry new_registry)
  ∧ "Q" ∉ identifiers (registry new_registry)
  ∧ dependency_order 50 (registry new_registry) = Some (Returns [])
  ∧ make_plan id 50 (registry new_registry) ["Q"] = Some Undefined
  ∧ (∀ plan, make_plan id 50 (registry new_registry) ["Q"] ≠ Some (Returns plan))
  ∧ (∀ T ins, make_plan id 50 (registry new_registry) ["Q"]
              ≠ Some (Throws (InsufficientInputException T ins))).
Proof.
  assert (make_plan id 50 (registry new_registry) ["Q"] = Some Undefined) as Hrun
    by (vm_compute; reflexivity).
  split_and!.
  - by_computation.
  - apply not_elem_of_nil.
  - vm_compute. reflexivity.
  - exact Hrun.
  - intros plan. by rewrite Hrun.
  - intros T ins. by rewrite Hrun.
Qed.

(** ** The theorems at concrete registries *)

Lemma unregistered_identifier_throws_witness :
  "X" ∉ identifiers (registry chain_registry)
  ∧ (∀ fns, provide chain_registry "X" fns = Throws out_of_range)
  ∧ (∀ fn, provide1 chain_registry "X" fn = Throws out_of_range)
  ∧ (∀ ins ex, register_recipe chain_registry "X" ins ex = Throws out_of_range)
  ∧ (∀ out ins ex, "X" ∈ ins →
                   register_recipe chain_registry out ins ex = Throws out_of_range).
Proof.
  assert ("X" ∉ identifiers (registry chain_registry)) as H by by_computation.
  split; [exact H | exact (unregistered_identifier_throws chain_registry "X" H)].
Defined.

Lemma clean_up_removes_exactly_witness :
  keep_intermediates chain_registry = false
  ∧ make_indexes id "/tmp" name_hash 50 chain_registry ["C"]
    = Some (Returns (built_registry, ["/tmp/sha-B.B"]))
  ∧ (∀ fn, fn ∈ ["/tmp/sha-B.B"]
           ↔ (∃ f, f ∈ registry built_registry ∧ is_intermediate ["C"] f = true
                   ∧ fn ∈ filenames f)
             ∧ ¬ ∃ f, f ∈ registry built_registry ∧ is_intermediate ["C"] f = false
                      ∧ fn ∈ filenames f)
  ∧ ∀ f fn, f ∈ registry built_registry → is_intermediate ["C"] f = false →
            fn ∈ filenames f → fn ∉ ["/tmp/sha-B.B"].
Proof.
  assert (make_indexes id "/tmp" name_hash 50 chain_registry ["C"]
          = Some (Returns (built_registry, ["/tmp/sha-B.B"]))) as H
    by (vm_compute; reflexivity).
  split; [reflexivity|]. split; [exact H|].
  exact (clean_up_removes_exactly id "/tmp" name_hash 50 chain_registry ["C"]
           built_registry ["/tmp/sha-B.B"] eq_refl H).
Defined.

Lemma finished_artifacts_are_filtered_witness :
  make_plan id 50 (registry chain_registry) ["C"] = Some (Returns [("B", 0); ("C", 0)])
  ∧ ∃ full,
      full_plan id 50 (registry chain_registry) ["C"] = Some (Returns full)
      ∧ (∀ c, c ∈ [("B", 0); ("C", 0)] → c ∈ full)
      ∧ (∀ c f, c ∈ full → get_index (registry chain_registry) c.1 = Returns f →
                is_finished f = true → c ∉ [("B", 0); ("C", 0)])
      ∧ (∀ c f, c ∈ full → get_index (registry chain_registry) c.1 = Returns f →
                is_finished f = false → c ∈ [("B", 0); ("C", 0)]).
Proof.
  assert (make_plan id 50 (registry chain_registry) ["C"]
          = Some (Returns [("B", 0); ("C", 0)])) as H by (vm_compute; reflexivity).
  split; [exact H|].
  exact (finished_artifacts_are_filtered id 50 (registry chain_registry) ["C"] _ H).
Defined.

Lemma provided_implies_finished_witness :
  reachable id "/tmp" name_hash (λ fns, fns ≠ []) chain_registry
  ∧ IndexFile_provide ["A.txt"] (new_IndexFile "A" "A") ∈ registry chain_registry
  ∧ provided_directly (IndexFile_provide ["A.txt"] (new_IndexFile "A" "A")) = true
  ∧ is_finished (IndexFile_provide ["A.txt"] (new_IndexFile "A" "A")) = true.
Proof.
  assert (reachable id "/tmp" name_hash (λ fns, fns ≠ []) chain_registry) as H.
  { apply (setup_reachable ["A"; "B"; "C"] [("B", ["A"]); ("C", ["B"])] ["A"]).
    vm_compute. reflexivity. }
  assert (IndexFile_provide ["A.txt"] (new_IndexFile "A" "A") ∈ registry chain_registry)
    as Hin by left.
  split; [exact H|]. split; [exact Hin|]. split; [reflexivity|].
  exact (provided_implies_finished id "/tmp" name_hash chain_registry H _ Hin eq_refl).
Defined.

Lemma unregistered_target_takes_position_zero_witness :
  wf_registry (registry chain_registry)
  ∧ registry_fits (registry chain_registry)
  ∧ "Q" ∉ identifiers (registry chain_registry)
  ∧ dependency_order 50 (registry chain_registry) = Some (Returns ["A"; "B"; "C"])
  ∧ subscript (index_table ["A"; "B"; "C"] 0 ∅) "Q" = 0
  ∧ subscript (index_table ["A"; "B"; "C"] 0 ∅) "A" = 0
  ∧ agree_up_to_target "Q" "A"
      (make_plan id 50 (registry chain_registry) ([] ++ "Q" :: ["C"]))
      (make_plan id 50 (registry chain_registry) ([] ++ "A" :: ["C"]))
  ∧ make_plan id 50 (registry chain_registry) ([] ++ "Q" :: ["C"])
    ≠ Some (Throws out_of_range).
Proof.
  assert (wf_registry (registry chain_registry)) as Hwf by by_computation.
  assert (registry_fits (registry chain_registry)) as Hfits by (vm_compute; reflexivity).
  assert ("Q" ∉ identifiers (registry chain_registry)) as Hq by by_computation.
  assert (dependency_order 50 (registry chain_registry) = Some (Returns ["A"; "B"; "C"]))
    as Horder by (vm_compute; reflexivity).
  split; [exact Hwf|]. split; [exact Hfits|]. split; [exact Hq|]. split; [exact Horder|].
  destruct (unregistered_target_takes_position_zero id 50 (registry chain_registry)
              "Q" "A" ["B"; "C"] [] ["C"] Hwf Hfits Hq Horder)
    as (Hu & Ha & Hagree & Hlookup).
  split; [exact Hu|]. split; [exact Ha|]. split; [exact Hagree|].
  apply Hlookup. intros l. reflexivity.
Defined.

(** C5: [dependency_order] ends (with fuel beyond the number of
    artifacts); either it returns a permutation of the registered
    identifiers in which every input of every recipe comes before the
    artifact the recipe makes, and the registry has no cycle, or the
    registry has a cycle and it ends the process. *)
Theorem dependency_order_topological (fs : list IndexFile) (fuel : nat) :
  wf_registry fs → (N.of_nat (length fs) < size_max)%N → length fs < fuel →
  (∃ order, dependency_order fuel fs = Some (Returns order)
            ∧ order ≡ₚ identifiers fs
            ∧ (∀ f rc i, f ∈ fs → rc ∈ recipes f → i ∈ inputs rc →
                         precedes i (identifier f) order)
            ∧ ¬ cyclic fs)
  ∨ (dependency_order fuel fs = Some Exits ∧ cyclic fs).
Proof.
  intros Hwf Hfits Hfuel.
  destruct (dependency_order_correct fs Hwf Hfits fuel Hfuel)
    as [(order & Hres & Hperm & Htopo)|[Hres Hcyc]]; [left|by right].
  exists order. split_and!; [done|done| |].
  - intros f rc i Hf Hrc Hi. apply Htopo. by exists f, rc.
  - eapply topological_acyclic; [|done]. rewrite Hperm. apply Hwf.
Qed.

Lemma dependency_order_topological_witness :
  wf_registry (registry chain_registry)
  ∧ (N.of_nat (length (registry chain_registry)) < size_max)%N
  ∧ length (registry chain_registry) < 50
  ∧ ((∃ order, dependency_order 50 (registry chain_registry) = Some (Returns order)
               ∧ order ≡ₚ identifiers (registry chain_registry)
               ∧ (∀ f rc i, f ∈ registry chain_registry → rc ∈ recipes f → i ∈ inputs rc →
                            precedes i (identifier f) order)
               ∧ ¬ cyclic (registry chain_registry))
     ∨ (dependency_order 50 (registry chain_registry) = Some Exits
        ∧ cyclic (registry chain_registry))).
Proof.
  assert (wf_registry (registry chain_registry)) as Hwf by by_computation.
  assert (N.of_nat (length (registry chain_registry)) < size_max)%N as Hfits
    by (vm_compute; reflexivity).
  assert (length (registry chain_registry) < 50) as Hfuel by (simpl; lia).
  split; [exact Hwf|]. split; [exact Hfits|]. split; [exact Hfuel|].
  exact (dependency_order_topological (registry chain_registry) 50 Hwf Hfits Hfuel).
Defined.

Lemma plan_entries_well_formed_witness :
  (∀ l : list (string * nat), id l ≡ₚ l)
  ∧ wf_registry (registry chain_registry)
  ∧ registry_fits (registry chain_registry)
  ∧ make_plan id 50 (registry chain_registry) ["C"] = Some (Returns [("B", 0); ("C", 0)])
  ∧ NoDup [("B", 0); ("C", 0)]
  ∧ (∀ a k, (a, k) ∈ [("B", 0); ("C", 0)] →
            ∃ f, get_index (registry chain_registry) a = Returns f
                 ∧ is_finished f = false ∧ k < length (recipes f))
  ∧ ∃ order, dependency_order 50 (registry chain_registry) = Some (Returns order)
             ∧ StronglySorted (dep_le (index_table order 0 ∅)) [("B", 0); ("C", 0)].
Proof.
  assert (∀ l : list (string * nat), id l ≡ₚ l) as Hperm by (intros l; reflexivity).
  assert (wf_registry (registry chain_registry)) as Hwf by by_computation.
  assert (registry_fits (registry chain_registry)) as Hfits by (vm_compute; reflexivity).
  assert (make_plan id 50 (registry chain_registry) ["C"]
          = Some (Returns [("B", 0); ("C", 0)])) as Hplan by (vm_compute; reflexivity).
  split; [exact Hperm|]. split; [exact Hwf|]. split; [exact Hfits|]. split; [exact Hplan|].
  exact (plan_entries_well_formed id Hperm 50 (registry chain_registry) ["C"] _
           Hwf Hfits Hplan).
Defined.

Lemma preferred_recipe_used_witness :
  (∀ l : list (string * nat), id l ≡ₚ l)
  ∧ wf_registry (registry preference_registry)
  ∧ registry_fits (registry preference_registry)
  ∧ make_plan id 50 (registry preference_registry) ["B"; "C"]
    = Some (Returns [("C", 1); ("B", 0)])
  ∧ "B" ∈ ["B"; "C"]
  ∧ get_index (registry preference_registry) "B"
    = Returns (add_recipe ["A"] one_file (new_IndexFile "B" "B"))
  ∧ is_finished (add_recipe ["A"] one_file (new_IndexFile "B" "B")) = false
  ∧ recipes (add_recipe ["A"] one_file (new_IndexFile "B" "B")) !! 0
    = Some {| inputs := ["A"]; exec := one_file |}
  ∧ (∀ i, i ∈ ["A"] → buildable (registry preference_registry) i)
  ∧ ("B", 0) ∈ [("C", 1); ("B", 0)]
  ∧ (∀ k, ("B", k) ∈ [("C", 1); ("B", 0)] → k = 0)
  ∧ ("C", 1) ∈ [("C", 1); ("B", 0)]
  ∧ 0 < 1
  ∧ get_index (registry preference_registry) "C"
    = Returns (add_recipe ["A"] one_file (add_recipe ["X"] one_file (new_IndexFile "C" "C")))
  ∧ recipes (add_recipe ["A"] one_file (add_recipe ["X"] one_file (new_IndexFile "C" "C"))) !! 0
    = Some {| inputs := ["X"]; exec := one_file |}
  ∧ ∃ i, i ∈ ["X"] ∧ ¬ buildable (registry preference_registry) i.
Proof.
  assert (∀ l : list (string * nat), id l ≡ₚ l) as Hperm by (intros l; reflexivity).
  assert (wf_registry (registry preference_registry)) as Hwf by by_computation.
  assert (registry_fits (registry preference_registry)) as Hfits by (vm_compute; reflexivity).
  assert (make_plan id 50 (registry preference_registry) ["B"; "C"]
          = Some (Returns [("C", 1); ("B", 0)])) as Hplan by (vm_compute; reflexivity).
  assert ("B" ∈ ["B"; "C"]) as Hin by left.
  assert (get_index (registry preference_registry) "B"
          = Returns (add_recipe ["A"] one_file (new_IndexFile "B" "B"))) as Hf
    by (vm_compute; reflexivity).
  assert (∀ i, i ∈ ["A"] → buildable (registry preference_registry) i) as Hbuild.
  { intros i Hi. apply list_elem_of_singleton in Hi. subst i.
    apply (buildableb_sound 5). vm_compute. reflexivity. }
  assert (("C", 1) ∈ [("C", 1); ("B", 0)]) as Hc by left.
  assert (get_index (registry preference_registry) "C"
          = Returns (add_recipe ["A"] one_file
                       (add_recipe ["X"] one_file (new_IndexFile "C" "C")))) as Hg
    by (vm_compute; reflexivity).
  destruct (preferred_recipe_used id Hperm 50 (registry preference_registry) ["B"; "C"] _
              Hwf Hfits Hplan) as [Hfirst Htried].
  split; [exact Hperm|]. split; [exact Hwf|]. split; [exact Hfits|]. split; [exact Hplan|].
  split; [exact Hin|]. split; [exact Hf|]. split; [reflexivity|]. split; [reflexivity|].
  split; [exact Hbuild|].
  destruct (Hfirst "B" _ _ Hin Hf eq_refl eq_refl Hbuild) as [Hzero Honly].
  split; [exact Hzero|]. split; [exact Honly|]. split; [exact Hc|]. split; [exact (le_n 1)|].
  split; [exact Hg|]. split; [reflexivity|].
  exact (Htried "C" 1 0 _ _ Hc (le_n 1) Hg eq_refl).
Defined.

(** * Further properties of the code *)

(** ** Planning: termination, exceptions, cycles, and what is planned *)

Lemma acyclic_by_order fuel fs order :
  wf_registry fs → registry_fits fs →
  dependency_order fuel fs = Some (Returns order) → ¬ cyclic fs.
Proof.
  intros Hwf Hfits Horder.
  destruct (dependency_order_returns _ _ _ Hwf Hfits Horder) as [Hperm Htopo].
  eapply topological_acyclic; [|done]. rewrite Hperm. apply Hwf.
Qed.

Lemma cyclic_by_exit fuel fs :
  wf_registry fs → registry_fits fs →
  dependency_order fuel fs = Some Exits → cyclic fs.
Proof.
  intros Hwf Hfits Horder.
  by destruct (dependency_order_result _ _ _ Hwf Hfits Horder) as [(? & [=] & _)|[_ ?]].
Qed.

Lemma cyclic_exits fuel fs :
  wf_registry fs → registry_fits fs → cyclic fs → length fs < fuel →
  dependency_order fuel fs = Some Exits.
Proof.
  intros Hwf Hfits Hcyc Hfuel.
  destruct (dependency_order_correct fs Hwf (registry_fits_length _ Hfits) fuel Hfuel)
    as [(order & Horder & _)|[Horder _]]; [|done].
  by destruct (acyclic_by_order _ _ _ Hwf Hfits Horder).
Qed.

(** With no artifact registered there is no position 0 to subscript
    [identifier_order] at. *)
Lemma make_plan_empty_registry hash_order fuel T rest :
  2 ≤ fuel → make_plan hash_order fuel [] (T :: rest) = Some Undefined.
Proof.
  intros Hfuel. apply (make_plan_mono _ 2); [|done].
  unfold make_plan, full_plan.
  assert (dependency_order 2 [] = Some (Returns [])) as -> by (vm_compute; reflexivity).
  cbn [fbind plan_products index_table]. unfold subscript. rewrite lookup_empty.
  cbn [default length search].
  assert (queue_begin ({[0 := (0, 1%N)]} : gmap nat (nat * N)) = Some (0, (0, 1%N))) as ->
    by (vm_compute; reflexivity).
  done.
Qed.

Section planning.
Context (hash_order : list (string * nat) → list (string * nat)).
Hypothesis hash_order_perm : ∀ l, hash_order l ≡ₚ l.

(** X1: for a well-formed registry without a cycle, [make_plan] comes to
    an end whatever the iteration orders are, in one of three ways.  It
    returns a plan; or it raises [InsufficientInputException] for one of
    the end products, with the list of the finished artifacts, and that
    end product (when it is registered) cannot be built from the finished
    artifacts; or, when no artifact is registered and an end product is
    asked for, it subscripts the empty [identifier_order] at 0, which is
    undefined. *)
Theorem make_plan_total fuel fs products :
  wf_registry fs → registry_fits fs → ¬ cyclic fs →
  radix fs ^ S (length fs) + length fs + 4 ≤ fuel →
  (∃ plan, make_plan hash_order fuel fs products = Some (Returns plan))
  ∨ (∃ T, T ∈ products
          ∧ make_plan hash_order fuel fs products
            = Some (Throws (InsufficientInputException T (completed_indexes fs)))
          ∧ (T ∈ identifiers fs → ¬ buildable fs T))
  ∨ (fs = [] ∧ products ≠ []
     ∧ make_plan hash_order fuel fs products = Some Undefined).
Proof using All.
  intros Hwf Hfits Hacyclic Hfuel.
  destruct (decide (fs = [] ∧ products ≠ [])) as [[-> Hne]|Hempty].
  { right. right. split_and!; [done..|]. destruct products as [|T rest]; [done|].
    apply make_plan_empty_registry. simpl in Hfuel. lia. }
  destruct (dependency_order_correct fs Hwf (registry_fits_length _ Hfits) fuel)
    as [(order & Horder & _)|[_ Hcyc]]; [lia| |done].
  assert (fs = [] → products = []) as Hempty'.
  { intros ->. destruct products; [done|]. destruct Hempty. by split. }
  destruct (make_plan_after_order hash_order hash_order_perm fuel fs products order
              Hwf Hfits Hempty' Horder Hfuel) as [Hplan|Hthrow]; [by left|right; by left].
Qed.

(** X2: whatever the fuel and the iteration orders, when [make_plan]
    raises [InsufficientInputException] the target it names is one of the
    end products and, when registered, cannot be built from the finished
    artifacts. *)
Theorem insufficient_input_only_if_unbuildable fuel fs products T cs :
  wf_registry fs → registry_fits fs →
  make_plan hash_order fuel fs products = Some (Throws (InsufficientInputException T cs)) →
  T ∈ products ∧ (T ∈ identifiers fs → ¬ buildable fs T).
Proof using All.
  intros Hwf Hfits Hrun. unfold make_plan, full_plan in Hrun.
  destruct (dependency_order fuel fs) as [res|] eqn:Horder; [|done].
  destruct (dependency_order_result _ _ _ Hwf Hfits Horder)
    as [(order & -> & Hperm & Htopo)|[-> _]]; [|done].
  cbn [fbind] in Hrun.
  destruct (plan_products _ _ _ _ _ _) as [[pe|e| | |]|] eqn:Hpe; try done;
    cbn [fbind] in Hrun.
  - destruct (plan_products_spec fs order Hwf Hperm Htopo Hfits _ _ _ _
                (NoDup_nil_2) ltac:(by intros ? ?%elem_of_nil) Hpe)
      as (_ & Hgood & _).
    rewrite remove_finished_total in Hrun; [done|].
    intros c. rewrite merge_sort_Permutation, hash_order_perm.
    intros (f & Hf & _)%Hgood. by exists f.
  - injection Hrun as ->.
    destruct (plan_products_throws fs order Hwf Hperm Htopo Hfits _ _ _ _ _ Hpe)
      as (HT & f & Hf & Hnb).
    split; [done|]. by eapply root_unbuildable.
Qed.

(** X3: when the registry has no cycle and every end product is
    registered and can be built from the finished artifacts, [make_plan]
    returns a plan. *)
Theorem buildable_targets_get_a_plan fuel fs products :
  wf_registry fs → registry_fits fs → ¬ cyclic fs →
  (∀ T, T ∈ products → T ∈ identifiers fs ∧ buildable fs T) →
  radix fs ^ S (length fs) + length fs + 4 ≤ fuel →
  ∃ plan, make_plan hash_order fuel fs products = Some (Returns plan).
Proof using All.
  intros Hwf Hfits Hacyclic Hbuildable Hfuel.
  destruct (dependency_order_correct fs Hwf (registry_fits_length _ Hfits) fuel)
    as [(order & Horder & _)|[_ Hcyc]]; [lia| |done].
  destruct (make_plan_after_order hash_order hash_order_perm fuel fs products order)
    as [?|(T & HT & _ & Hnb)]; [done..| |done|done|done|].
  - intros ->. destruct products as [|T ?]; [done|].
    destruct (Hbuildable T) as [[]%elem_of_nil _]. left.
  - destruct (Hbuildable T HT) as [Hreg Hb]. by destruct (Hnb Hreg).
Qed.

(** X4: a plan has no step that nothing asked for: when the end
    products are registered, the artifact of every step is an end product
    or an input of the recipe of another step of the plan. *)
Theorem planned_steps_are_asked_for fuel fs end_products plan :
  wf_registry fs → registry_fits fs →
  (∀ T, T ∈ end_products → T ∈ identifiers fs) →
  make_plan hash_order fuel fs end_products = Some (Returns plan) →
  ∀ id k, (id, k) ∈ plan →
    id ∈ end_products
    ∨ ∃ id' k' f rc, (id', k') ∈ plan ∧ get_index fs id' = Returns f
                     ∧ recipes f !! k' = Some rc ∧ id ∈ inputs rc.
Proof using All.
  intros Hwf Hfits Hreg (full & Hfull & ->)%make_plan_filter id k [_ Hin]%list_elem_of_filter.
  unfold full_plan in Hfull.
  destruct (dependency_order fuel fs) as [[order| | | |]|] eqn:Horder; try done.
  cbn [fbind] in Hfull.
  destruct (plan_products _ _ _ _ _ _) as [[pe| | | |]|] eqn:Hpe; try done.
  cbn [fbind] in Hfull. injection Hfull as <-.
  destruct (dependency_order_returns _ _ _ Hwf Hfits Horder) as [Hperm Htopo].
  rewrite merge_sort_Permutation, hash_order_perm in Hin.
  destruct (plan_products_asked_for fs order Hwf Hperm Htopo Hfits _ _ end_products _ _
              ltac:(by intros T HT; split; [apply Hreg|])
              ltac:(by intros ? ?%elem_of_nil) Hpe _ Hin)
    as [?|(c' & f & rc & Hc' & Hf & Hfin & Hrc & Hinput)]; [by left|].
  right. exists c'.1, c'.2, f, rc. split_and!; [|done..].
  apply list_elem_of_filter. split.
  - unfold still_needed. simpl. by rewrite Hf.
  - rewrite merge_sort_Permutation, hash_order_perm. by destruct c'.
Qed.
End planning.

Section cycles.
Context (hash_order : list (string * nat) → list (string * nat)).
Context (temp_dir : string) (sha1sum : string → string).

(** X5: on a registry with a cycle among the recipes, [make_plan] and
    [make_indexes] end the process, whatever the end products are, also
    when there are none. *)
Theorem cyclic_registry_exits fuel r products :
  wf_registry (registry r) → registry_fits (registry r) → cyclic (registry r) →
  length (registry r) < fuel →
  make_plan hash_order fuel (registry r) products = Some Exits
  ∧ make_indexes hash_order temp_dir sha1sum fuel r products = Some Exits.
Proof.
  intros Hwf Hfits Hcyc Hfuel.
  assert (make_plan hash_order fuel (registry r) products = Some Exits) as Hplan.
  { unfold make_plan, full_plan. by rewrite (cyclic_exits _ _ Hwf Hfits Hcyc Hfuel). }
  split; [done|]. unfold make_indexes. by rewrite Hplan.
Qed.
End cycles.

(** ** Execution: what a run changes and what it achieves *)

Lemma check_inputs_spec fs ins names :
  check_inputs fs ins = Returns names →
  Forall2 (λ input fns, ∃ g, get_index fs input = Returns g ∧ filenames g = fns ∧ fns ≠ [])
          ins names.
Proof.
  revert names. induction ins as [|input ins IH]; intros names Hrun; simpl in Hrun.
  { injection Hrun as <-. constructor. }
  destruct (find_index fs input) as [[i g]|] eqn:Hfind; [|done].
  destruct (is_finished g) eqn:Hfin; [|done].
  destruct (check_inputs fs ins) as [rest| | | |]; try done. simpl in Hrun.
  injection Hrun as <-. constructor; [|by apply IH].
  exists g. unfold get_index. rewrite Hfind. split_and!; [done..|].
  unfold is_finished in Hfin. by case_bool_decide.
Qed.

Lemma execute_recipe_inv fs id k prefix fs' :
  execute_recipe fs id k prefix = Returns fs' →
  ∃ i f rc names fns,
    find_index fs id = Some (i, f) ∧ recipes f !! k = Some rc
    ∧ check_inputs fs (inputs rc) = Returns names
    ∧ exec rc names prefix (suffix f) = Some fns
    ∧ fs' = alter (set_filenames fns) i fs.
Proof.
  unfold execute_recipe. intros Hrun.
  destruct (find_index fs id) as [[i f]|] eqn:Hfind; [|done].
  destruct (recipes f !! k) as [rc|] eqn:Hrc; [|done].
  destruct (check_inputs fs (inputs rc)) as [names| | | |] eqn:Hnames; try done.
  simpl in Hrun. destruct (exec rc names prefix (suffix f)) as [fns|] eqn:Hexec; [|done].
  injection Hrun as <-. by exists i, f, rc, names, fns.
Qed.

Lemma preserved_refl fs : Forall2 preserved fs fs.
Proof. apply Forall_Forall2_diag, Forall_forall. by intros x _. Qed.

Lemma preserved_kept fs0 fs : Forall2 preserved fs0 fs → Forall2 kept fs0 fs.
Proof.
  intros H. eapply Forall2_impl; [done|]. intros f0 f (? & ? & ? & ? & ?). by split_and!.
Qed.

Lemma preserved_identifiers fs0 fs :
  Forall2 preserved fs0 fs → identifiers fs = identifiers fs0.
Proof. intros H. by apply kept_identifiers, preserved_kept. Qed.

Lemma get_index_same_position fs fs' id f :
  identifiers fs' = identifiers fs → get_index fs id = Returns f →
  ∃ i f', fs !! i = Some f ∧ fs' !! i = Some f' ∧ get_index fs' id = Returns f'.
Proof.
  intros Hids Hf. unfold get_index in *.
  pose proof (find_index_identifiers fs fs' id Hids) as Hsame.
  destruct (find_index fs id) as [[i g]|] eqn:Hfind; [|done]. injection Hf as ->.
  destruct (find_index fs' id) as [[i' f']|] eqn:Hfind'; [|done].
  simpl in Hsame. injection Hsame as ->.
  apply find_index_Some in Hfind as [Hi _]. apply find_index_Some in Hfind' as [Hi' _].
  by exists i, f'.
Qed.

Lemma execute_recipe_preserved fs0 fs id k prefix fs' :
  Forall2 preserved fs0 fs → still_needed fs0 (id, k) →
  execute_recipe fs id k prefix = Returns fs' → Forall2 preserved fs0 fs'.
Proof.
  intros Hpres Hneeded (i & f & rc & names & fns & Hfind & _ & _ & _ & ->)%execute_recipe_inv.
  apply Forall2_alter_r; [done|]. intros f0 f' Hf0 Hf' (Hid & Hsuf & Hrcs & Hprov & Hfin).
  split_and!; [done..|]. intros Hfin0. exfalso.
  unfold still_needed, get_index in Hneeded. simpl in Hneeded.
  pose proof (find_index_identifiers fs0 fs id (preserved_identifiers _ _ Hpres)) as Hsame.
  rewrite Hfind in Hsame. simpl in Hsame.
  destruct (find_index fs0 id) as [[i0 g]|] eqn:Hfind0; [|done].
  simpl in Hsame. injection Hsame as <-.
  apply find_index_Some in Hfind0 as [Hg _]. congruence.
Qed.

Lemma find_index_alter (g : IndexFile → IndexFile) fs id i f :
  (∀ x, identifier (g x) = identifier x) →
  find_index fs id = Some (i, f) → find_index (alter g i fs) id = Some (i, g f).
Proof.
  unfold find_index. intros Hg (Hi & Hid & Hmin)%list_find_Some.
  apply list_find_Some. split_and!.
  - by rewrite list_lookup_alter_eq, Hi.
  - by rewrite Hg.
  - intros j y Hj Hlt. rewrite list_lookup_alter_ne in Hj by lia. by eapply Hmin.
Qed.

Lemma advanced_identifiers fs fs' : Forall2 advanced fs fs' → identifiers fs' = identifiers fs.
Proof.
  unfold identifiers. induction 1 as [|f f' fs fs' (Hid & _) _ IH]; [done|].
  rewrite !fmap_cons. by rewrite Hid, IH.
Qed.

Lemma advanced_productive fs fs' : Forall2 advanced fs fs' → productive fs → productive fs'.
Proof.
  intros Hadv Hprod f' rc names prefix suf fns [i Hi]%list_elem_of_lookup Hrc Hexec.
  destruct (Forall2_lookup_r _ _ _ _ _ Hadv Hi) as (f & Hf & _ & Hrcs & _).
  eapply (Hprod f rc); [by eapply list_elem_of_lookup_2|by rewrite <-Hrcs|done].
Qed.

Lemma advanced_finished fs fs' id f :
  Forall2 advanced fs fs' → get_index fs id = Returns f → is_finished f = true →
  ∃ f', get_index fs' id = Returns f' ∧ is_finished f' = true.
Proof.
  intros Hadv Hf Hfin.
  destruct (get_index_same_position fs fs' id f) as (i & f' & Hi & Hi' & Hf');
    [by apply advanced_identifiers|done|].
  exists f'. split; [done|].
  destruct (Forall2_lookup_l _ _ _ _ _ Hadv Hi) as (f'' & Hf'' & _ & _ & Hkeep).
  rewrite Hi' in Hf''. injection Hf'' as <-. by apply Hkeep.
Qed.

Section run_plan.
Context (temp_dir : string) (sha1sum : string → string).

Lemma run_plan_preserved r identifiers fs0 plan fs fs' :
  Forall2 preserved fs0 fs → (∀ c, c ∈ plan → still_needed fs0 c) →
  run_plan temp_dir sha1sum r identifiers plan fs = Returns fs' → Forall2 preserved fs0 fs'.
Proof.
  revert fs. induction plan as [|step plan IH]; intros fs Hpres Hneeded Hrun; simpl in Hrun.
  { by injection Hrun as <-. }
  destruct (step_prefix _ _ _ _ _ _) as [prefix| | | |]; try done. simpl in Hrun.
  destruct (execute_recipe fs step.1 step.2 prefix) as [fs1| | | |] eqn:Hexec; try done.
  simpl in Hrun. eapply IH; [|intros c Hc; apply Hneeded; by right|done].
  eapply execute_recipe_preserved; [done| |done].
  destruct step. apply Hneeded. left.
Qed.

Lemma run_plan_finishes r identifiers plan fs fs' :
  productive fs → run_plan temp_dir sha1sum r identifiers plan fs = Returns fs' →
  Forall2 advanced fs fs'
  ∧ ∀ c, c ∈ plan → ∃ f', get_index fs' c.1 = Returns f' ∧ is_finished f' = true.
Proof.
  revert fs. induction plan as [|step plan IH]; intros fs Hprod Hrun; simpl in Hrun.
  { injection Hrun as <-. split; [|by intros ? ?%elem_of_nil].
    apply Forall_Forall2_diag, Forall_forall. by intros x _. }
  destruct (step_prefix _ _ _ _ _ _) as [prefix| | | |]; try done. simpl in Hrun.
  destruct (execute_recipe fs step.1 step.2 prefix) as [fs1| | | |] eqn:Hexec; try done.
  simpl in Hrun.
  apply execute_recipe_inv in Hexec
    as (i & f & rc & names & fns & Hfind & Hrc & _ & Hex & ->).
  pose proof (find_index_Some _ _ _ _ Hfind) as [Hi Hid].
  assert (fns ≠ []) as Hfns.
  { eapply (Hprod f rc); [by eapply list_elem_of_lookup_2|by eapply list_elem_of_lookup_2|done]. }
  assert (Forall2 advanced fs (alter (set_filenames fns) i fs)) as Hstep.
  { apply Forall2_alter_r; [apply Forall_Forall2_diag, Forall_forall; by intros x _|].
    intros x y Hx Hy _. rewrite Hx in Hy. injection Hy as <-.
    split_and!; [done..|]. intros _. unfold is_finished. simpl.
    by rewrite bool_decide_false. }
  destruct (IH _ (advanced_productive _ _ Hstep Hprod) Hrun) as [Hadv Hrest].
  split.
  - eapply Forall2_trans; [|done..].
    intros x y z (? & ? & ?) (? & ? & ?). split_and!; [congruence..|auto].
  - intros c [->|Hc]%elem_of_cons; [|by apply Hrest].
    eapply (advanced_finished (alter (set_filenames fns) i fs)); [done| |].
    + unfold get_index.
      by rewrite (find_index_alter (set_filenames fns) _ _ _ _ ltac:(done) Hfind).
    + unfold is_finished. simpl. by rewrite bool_decide_false.
Qed.
End run_plan.

Lemma elem_of_completed_indexes fs id :
  NoDup (identifiers fs) →
  id ∈ completed_indexes fs ↔ ∃ f, get_index fs id = Returns f ∧ is_finished f = true.
Proof.
  intros Hnd. unfold completed_indexes, identifiers. rewrite list_elem_of_fmap. split.
  - intros (f & -> & [Hfin [i Hi]%list_elem_of_lookup]%list_elem_of_filter).
    exists f. split; [by eapply get_index_lookup | done].
  - intros (f & Hf & Hfin). unfold get_index in Hf.
    destruct (find_index fs id) as [[i g]|] eqn:Hfind; [|done]. injection Hf as ->.
    apply find_index_Some in Hfind as [Hi Hid]. exists f. split; [done|].
    apply list_elem_of_filter. split; [done | by eapply list_elem_of_lookup_2].
Qed.


(** ** The dependency order does not look at files *)

Lemma push_edges_inputs idx i f g :
  push_edges idx i f g
  = foldl (λ g ins, foldl (λ g input, alter (push_back_edge i) (subscript idx input) g) g ins)
          g (inputs <$> recipes f).
Proof. unfold push_edges. by rewrite foldl_fmap. Qed.

Lemma same_inputs_identifiers fs fs' :
  Forall2 same_inputs fs fs' → identifiers fs' = identifiers fs.
Proof.
  unfold identifiers. induction 1 as [|f f' fs fs' [Hid _] _ IH]; [done|].
  rewrite !fmap_cons. by rewrite Hid, IH.
Qed.

Lemma build_graph_same_inputs fs fs' idx labels i g :
  Forall2 same_inputs fs fs' →
  build_graph fs' idx labels i g = build_graph fs idx labels i g.
Proof.
  intros Hsame. revert i g. induction labels as [|l labels IH]; intros i g; [done|].
  simpl. unfold get_index.
  pose proof (find_index_identifiers fs fs' l (same_inputs_identifiers _ _ Hsame)) as Hpos.
  destruct (find_index fs l) as [[j f]|] eqn:Hfind, (find_index fs' l) as [[j' f']|] eqn:Hfind';
    simpl in Hpos; try done.
  injection Hpos as ->. simpl.
  apply find_index_Some in Hfind as [Hj _]. apply find_index_Some in Hfind' as [Hj' _].
  destruct (Forall2_lookup_lr _ _ _ _ _ _ Hsame Hj Hj') as [_ Hins].
  by rewrite !push_edges_inputs, Hins, IH.
Qed.

Lemma preserved_same_inputs fs fs' : Forall2 preserved fs fs' → Forall2 same_inputs fs fs'.
Proof.
  intros H. eapply Forall2_impl; [done|]. intros f f' (Hid & _ & Hrc & _).
  split; [done | by rewrite Hrc].
Qed.

Lemma dependency_order_preserved fuel fs fs' :
  Forall2 preserved fs fs' → dependency_order fuel fs' = dependency_order fuel fs.
Proof.
  intros Hsame%preserved_same_inputs. unfold dependency_order.
  rewrite (same_inputs_identifiers _ _ Hsame).
  by rewrite (build_graph_same_inputs _ _ _ _ _ _ Hsame).
Qed.

(** X6: the dependency order is a function of the identifiers and of
    the inputs of the recipes, in iteration order: two registries that
    agree on those, whatever their files, flags and executors, have the
    same dependency order (or both end the process). *)
Theorem dependency_order_ignores_files fuel fs fs' :
  Forall2 same_inputs fs fs' → dependency_order fuel fs' = dependency_order fuel fs.
Proof.
  intros Hsame. unfold dependency_order.
  rewrite (same_inputs_identifiers _ _ Hsame).
  by rewrite (build_graph_same_inputs _ _ _ _ _ _ Hsame).
Qed.

(** ** Runs of [make_indexes] *)

Lemma search_finished fs order dep fuel t v f :
  index_at fs order t = Returns f → is_finished f = true →
  search fs order dep (S (S fuel)) [] {[ t := v ]} = Some (Returns [(t, v.1, 0)]).
Proof.
  intros Hf Hfin. cbn [search].
  assert (queue_begin ({[ t := v ]} : gmap nat (nat * N)) = Some (t, v)) as ->.
  { unfold queue_begin. by rewrite map_to_list_singleton. }
  cbn [fst snd]. rewrite Hf. cbn [fbind]. rewrite Hfin.
  rewrite delete_singleton_eq. done.
Qed.

Lemma search_one fs order dep path q final :
  search fs order dep 1 path q = Some (Returns final) → queue_begin q = None.
Proof.
  cbn [search]. destruct (queue_begin q) as [it|]; [|done].
  destruct (index_at fs order it.1) as [f| | | |]; cbn [fbind]; try done.
  destruct (is_finished f); [done|]. by destruct (recipes f).
Qed.

Lemma plan_products_finished fs order dep fuel products pe :
  (∀ T, T ∈ products →
        ∃ f, index_at fs order (subscript dep T) = Returns f ∧ is_finished f = true) →
  ∃ pe', plan_products fs order dep (S (S fuel)) products pe = Some (Returns pe')
         ∧ ∀ c, c ∈ pe' → c ∈ pe ∨ ∃ f, get_index fs c.1 = Returns f ∧ is_finished f = true.
Proof.
  revert pe. induction products as [|product rest IH]; intros pe Hfin.
  { exists pe. split; [done|]. by left. }
  destruct (Hfin product) as (f & Hf & Hfinished); [left|].
  cbn [plan_products]. rewrite (search_finished _ _ _ _ _ _ _ Hf Hfinished). cbn [fbind].
  unfold index_at in Hf. destruct (order !! subscript dep product) as [id|] eqn:Hid; [|done].
  simpl. rewrite Hid. cbn [fbind].
  destruct (IH (emplace (id, 0) pe)) as (pe' & Hrun & Hpe'); [intros T HT; apply Hfin; by right|].
  exists pe'. split; [done|].
  intros c [[Hc| ->]%emplace_elem_of|?]%Hpe'; [by left| |by right].
  right. by exists f.
Qed.

Section runs.
Context (hash_order : list (string * nat) → list (string * nat)).
Context (temp_dir : string) (sha1sum : string → string).

Lemma make_indexes_preserved fuel r ids r' removed :
  make_indexes hash_order temp_dir sha1sum fuel r ids = Some (Returns (r', removed)) →
  registered_suffixes r' = registered_suffixes r
  ∧ output_prefix r' = output_prefix r
  ∧ keep_intermediates r' = keep_intermediates r
  ∧ Forall2 preserved (registry r) (registry r').
Proof.
  intros (plan & Hplan & Hexec & -> & _)%make_indexes_returns.
  split_and!; [done..|]. simpl.
  apply make_plan_filter in Hplan as (full & _ & ->).
  eapply run_plan_preserved; [apply preserved_refl| |done].
  by intros c [? _]%list_elem_of_filter.
Qed.

(** X7: a run of [make_indexes] that completes changes nothing but file
    names of artifacts that were not finished: the settings, the iteration
    order, and every artifact's identifier, suffix, recipes and
    [provided_directly] flag are as before, and so are the file names of
    every artifact that was finished when the run started; what was among
    the completed indexes still is. *)
Theorem make_indexes_frame fuel r ids r' removed :
  make_indexes hash_order temp_dir sha1sum fuel r ids = Some (Returns (r', removed)) →
  registered_suffixes r' = registered_suffixes r
  ∧ output_prefix r' = output_prefix r
  ∧ keep_intermediates r' = keep_intermediates r
  ∧ Forall2 preserved (registry r) (registry r')
  ∧ identifiers (registry r') = identifiers (registry r)
  ∧ ∀ id, id ∈ completed_indexes (registry r) → id ∈ completed_indexes (registry r').
Proof.
  intros (Hsuf & Hprefix & Hkeep & Hpres)%make_indexes_preserved.
  split_and!; [done..|by apply preserved_identifiers|].
  intros id. unfold completed_indexes, identifiers. rewrite !list_elem_of_fmap.
  intros (f & -> & [Hfin [i Hi]%list_elem_of_lookup]%list_elem_of_filter).
  destruct (Forall2_lookup_l _ _ _ _ _ Hpres Hi) as (f' & Hf' & Hid & _ & _ & _ & Hfns).
  exists f'. split; [done|]. apply list_elem_of_filter.
  split; [|by eapply list_elem_of_lookup_2].
  unfold is_finished in *. by rewrite Hfns.
Qed.

Hypothesis hash_order_perm : ∀ l, hash_order l ≡ₚ l.

Lemma make_indexes_advanced fuel r ids r' removed :
  productive (registry r) →
  make_indexes hash_order temp_dir sha1sum fuel r ids = Some (Returns (r', removed)) →
  ∃ plan, make_plan hash_order fuel (registry r) ids = Some (Returns plan)
          ∧ Forall2 advanced (registry r) (registry r')
          ∧ ∀ c, c ∈ plan → ∃ f', get_index (registry r') c.1 = Returns f'
                                   ∧ is_finished f' = true.
Proof.
  intros Hprod (plan & Hplan & Hexec & _)%make_indexes_returns.
  exists plan. split; [done|]. by eapply run_plan_finishes.
Qed.

Lemma make_indexes_targets fuel r ids r' removed :
  wf_registry (registry r) → registry_fits (registry r) → productive (registry r) →
  make_indexes hash_order temp_dir sha1sum fuel r ids = Some (Returns (r', removed)) →
  ∀ T, T ∈ ids → T ∈ identifiers (registry r) →
       ∃ f, get_index (registry r') T = Returns f ∧ is_finished f = true.
Proof using All.
  intros Hwf Hfits Hprod (plan & Hplan & Hadv & Hdone)%make_indexes_advanced T HT Hreg;
    [|done].
  apply make_plan_filter in Hplan as (full & Hfull & ->).
  destruct (full_plan_spec hash_order hash_order_perm _ _ _ _ Hwf Hfits Hfull)
    as (order & _ & _ & _ & _ & Htargets).
  destruct (Htargets T HT Hreg) as [k Hk].
  destruct (get_index_cases (registry r) T) as [(f & Hf & _)|Hf]; cycle 1.
  { unfold get_index in Hf.
    destruct (find_index (registry r) T) as [[]|] eqn:Hfind; [done|].
    by apply find_index_None in Hfind. }
  destruct (is_finished f) eqn:Hfin; [by eapply advanced_finished|].
  apply (Hdone (T, k)). apply list_elem_of_filter. split; [|done].
  unfold still_needed. simpl. by rewrite Hf.
Qed.

(** X8: when every executor that returns has made at least one file, a
    run of [make_indexes] that completes leaves every registered target
    among the completed indexes. *)
Theorem make_indexes_finishes_targets fuel r ids r' removed :
  wf_registry (registry r) → registry_fits (registry r) → productive (registry r) →
  make_indexes hash_order temp_dir sha1sum fuel r ids = Some (Returns (r', removed)) →
  ∀ T, T ∈ ids → T ∈ identifiers (registry r) → T ∈ completed_indexes (registry r').
Proof using All.
  intros Hwf Hfits Hprod Hrun T HT Hreg.
  pose proof (make_indexes_preserved _ _ _ _ _ Hrun) as (_ & _ & _ & Hpres).
  apply elem_of_completed_indexes.
  - rewrite (preserved_identifiers _ _ Hpres). apply Hwf.
  - by eapply make_indexes_targets.
Qed.

(** X9: under the same assumption, and when every target is registered,
    asking again for what a completed run of [make_indexes] has made plans
    nothing: [make_plan] returns the empty plan and [make_indexes] leaves
    the registry as it is. *)
Theorem make_indexes_again_plans_nothing fuel r ids r' removed :
  wf_registry (registry r) → registry_fits (registry r) → productive (registry r) →
  (∀ T, T ∈ ids → T ∈ identifiers (registry r)) →
  make_indexes hash_order temp_dir sha1sum fuel r ids = Some (Returns (r', removed)) →
  make_plan hash_order fuel (registry r') ids = Some (Returns [])
  ∧ make_indexes hash_order temp_dir sha1sum fuel r' ids = Some (Returns (r', removed)).
Proof using All.
  intros Hwf Hfits Hprod Hreg Hrun.
  pose proof (make_indexes_targets _ _ _ _ _ Hwf Hfits Hprod Hrun) as Hfinished.
  pose proof (make_indexes_preserved _ _ _ _ _ Hrun) as (_ & _ & Hkeep & Hpres).
  apply make_indexes_returns in Hrun as (plan & Hplan & Hexec & Hr' & ->).
  assert (make_plan hash_order fuel (registry r') ids = Some (Returns [])) as Hagain.
  { unfold make_plan, full_plan in *.
    rewrite (dependency_order_preserved _ _ _ Hpres).
    destruct (dependency_order fuel (registry r)) as [[order| | | |]|] eqn:Horder; try done.
    cbn [fbind] in *.
    destruct (dependency_order_returns _ _ _ Hwf Hfits Horder) as [Hperm _].
    destruct (plan_products (registry r) _ _ _ _ _) as [[pe| | | |]|] eqn:Hpe; try done.
    assert (∃ pe', plan_products (registry r') order (index_table order 0 ∅) fuel ids []
                   = Some (Returns pe')
                   ∧ ∀ c, c ∈ pe' → ∃ f, get_index (registry r') c.1 = Returns f
                                          ∧ is_finished f = true)
      as (pe' & -> & Hpe').
    { destruct ids as [|T ids]; [by exists []; split; [|intros ? ?%elem_of_nil]|].
      destruct fuel as [|[|fuel]].
      - done.
      - exfalso. cbn [plan_products] in Hpe.
        destruct (search _ _ _ 1 _ _) as [[final| | | |]|] eqn:Hsearch; try done.
        apply search_one in Hsearch. unfold queue_begin in Hsearch.
        by rewrite map_to_list_singleton in Hsearch.
      - destruct (plan_products_finished (registry r') order (index_table order 0 ∅)
                    fuel (T :: ids) []) as (pe' & Hrun' & Hpe').
        + intros T' HT'. destruct (Hfinished T' HT' (Hreg T' HT')) as (f & Hf & Hfin).
          exists f. split; [|done]. unfold index_at.
          pose proof (Hreg T' HT') as Hin. rewrite <-Hperm in Hin.
          apply list_elem_of_lookup in Hin as [i Hi].
          rewrite (subscript_present _ _ i); [by rewrite Hi| |done].
          rewrite Hperm. apply Hwf.
        + exists pe'. split; [done|]. intros c [[]%elem_of_nil|?]%Hpe'. done. }
    cbn [fbind]. rewrite remove_finished_total.
    - f_equal. f_equal. apply filter_none. intros c.
      rewrite merge_sort_Permutation, hash_order_perm. intros (f & Hf & Hfin)%Hpe'.
      unfold still_needed. rewrite Hf. congruence.
    - intros c. rewrite merge_sort_Permutation, hash_order_perm.
      intros (f & Hf & _)%Hpe'. by exists f. }
  split; [done|]. unfold make_indexes. rewrite Hagain. cbn [fbind run_plan].
  rewrite Hkeep. rewrite Hr'. done.
Qed.
End runs.

(** ** [execute_recipe] *)

Lemma check_inputs_cases fs ins :
  (∀ input, input ∈ ins → input ∈ identifiers fs) →
  (∃ names, check_inputs fs ins = Returns names)
  ∨ (check_inputs fs ins = Aborts
     ∧ ∃ input g, input ∈ ins ∧ get_index fs input = Returns g ∧ is_finished g = false).
Proof.
  induction ins as [|input ins IH]; intros Hreg; [left; by exists []|].
  simpl. destruct (find_index fs input) as [[i g]|] eqn:Hfind; cycle 1.
  { apply find_index_None in Hfind. destruct Hfind. apply Hreg. left. }
  destruct (is_finished g) eqn:Hfin; cycle 1.
  { right. split; [done|]. exists input, g. split_and!; [left| |done].
    unfold get_index. by rewrite Hfind. }
  destruct IH as [[names ->]|[-> (input' & g' & Hin & Hg')]];
    [intros j Hj; apply Hreg; by right| |].
  - left. by eexists.
  - right. split; [done|]. exists input', g'. split; [by right | done].
Qed.

(** X10: when [execute_recipe] returns, the recipe of that ordinal
    exists, every input of it is registered and finished, the executor was
    given the file names of the inputs in the order of the recipe together
    with the prefix and the suffix of the artifact, and the only change to
    the registry is that the executor's result is now the list of file
    names of the artifact. *)
Theorem execute_recipe_returns fs id k prefix fs' :
  execute_recipe fs id k prefix = Returns fs' →
  ∃ i f rc names fns,
    fs !! i = Some f ∧ get_index fs id = Returns f ∧ recipes f !! k = Some rc
    ∧ Forall2 (λ input fn, ∃ g, get_index fs input = Returns g
                                ∧ is_finished g = true ∧ filenames g = fn)
              (inputs rc) names
    ∧ exec rc names prefix (suffix f) = Some fns
    ∧ fs' = <[i := set_filenames fns f]> fs.
Proof.
  intros (i & f & rc & names & fns & Hfind & Hrc & Hnames & Hexec & ->)%execute_recipe_inv.
  pose proof (find_index_Some _ _ _ _ Hfind) as [Hi _].
  exists i, f, rc, names, fns. split_and!; [done| |done| |done|].
  - unfold get_index. by rewrite Hfind.
  - eapply Forall2_impl; [by apply check_inputs_spec|].
    intros input fn (g & Hg & Hfn & Hne). exists g. split_and!; [done| |done].
    unfold is_finished. rewrite Hfn. by rewrite bool_decide_false.
  - apply list_eq. intros j. destruct (decide (i = j)) as [<-|Hne].
    + rewrite list_lookup_alter_eq, list_lookup_insert_eq, Hi; [done|].
      by eapply lookup_lt_Some.
    + by rewrite list_lookup_alter_ne, list_lookup_insert_ne.
Qed.

(** X11: for a registered artifact whose recipes name registered inputs,
    [execute_recipe] fails an assertion exactly when the ordinal is not
    that of a recipe of the artifact or some input of the recipe is not
    finished; the executor is not run then. *)
Theorem execute_recipe_aborts fs id k prefix f :
  wf_registry fs → get_index fs id = Returns f →
  execute_recipe fs id k prefix = Aborts
  ↔ recipes f !! k = None
    ∨ ∃ rc input g, recipes f !! k = Some rc ∧ input ∈ inputs rc
                    ∧ get_index fs input = Returns g ∧ is_finished g = false.
Proof.
  intros [_ Hwf] Hf. unfold get_index in Hf. unfold execute_recipe.
  destruct (find_index fs id) as [[i f']|] eqn:Hfind; [|done]. injection Hf as ->.
  destruct (recipes f !! k) as [rc|] eqn:Hrc; [|split; [by left | done]].
  assert (∀ input, input ∈ inputs rc → input ∈ identifiers fs) as Hreg.
  { apply find_index_Some in Hfind as [Hi _].
    rewrite Forall_forall in Hwf. specialize (Hwf f ltac:(by eapply list_elem_of_lookup_2)).
    rewrite Forall_forall in Hwf. specialize (Hwf rc ltac:(by eapply list_elem_of_lookup_2)).
    by rewrite Forall_forall in Hwf. }
  destruct (check_inputs_cases fs (inputs rc) Hreg)
    as [[names Hnames]|[Habort (input & g & Hin & Hg & Hfin)]].
  - rewrite Hnames. simpl. split.
    + by destruct (exec rc names prefix (suffix f)).
    + intros [?|(rc' & input & g & [= <-] & Hin & Hg & Hfin)]; [done|]. exfalso.
      apply check_inputs_spec in Hnames.
      apply list_elem_of_lookup in Hin as [j Hj].
      destruct (Forall2_lookup_l _ _ _ _ _ Hnames Hj) as (fn & _ & g' & Hg' & Hfn & Hne).
      rewrite Hg in Hg'. injection Hg' as <-.
      unfold is_finished in Hfin. rewrite Hfn in Hfin. by rewrite bool_decide_false in Hfin.
  - rewrite Habort. simpl. split; [|done]. intros _. right. by exists rc, input, g.
Qed.

(** ** Registration and provision *)

Lemma find_index_alter_ne (g : IndexFile → IndexFile) fs id i :
  (∀ x, identifier (g x) = identifier x) →
  (∀ f, fs !! i = Some f → identifier f ≠ id) →
  find_index (alter g i fs) id = find_index fs id.
Proof.
  unfold find_index. intros Hg Hi.
  destruct (list_find (λ f, identifier f = id) fs) as [[j f]|] eqn:Hfind.
  - apply list_find_Some in Hfind as (Hj & Hid & Hmin). apply list_find_Some.
    assert (i ≠ j) as Hne by (intros ->; by eapply Hi).
    split_and!; [by rewrite list_lookup_alter_ne|done|].
    intros j' y Hj' Hlt. destruct (decide (i = j')) as [<-|Hne'].
    + rewrite list_lookup_alter_eq in Hj'.
      destruct (fs !! i) as [x|] eqn:Hx; [|done]. injection Hj' as <-.
      rewrite Hg. by eapply Hi.
    + rewrite list_lookup_alter_ne in Hj' by done. by eapply Hmin.
  - apply list_find_None in Hfind. apply list_find_None.
    rewrite Forall_forall in *. intros y [j Hj]%list_elem_of_lookup.
    destruct (decide (i = j)) as [<-|Hne'].
    + rewrite list_lookup_alter_eq in Hj.
      destruct (fs !! i) as [x|] eqn:Hx; [|done]. injection Hj as <-.
      rewrite Hg. by eapply Hi.
    + rewrite list_lookup_alter_ne in Hj by done. apply Hfind.
      by eapply list_elem_of_lookup_2.
Qed.

Lemma fmap_alter_same {A B} (h : A → B) (g : A → A) i (l : list A) :
  (∀ x, h (g x) = h x) → h <$> alter g i l = h <$> l.
Proof.
  intros Hg. apply list_eq. intros j. rewrite !list_lookup_fmap.
  destruct (decide (i = j)) as [<-|Hne].
  - rewrite list_lookup_alter_eq. destruct (l !! i); simpl; [by rewrite Hg | done].
  - by rewrite list_lookup_alter_ne.
Qed.

Lemma completed_indexes_alter (g : IndexFile → IndexFile) i fs :
  (∀ x, identifier (g x) = identifier x) → (∀ x, is_finished (g x) = is_finished x) →
  completed_indexes (alter g i fs) = completed_indexes fs.
Proof.
  intros Hid Hfin. unfold completed_indexes, identifiers. revert i.
  induction fs as [|f fs IH]; intros i; [done|].
  destruct i as [|i]; simpl.
  - rewrite !filter_cons, Hfin.
    destruct (decide (is_finished f = true)); [|done]. by rewrite !fmap_cons, Hid.
  - rewrite !filter_cons.
    destruct (decide (is_finished f = true)); [|apply IH]. rewrite !fmap_cons. f_equal. apply IH.
Qed.

Lemma resolve_inputs_eq fs ins l : resolve_inputs fs ins = Returns l → l = ins.
Proof.
  revert l. induction ins as [|i ins IH]; intros l Hrun; simpl in Hrun.
  { by injection Hrun as <-. }
  unfold get_index in Hrun. destruct (find_index fs i) as [[j f]|] eqn:Hfind; [|done].
  simpl in Hrun. destruct (resolve_inputs fs ins) as [l'| | | |]; try done. simpl in Hrun.
  injection Hrun as <-. apply find_index_Some in Hfind as [_ ->]. by rewrite (IH l').
Qed.

Lemma find_index_app_new fs (n : IndexFile) id :
  find_index (fs ++ [n]) id
  = match find_index fs id with
    | Some found => Some found
    | None => if decide (identifier n = id) then Some (length fs, n) else None
    end.
Proof.
  unfold find_index.
  destruct (list_find (λ f, identifier f = id) fs) as [[j f]|] eqn:Hfind.
  - apply list_find_Some in Hfind as (Hj & Hid & Hmin). apply list_find_Some.
    split_and!; [by apply lookup_app_l_Some|done|].
    intros j' y Hj' Hlt. apply (Hmin j' y); [|done].
    rewrite lookup_app_l in Hj'; [done|]. apply lookup_lt_Some in Hj. lia.
  - apply list_find_None in Hfind. rewrite Forall_forall in Hfind.
    case_decide as Hn.
    + apply list_find_Some. split_and!; [|done|].
      * rewrite lookup_app_r by lia. by rewrite Nat.sub_diag.
      * intros j' y Hj' Hlt. rewrite lookup_app_l in Hj' by done.
        apply Hfind. by eapply list_elem_of_lookup_2.
    + apply list_find_None. rewrite Forall_forall. intros y [?| ->%list_elem_of_singleton]%elem_of_app;
        [by apply Hfind | done].
Qed.

(** X12: after [register_index] has returned, the identifier looks up
    to a new artifact with that suffix, no file name, no recipe and the
    [provided_directly] flag down; every other look-up is as before; the
    completed indexes are those of before, in whatever order the container
    is iterated after the insertion; and registering the identifier or the
    suffix once more, with whatever partner, ends the process. *)
Theorem register_index_lookup r id suf r' :
  register_index r id suf = Returns r' →
  get_index (registry r') id = Returns (new_IndexFile id suf)
  ∧ (∀ id', id' ≠ id → get_index (registry r') id' = get_index (registry r) id')
  ∧ (∀ fs', fs' ≡ₚ registry r' → completed_indexes fs' ≡ₚ completed_indexes (registry r))
  ∧ (∀ suf', register_index r' id suf' = Exits)
  ∧ (∀ id', register_index r' id' suf = Exits).
Proof.
  intros Hrun. unfold register_index in Hrun.
  repeat case_bool_decide; try done. injection Hrun as <-.
  assert (find_index (registry r) id = None) as Hnone by (by apply find_index_None).
  unfold register_index. simpl. split_and!.
  - unfold get_index. rewrite find_index_app_new, Hnone. simpl. by rewrite decide_True.
  - intros id' Hne. unfold get_index. rewrite find_index_app_new.
    destruct (find_index (registry r) id'); [done|]. simpl. by rewrite decide_False.
  - intros fs' Hperm. unfold completed_indexes, identifiers. rewrite Hperm, filter_app.
    rewrite filter_cons_False by done. by rewrite filter_nil, app_nil_r.
  - intros suf'. repeat case_bool_decide; try done.
    unfold identifiers in *. rewrite fmap_app, elem_of_app in *. simpl in *.
    rewrite list_elem_of_singleton in *. tauto.
  - intros id'. repeat case_bool_decide; try done.
    rewrite elem_of_cons in *. tauto.
Qed.

(** X13: after [register_recipe] has returned, every input it named is
    registered, the artifact has its former recipes with their ordinals
    and the new recipe after them, and nothing else has changed: not the
    other artifacts, not the files of this one, not the identifiers in
    iteration order, not the list of completed indexes. *)
Theorem register_recipe_lookup r id ins ex r' :
  register_recipe r id ins ex = Returns r' →
  (∀ i, i ∈ ins → i ∈ identifiers (registry r))
  ∧ (∃ f, get_index (registry r) id = Returns f
          ∧ get_index (registry r') id = Returns (add_recipe ins ex f)
          ∧ recipes (add_recipe ins ex f) = recipes f ++ [ {| inputs := ins; exec := ex |} ])
  ∧ (∀ id', id' ≠ id → get_index (registry r') id' = get_index (registry r) id')
  ∧ identifiers (registry r') = identifiers (registry r)
  ∧ completed_indexes (registry r') = completed_indexes (registry r).
Proof.
  unfold register_recipe. intros Hrun.
  destruct (resolve_inputs_cases (registry r) ins) as [(l & Hl & Hreg)|Hl];
    rewrite Hl in Hrun; [|done].
  apply resolve_inputs_eq in Hl as ->. simpl in Hrun.
  destruct (find_index (registry r) id) as [[i f]|] eqn:Hfind; [|done].
  injection Hrun as <-. simpl.
  pose proof (find_index_Some _ _ _ _ Hfind) as [Hi Hid].
  split_and!; [done| | | |].
  - exists f. unfold get_index. rewrite Hfind.
    by rewrite (find_index_alter (add_recipe ins ex) _ _ _ _ ltac:(done) Hfind).
  - intros id' Hne. unfold get_index. rewrite find_index_alter_ne; [done|done|].
    intros f' Hf'. congruence.
  - by apply fmap_alter_same.
  - by apply completed_indexes_alter.
Qed.

(** X14: after [provide] has returned, the artifact has exactly the file
    names given, replacing any it had, and its [provided_directly] flag is
    up, with its suffix and recipes as before; every other look-up and
    the identifiers in iteration order are as before; and the artifact
    is among the completed indexes exactly when the list given was not
    empty. *)
Theorem provide_lookup r id fns r' :
  NoDup (identifiers (registry r)) →
  provide r id fns = Returns r' →
  (∃ f, get_index (registry r) id = Returns f
        ∧ get_index (registry r') id = Returns (IndexFile_provide fns f))
  ∧ (∀ id', id' ≠ id → get_index (registry r') id' = get_index (registry r) id')
  ∧ identifiers (registry r') = identifiers (registry r)
  ∧ (id ∈ completed_indexes (registry r') ↔ fns ≠ []).
Proof.
  unfold provide. intros Hnd Hrun.
  destruct (find_index (registry r) id) as [[i f]|] eqn:Hfind; [|done].
  injection Hrun as <-. simpl.
  pose proof (find_index_Some _ _ _ _ Hfind) as [Hi Hid].
  assert (get_index (alter (IndexFile_provide fns) i (registry r)) id
          = Returns (IndexFile_provide fns f)) as Hnew.
  { unfold get_index.
    by rewrite (find_index_alter (IndexFile_provide fns) _ _ _ _ ltac:(done) Hfind). }
  assert (identifiers (alter (IndexFile_provide fns) i (registry r))
          = identifiers (registry r)) as Hids by (by apply fmap_alter_same).
  split_and!; [| |done|].
  - exists f. split; [|done]. unfold get_index. by rewrite Hfind.
  - intros id' Hne. unfold get_index. rewrite find_index_alter_ne; [done|done|].
    intros f' Hf'. congruence.
  - rewrite elem_of_completed_indexes by (by rewrite Hids). rewrite Hnew. split.
    + intros (f' & [= <-] & Hfin) ->. done.
    + intros Hne. eexists. split; [done|]. unfold is_finished. simpl.
      by rewrite bool_decide_false.
Qed.

Lemma preserved_registry_ok r fs' :
  registry_ok r → Forall2 preserved (registry r) fs' → registry_ok (with_registry r fs').
Proof.
  intros ([Hnd Hwf] & Hsuf & Hreg & Hne) Hpres.
  assert (identifiers fs' = identifiers (registry r)) as Hids
    by (by apply preserved_identifiers).
  assert (suffix <$> fs' = suffix <$> registry r) as Hsufs.
  { clear -Hpres. induction Hpres as [|f f' fs fs' (_ & Hs & _) _ IH]; [done|].
    rewrite !fmap_cons. by rewrite Hs, IH. }
  unfold registry_ok, wf_registry. simpl. rewrite Hids, Hsufs. split_and!; [done| |done..|].
  - rewrite Forall_forall in *. intros f' [i Hi]%list_elem_of_lookup.
    destruct (Forall2_lookup_r _ _ _ _ _ Hpres Hi) as (f & Hf & _ & _ & Hrcs & _).
    rewrite Hrcs. apply Hwf. by eapply list_elem_of_lookup_2.
  - intros f' [i Hi]%list_elem_of_lookup.
    destruct (Forall2_lookup_r _ _ _ _ _ Hpres Hi) as (f & Hf & Hid & Hs & _).
    rewrite Hid, Hs. apply Hne. by eapply list_elem_of_lookup_2.
Qed.

Lemma alter_preserved (g : IndexFile → IndexFile) i fs :
  (∀ x, identifier (g x) = identifier x ∧ suffix (g x) = suffix x) →
  identifiers (alter g i fs) = identifiers fs
  ∧ suffix <$> alter g i fs = suffix <$> fs
  ∧ ∀ f', f' ∈ alter g i fs → f' ∈ fs ∨ ∃ f, fs !! i = Some f ∧ f' = g f.
Proof.
  intros Hg. split_and!.
  - apply fmap_alter_same. intros x. apply Hg.
  - apply fmap_alter_same. intros x. apply Hg.
  - intros f' [j Hj]%list_elem_of_lookup. destruct (decide (i = j)) as [<-|Hne].
    + rewrite list_lookup_alter_eq in Hj. destruct (fs !! i) as [f|]; [|done].
      injection Hj as <-. right. by exists f.
    + rewrite list_lookup_alter_ne in Hj by done. left. by eapply list_elem_of_lookup_2.
Qed.

Section reachable_registries.
Context (hash_order : list (string * nat) → list (string * nat)).
Context (temp_dir : string) (sha1sum : string → string).

(** X15: every registry reached through the public operations, whatever
    is passed to them, has non-empty and pairwise distinct identifiers,
    non-empty and pairwise distinct suffixes, which are the registered
    ones, and recipes whose inputs are all registered. *)
Theorem reachable_registry_ok (ok : list string → Prop) (r : IndexRegistry) :
  reachable hash_order temp_dir sha1sum ok r → registry_ok r.
Proof.
  induction 1 as [prefix keep|r prefix _ IH|r keep _ IH|r id suf r' _ IH Hop
                 |r id ins ex r' _ IH Hop|r id fns r' _ IH _ Hop
                 |r ids fuel r' removed _ IH Hop].
  - split_and!; simpl; [split; constructor|constructor|done|by intros ? ?%elem_of_nil].
  - done.
  - done.
  - destruct IH as ([Hnd Hwf] & Hsuf & Hreg & Hne).
    unfold register_index in Hop. repeat case_bool_decide; try done.
    injection Hop as <-. unfold registry_ok, wf_registry, identifiers in *. simpl.
    rewrite !fmap_app. simpl. split_and!.
    + apply NoDup_app. split_and!; [done| |apply NoDup_singleton].
      intros x Hx ->%list_elem_of_singleton. done.
    + rewrite Forall_app. split; [|by repeat constructor].
      eapply Forall_impl; [exact Hwf|]. intros f Hf. eapply Forall_impl; [exact Hf|].
      intros rc Hrc. eapply Forall_impl; [exact Hrc|]. intros i Hi. apply elem_of_app. by left.
    + apply NoDup_app. split_and!; [done| |apply NoDup_singleton].
      intros x Hx ->%list_elem_of_singleton. by rewrite <-Hreg in Hx.
    + rewrite Hreg. apply Permutation_cons_append.
    + intros f [Hf| ->%list_elem_of_singleton]%elem_of_app; [by apply Hne | done].
  - destruct IH as ([Hnd Hwf] & Hsuf & Hreg & Hne).
    unfold register_recipe in Hop.
    destruct (resolve_inputs_cases (registry r) ins) as [(l & Hl & Hins)|Hl];
      rewrite Hl in Hop; [|done].
    apply resolve_inputs_eq in Hl as ->. simpl in Hop.
    destruct (find_index (registry r) id) as [[i f]|] eqn:Hfind; [|done].
    injection Hop as <-.
    destruct (alter_preserved (add_recipe ins ex) i (registry r) ltac:(done))
      as (Hids & Hsufs & Hmem).
    unfold registry_ok, wf_registry. simpl. rewrite Hids, Hsufs.
    split_and!; [done| |done..|].
    + rewrite Forall_forall in *. intros f' [Hf'|(f0 & Hf0 & ->)]%Hmem; [by apply Hwf|].
      simpl. rewrite Forall_app. split; [apply Hwf; by eapply list_elem_of_lookup_2|].
      repeat constructor. simpl. by rewrite Forall_forall.
    + intros f' [Hf'|(f0 & Hf0 & ->)]%Hmem; [by apply Hne|].
      simpl. apply Hne. by eapply list_elem_of_lookup_2.
  - destruct IH as ([Hnd Hwf] & Hsuf & Hreg & Hne).
    unfold provide in Hop.
    destruct (find_index (registry r) id) as [[i f]|] eqn:Hfind; [|done].
    injection Hop as <-.
    destruct (alter_preserved (IndexFile_provide fns) i (registry r) ltac:(done))
      as (Hids & Hsufs & Hmem).
    unfold registry_ok, wf_registry. simpl. rewrite Hids, Hsufs.
    split_and!; [done| |done..|].
    + rewrite Forall_forall in *. intros f' [Hf'|(f0 & Hf0 & ->)]%Hmem; [by apply Hwf|].
      simpl. apply Hwf. by eapply list_elem_of_lookup_2.
    + intros f' [Hf'|(f0 & Hf0 & ->)]%Hmem; [by apply Hne|].
      simpl. apply Hne. by eapply list_elem_of_lookup_2.
  - pose proof (make_indexes_preserved _ _ _ _ _ _ _ _ Hop) as (_ & _ & _ & Hpres).
    apply make_indexes_returns in Hop as (_ & _ & _ & -> & _).
    by apply preserved_registry_ok.
Qed.
End reachable_registries.

(** ** The registry of the VG indexes *)

Lemma depends_perm fs fs0 a b : fs ≡ₚ fs0 → depends fs a b → depends fs0 a b.
Proof.
  intros Hperm (f & rc & Hf & Hrest). exists f, rc. split; [by rewrite <-Hperm | done].
Qed.

Lemma cyclic_perm fs fs0 : fs ≡ₚ fs0 → cyclic fs → cyclic fs0.
Proof.
  intros Hperm [a Ha]. exists a.
  assert (∀ x y, tc (depends fs) x y → tc (depends fs0) x y) as Htc; [|by apply Htc].
  induction 1 as [x y Hxy|x y z Hxy _ IH].
  - apply tc_once. by apply (depends_perm fs).
  - eapply tc_l; [by apply (depends_perm fs)|done].
Qed.

Lemma wf_registry_perm fs fs0 : fs ≡ₚ fs0 → wf_registry fs0 → wf_registry fs.
Proof.
  intros Hperm [Hnd Hwf]. split.
  - unfold identifiers. by rewrite Hperm.
  - rewrite Forall_forall in *. intros f Hf. rewrite Hperm in Hf.
    eapply Forall_impl; [exact (Hwf f Hf)|]. intros rc Hrc.
    eapply Forall_impl; [exact Hrc|]. intros i Hi. unfold identifiers. by rewrite Hperm.
Qed.

Lemma max_inputs_perm fs fs0 : fs ≡ₚ fs0 → max_inputs fs = max_inputs fs0.
Proof.
  intros Hperm. unfold max_inputs.
  generalize (λ f, max_list ((λ rc, length (inputs rc)) <$> recipes f)). intros g.
  induction Hperm as [|x l l' _ IH|x y l|l l' l'' _ IH1 _ IH2];
    rewrite ?fmap_cons; cbn [max_list]; [done|lia|lia|congruence].
Qed.

Lemma registry_fits_perm fs fs0 : fs ≡ₚ fs0 → registry_fits fs0 → registry_fits fs.
Proof.
  intros Hperm. unfold registry_fits. by rewrite (max_inputs_perm _ _ Hperm), Hperm.
Qed.

Global Instance registry_ok_dec r : Decision (registry_ok r).
Proof.
  unfold registry_ok.
  assert (Decision (∀ f, f ∈ registry r → identifier f ≠ "" ∧ suffix f ≠ "")).
  { destruct (decide (Forall (λ f, identifier f ≠ "" ∧ suffix f ≠ "") (registry r)))
      as [H|H]; [left|right]; by rewrite <-Forall_forall. }
  apply _.
Defined.

Section vg_registry.
Context (alias_phased_vcf strip_variant_paths construct_from_gfa
         xg_from_gfa xg_from_vg node_mapping_from_vg gbwt_from_phased_vcf
         prune_graph construct_gcsa
         : list (list string) → string → string → option (list string)).
Context (construct_with_constructor
         : bool → list (list string) → string → string → option (list string)).
Context (initial_prefix : string) (initial_keep : bool).

Abbreviation vg_index_registry :=
  (get_vg_index_registry alias_phased_vcf strip_variant_paths construct_from_gfa
     xg_from_gfa xg_from_vg node_mapping_from_vg gbwt_from_phased_vcf
     prune_graph construct_gcsa construct_with_constructor initial_prefix initial_keep).

(** X16: [get_vg_index_registry] returns: none of its registrations ends
    the process or throws.  The registry it returns has thirteen
    artifacts, none of them finished, is well formed, and its recipes have
    no cycle: in whatever order the registry is iterated,
    [dependency_order] returns an order of the identifiers in which every
    input of a recipe comes before the artifact the recipe makes. *)
Theorem vg_index_registry_is_sound :
  ∃ r, vg_index_registry = Returns r
       ∧ identifiers (registry r)
         ≡ₚ ["Reference FASTA"; "VCF"; "Phased VCF"; "Insertion Sequence FASTA";
             "Reference GFA"; "VG + Variant Paths"; "VG"; "XG"; "GBWT"; "NodeMapping";
             "Pruned VG"; "Haplotype-Pruned VG + NodeMapping"; "GCSA + LCP"]
       ∧ completed_indexes (registry r) = []
       ∧ registry_ok r
       ∧ ∀ fs fuel, fs ≡ₚ registry r → length fs < fuel →
           ∃ order, dependency_order fuel fs = Some (Returns order)
                    ∧ order ≡ₚ identifiers fs
                    ∧ ∀ a b, depends fs a b → precedes a b order.
Proof.
  eexists. split; [vm_compute; reflexivity|].
  set (r := {| registry := _ |}).
  assert (registry_ok r) as Hok by by_computation.
  assert (registry_fits (registry r)) as Hfits by (vm_compute; reflexivity).
  assert (¬ cyclic (registry r)) as Hacyclic.
  { eapply (acyclic_by_order 20); [apply Hok|done|]. vm_compute. reflexivity. }
  split_and!; [done|done|done|].
  intros fs fuel Hperm Hfuel.
  assert (wf_registry fs) as Hwf by (eapply wf_registry_perm; [done | apply Hok]).
  assert (registry_fits fs) as Hfits' by (by eapply registry_fits_perm).
  destruct (dependency_order_correct fs Hwf (registry_fits_length _ Hfits') fuel Hfuel)
    as [?|[_ Hcyc]]; [done|].
  destruct Hacyclic. by eapply cyclic_perm.
Qed.

(** X17: of the default lists of indexes, [get_vg_index_registry]
    registers both default [map] indexes, none of the default [mpmap]
    indexes, and of the default [giraffe] indexes only [GBWT]. *)
Theorem default_indexes_registered :
  ∃ r, vg_index_registry = Returns r
       ∧ (∀ T, T ∈ get_default_map_indexes → T ∈ identifiers (registry r))
       ∧ (∀ T, T ∈ get_default_mpmap_indexes → T ∉ identifiers (registry r))
       ∧ (∀ T, T ∈ get_default_giraffe_indexes →
               T ∈ identifiers (registry r) ↔ T = "GBWT").
Proof.
  eexists. split; [vm_compute; reflexivity|].
  split_and!; apply Forall_forall; by_computation.
Qed.
End vg_registry.

(** ** The recipe graph in DOT *)

Lemma dot_nodes_app l1 l2 : dot_nodes (l1 ++ l2) = dot_nodes l1 ++ dot_nodes l2.
Proof. unfold dot_nodes. apply omap_app. Qed.

Lemma dot_arrows_app l1 l2 : dot_arrows (l1 ++ l2) = dot_arrows l1 ++ dot_arrows l2.
Proof. unfold dot_arrows. apply omap_app. Qed.

Section dot_statements.
Context (targets : list string) (plan : list (string * nat)).

Lemma index_node_inj i j : index_node i = index_node j → i = j.
Proof.
  unfold index_node, to_string. intros [= H]. simpl in H. apply pretty_N_inj in H. lia.
Qed.

Lemma recipe_node_inj i j : recipe_node i = recipe_node j → i = j.
Proof.
  unfold recipe_node, to_string. intros [= H]. simpl in H. apply pretty_N_inj in H. lia.
Qed.

Lemma index_recipe_node_ne i j : index_node i ≠ recipe_node j.
Proof. by intros [=]. Qed.

Lemma dot_indexes_spec fs k m :
  (N.of_nat (k + length fs) < size_max)%N →
  dot_nodes (dot_indexes targets plan fs (N.of_nat k) m).1
  = (λ i, index_node (k + i)) <$> seq 0 (length fs)
  ∧ dot_arrows (dot_indexes targets plan fs (N.of_nat k) m).1 = []
  ∧ (∀ id, id ∉ identifiers fs →
           (dot_indexes targets plan fs (N.of_nat k) m).2 !! id = m !! id)
  ∧ (NoDup (identifiers fs) →
     ∀ i f, fs !! i = Some f →
            (dot_indexes targets plan fs (N.of_nat k) m).2 !! identifier f
            = Some (index_node (k + i))).
Proof.
  revert k m. induction fs as [|f fs IH]; intros k m Hfits.
  { split_and!; [done|done|done|]. by intros _ i f ?. }
  cbn [dot_indexes fst snd]. simpl in Hfits.
  rewrite incr_of_nat by lia.
  destruct (IH (S k) (<[identifier f := "I" +:+ to_string (N.of_nat k)]> m))
    as (Hnodes & Harrows & Hout & Hin); [lia|].
  split_and!.
  - unfold dot_nodes at 1. cbn [omap list_omap]. fold (dot_nodes).
    unfold dot_id_of. rewrite lookup_insert_eq. cbn [default app].
    rewrite bool_decide_true by done. cbn [length seq fmap list_fmap]. f_equal.
    + unfold index_node. by rewrite Nat.add_0_r.
    + fold (dot_nodes (dot_indexes targets plan fs (N.of_nat (S k))
                         (<[identifier f := "I" +:+ to_string (N.of_nat k)]> m)).1).
      rewrite Hnodes. rewrite <-fmap_S_seq, <-list_fmap_compose.
      apply list_fmap_ext. intros _ i _. simpl. f_equal. lia.
  - unfold dot_arrows at 1. cbn [omap list_omap app].
    rewrite bool_decide_false by done. apply Harrows.
  - intros id Hid. unfold identifiers in Hid. rewrite fmap_cons, not_elem_of_cons in Hid.
    destruct Hid as [Hne Hid]. rewrite Hout by done. by rewrite lookup_insert_ne.
  - intros [Hf Hnd]%NoDup_cons [|i] g Hg; simpl in Hg.
    + injection Hg as <-. rewrite Hout by done. rewrite lookup_insert_eq.
      unfold index_node. by rewrite Nat.add_0_r.
    + rewrite (Hin Hnd i g Hg). f_equal. f_equal. lia.
Qed.
End dot_statements.

Lemma total_recipes_cons f fs :
  total_recipes (f :: fs) = length (recipes f) + total_recipes fs.
Proof. done. Qed.

Section dot_recipe_statements.
Context (plan : list (string * nat)) (m : gmap string string) (col : string).

Lemma dot_inputs_spec selected rid ins :
  dot_nodes (dot_inputs m col selected rid ins) = []
  ∧ dot_arrows (dot_inputs m col selected rid ins)
    = (λ input, (dot_id_of m input, rid)) <$> ins.
Proof.
  induction ins as [|input ins [IHn IHa]]; [done|].
  unfold dot_inputs in *. rewrite !fmap_cons. split.
  - unfold dot_nodes in *. cbn [omap list_omap]. destruct selected; simpl; apply IHn.
  - unfold dot_arrows in *. cbn [omap list_omap].
    destruct selected; simpl; by rewrite IHa.
Qed.

Lemma dot_recipes_of_spec id rcs p k :
  (N.of_nat (k + length rcs) < size_max)%N →
  (dot_recipes_of plan m col id rcs p (N.of_nat k)).2 = N.of_nat (k + length rcs)
  ∧ dot_nodes (dot_recipes_of plan m col id rcs p (N.of_nat k)).1
    = (λ j, recipe_node (k + j)) <$> seq 0 (length rcs)
  ∧ ∀ a b, (a, b) ∈ dot_arrows (dot_recipes_of plan m col id rcs p (N.of_nat k)).1 ↔
      ∃ j rc, rcs !! j = Some rc
              ∧ ((a = recipe_node (k + j) ∧ b = dot_id_of m id)
                 ∨ ∃ input, input ∈ inputs rc
                            ∧ a = dot_id_of m input ∧ b = recipe_node (k + j)).
Proof.
  revert p k. induction rcs as [|rc rcs IH]; intros p k Hfits.
  { cbn [dot_recipes_of fst snd length]. rewrite Nat.add_0_r.
    split_and!; [done|done|]. intros a b. split; [by intros ?%elem_of_nil|].
    by intros (j & rc & ? & _). }
  cbn [dot_recipes_of fst snd]. simpl in Hfits.
  rewrite incr_of_nat by lia.
  destruct (IH (S p) (S k)) as (Hcount & Hnodes & Harrows); [lia|].
  destruct (dot_inputs_spec (bool_decide ((id, p) ∈ plan)) ("R" +:+ to_string (N.of_nat k))
              (inputs rc)) as [Hin_nodes Hin_arrows].
  assert (recipe_node (k + 0) = "R" +:+ to_string (N.of_nat k)) as Hnode
    by (unfold recipe_node; by rewrite Nat.add_0_r).
  split_and!.
  - rewrite Hcount. f_equal. simpl. lia.
  - rewrite !dot_nodes_app, Hin_nodes, Hnodes. cbn [length seq fmap list_fmap app].
    rewrite Hnode. rewrite <-fmap_S_seq, <-list_fmap_compose.
    assert (∀ l : list nat, (λ j, recipe_node (S k + j)) <$> l
                            = (λ j, recipe_node (k + j)) ∘ S <$> l) as ->.
    { intros l. apply list_fmap_ext. intros _ j _. simpl. f_equal. lia. }
    by destruct (bool_decide ((id, p) ∈ plan)).
  - intros a b. rewrite !dot_arrows_app, Hin_arrows, !elem_of_app, Harrows.
    set (node := if bool_decide ((id, p) ∈ plan) then _ else _).
    assert (dot_arrows node = [("R" +:+ to_string (N.of_nat k), dot_id_of m id)]) as ->
      by (unfold node; by destruct (bool_decide ((id, p) ∈ plan))).
    rewrite list_elem_of_singleton, list_elem_of_fmap. split.
    + intros [[= -> ->]|[(input & [= -> ->] & Hinput)|(j & rc' & Hrc' & Hcase)]].
      * exists 0, rc. split; [done|]. left. by rewrite Hnode.
      * exists 0, rc. split; [done|]. right. exists input. by rewrite Hnode.
      * exists (S j), rc'. split; [done|].
        by replace (k + S j) with (S k + j) by lia.
    + intros ([|j] & rc' & Hrc' & Hcase); simpl in Hrc'.
      * injection Hrc' as <-. rewrite Hnode in Hcase.
        destruct Hcase as [[-> ->]|(input & Hinput & -> & ->)]; [by left|].
        right. left. by exists input.
      * right. right. exists j, rc'. split; [done|].
        by replace (S k + j) with (k + S j) by lia.
Qed.

Lemma dot_recipes_spec fs k :
  (N.of_nat (k + total_recipes fs) < size_max)%N →
  dot_nodes (dot_recipes plan m col fs (N.of_nat k))
  = (λ j, recipe_node (k + j)) <$> seq 0 (total_recipes fs)
  ∧ ∀ a b, (a, b) ∈ dot_arrows (dot_recipes plan m col fs (N.of_nat k)) ↔
      ∃ i f j rc, fs !! i = Some f ∧ recipes f !! j = Some rc
                  ∧ ((a = recipe_node (k + recipe_number fs i j)
                      ∧ b = dot_id_of m (identifier f))
                     ∨ ∃ input, input ∈ inputs rc ∧ a = dot_id_of m input
                                ∧ b = recipe_node (k + recipe_number fs i j)).
Proof.
  revert k. induction fs as [|f fs IH]; intros k Hfits.
  { split; [done|]. intros a b. split; [by intros ?%elem_of_nil|].
    by intros (i & f & j & rc & ? & _). }
  rewrite total_recipes_cons in *. cbn [dot_recipes].
  destruct (dot_recipes_of_spec (identifier f) (recipes f) 0 k) as (Hcount & Hnodes & Harrows);
    [lia|].
  rewrite Hcount.
  destruct (IH (k + length (recipes f))) as [Hnodes' Harrows']; [lia|].
  split.
  - rewrite dot_nodes_app, Hnodes, Hnodes'. rewrite seq_app, fmap_app. f_equal.
    rewrite ?Nat.add_0_l.
    replace (seq (length (recipes f)) (total_recipes fs))
      with (Nat.add (length (recipes f)) <$> seq 0 (total_recipes fs))
      by (by rewrite fmap_add_seq, Nat.add_0_r).
    rewrite <-list_fmap_compose.
    apply list_fmap_ext. intros _ j _. simpl. f_equal. lia.
  - intros a b. rewrite dot_arrows_app, elem_of_app, Harrows, Harrows'. split.
    + intros [(j & rc & Hrc & Hcase)|(i & g & j & rc & Hg & Hrc & Hcase)].
      * exists 0, f, j, rc. split_and!; [done..|].
        unfold recipe_number. by cbn [take total_recipes foldr fmap list_fmap Nat.add].
      * exists (S i), g, j, rc. split_and!; [done..|].
        unfold recipe_number in *. cbn [take]. rewrite total_recipes_cons.
        by replace (k + (length (recipes f) + total_recipes (take i fs) + j))
          with (k + length (recipes f) + (total_recipes (take i fs) + j)) by lia.
    + intros ([|i] & g & j & rc & Hg & Hrc & Hcase); simpl in Hg.
      * injection Hg as <-. left. exists j, rc. split; [done|].
        unfold recipe_number in Hcase.
        by cbn [take total_recipes foldr fmap list_fmap Nat.add] in Hcase.
      * right. exists i, g, j, rc. split_and!; [done..|].
        unfold recipe_number in *. cbn [take] in Hcase. rewrite total_recipes_cons in Hcase.
        by replace (k + (length (recipes f) + total_recipes (take i fs) + j))
          with (k + length (recipes f) + (total_recipes (take i fs) + j)) in Hcase by lia.
Qed.
End dot_recipe_statements.

Section to_dot_properties.
Context (hash_order : list (string * nat) → list (string * nat)).

Lemma dot_plan_label fuel fs targets label plan :
  dot_plan hash_order fuel fs targets = Some (Returns (label, plan)) →
  dot_nodes label = [] ∧ dot_arrows label = [].
Proof.
  unfold dot_plan. case_bool_decide; [by intros [= <- <-]|].
  destruct (make_plan hash_order fuel fs targets) as [[p|[|T ins]| | |]|]; try done;
    by intros [= <- <-].
Qed.

Lemma to_dot_statements_inv fuel fs targets statements :
  to_dot_statements hash_order fuel fs targets = Some (Returns statements) →
  ∃ label plan col,
    dot_nodes label = [] ∧ dot_arrows label = []
    ∧ statements
      = [ ["digraph recipegraph {"] ] ++ label ++ (dot_indexes targets plan fs 0 ∅).1
        ++ dot_recipes plan (dot_indexes targets plan fs 0 ∅).2 col fs 0 ++ [ ["}"] ].
Proof.
  unfold to_dot_statements. intros Hrun.
  destruct (dot_plan hash_order fuel fs targets) as [[[label plan]| | | |]|] eqn:Hplan;
    try done.
  cbn [fbind fst snd] in Hrun. injection Hrun as <-.
  destruct (dot_plan_label _ _ _ _ _ Hplan) as [Hn Ha].
  by eexists label, plan, _.
Qed.

(** X18: the statements [to_dot] writes to its stream, on a well-formed
    registry whose counters do not wrap around, draw the recipe graph.
    The nodes declared are [I0], [I1], ... for the artifacts in iteration
    order, then [R0], [R1], ... for the recipes, all distinct.  The arrows
    are, for every recipe, one from its node to the node of its artifact
    and one from the node of each of its inputs to its node, and no
    others; so every arrow joins two declared nodes.  The text returned is
    these statements, each followed by a newline. *)
Theorem to_dot_graph_well_formed fuel fs targets statements :
  wf_registry fs →
  (N.of_nat (length fs) < size_max)%N → (N.of_nat (total_recipes fs) < size_max)%N →
  to_dot_statements hash_order fuel fs targets = Some (Returns statements) →
  to_dot hash_order fuel fs targets = Some (Returns (flush statements))
  ∧ dot_nodes statements
    = (index_node <$> seq 0 (length fs)) ++ (recipe_node <$> seq 0 (total_recipes fs))
  ∧ NoDup (dot_nodes statements)
  ∧ (∀ a b, (a, b) ∈ dot_arrows statements ↔
       ∃ i f j rc, fs !! i = Some f ∧ recipes f !! j = Some rc
                   ∧ ((a = recipe_node (recipe_number fs i j) ∧ b = index_node i)
                      ∨ ∃ i' g, fs !! i' = Some g ∧ identifier g ∈ inputs rc
                                ∧ a = index_node i'
                                ∧ b = recipe_node (recipe_number fs i j)))
  ∧ ∀ a b, (a, b) ∈ dot_arrows statements →
           a ∈ dot_nodes statements ∧ b ∈ dot_nodes statements.
Proof.
  intros [Hnd Hwf] Hfs Hrcs Hst.
  split; [unfold to_dot; by rewrite Hst|].
  apply to_dot_statements_inv in Hst as (label & plan & col & Hln & Hla & ->).
  destruct (dot_indexes_spec targets plan fs 0 ∅) as (Hin & Hia & Hout & Hids); [done|].
  specialize (Hids Hnd).
  destruct (dot_recipes_spec plan (dot_indexes targets plan fs 0 ∅).2 col fs 0)
    as [Hrn Hra]; [done|].
  change (N.of_nat 0) with 0%N in *.
  rewrite !dot_nodes_app, !dot_arrows_app, Hln, Hla, Hin, Hia, Hrn.
  change (dot_nodes [ ["digraph recipegraph {"] ]) with (@nil string).
  change (dot_nodes [ ["}"] ]) with (@nil string).
  change (dot_arrows [ ["digraph recipegraph {"] ]) with (@nil (string * string)).
  change (dot_arrows [ ["}"] ]) with (@nil (string * string)).
  rewrite !app_nil_l, !app_nil_r.
  assert (∀ i f, fs !! i = Some f →
                 dot_id_of (dot_indexes targets plan fs 0 ∅).2 (identifier f) = index_node i)
    as Hslot.
  { intros i f Hi. unfold dot_id_of. by rewrite (Hids i f Hi). }
  assert (∀ a b,
            (a, b) ∈ dot_arrows (dot_recipes plan (dot_indexes targets plan fs 0 ∅).2 col fs 0)
            ↔ ∃ i f j rc, fs !! i = Some f ∧ recipes f !! j = Some rc
                ∧ ((a = recipe_node (recipe_number fs i j) ∧ b = index_node i)
                   ∨ ∃ i' g, fs !! i' = Some g ∧ identifier g ∈ inputs rc
                             ∧ a = index_node i'
                             ∧ b = recipe_node (recipe_number fs i j))) as Harrows.
  { intros a b. rewrite Hra. split.
    - intros (i & f & j & rc & Hf & Hrc & Hcase). exists i, f, j, rc. split_and!; [done..|].
      destruct Hcase as [[-> ->]|(input & Hinput & -> & ->)].
      + left. by rewrite (Hslot i f Hf).
      + right.
        assert (input ∈ identifiers fs) as Hreg.
        { rewrite Forall_forall in Hwf.
          specialize (Hwf f (list_elem_of_lookup_2 _ _ _ Hf)).
          rewrite Forall_forall in Hwf.
          specialize (Hwf rc (list_elem_of_lookup_2 _ _ _ Hrc)).
          rewrite Forall_forall in Hwf. by apply Hwf. }
        apply list_elem_of_fmap in Hreg as (g & -> & [i' Hg]%list_elem_of_lookup).
        exists i', g. by rewrite (Hslot i' g Hg).
    - intros (i & f & j & rc & Hf & Hrc & Hcase). exists i, f, j, rc. split_and!; [done..|].
      destruct Hcase as [[-> ->]|(i' & g & Hg & Hinput & -> & ->)].
      + left. by rewrite (Hslot i f Hf).
      + right. exists (identifier g). by rewrite (Hslot i' g Hg). }
  assert (∀ i j f rc, fs !! i = Some f → recipes f !! j = Some rc →
                      recipe_number fs i j < total_recipes fs) as Hnumber.
  { intros i j f rc Hf Hrc. unfold recipe_number.
    rewrite <-(take_drop_middle fs i f Hf) at 2.
    unfold total_recipes. rewrite fmap_app, sum_list_with_app, fmap_cons. simpl.
    apply lookup_lt_Some in Hrc. lia. }
  split_and!.
  - done.
  - apply NoDup_app. split_and!.
    + apply NoDup_fmap_2_strong; [|apply NoDup_seq].
      intros i j _ _ Hij. apply index_node_inj in Hij. lia.
    + intros x (i & -> & _)%list_elem_of_fmap (j & Hij & _)%list_elem_of_fmap.
      by apply index_recipe_node_ne in Hij.
    + apply NoDup_fmap_2_strong; [|apply NoDup_seq].
      intros i j _ _ Hij. apply recipe_node_inj in Hij. lia.
  - exact Harrows.
  - intros a b (i & f & j & rc & Hf & Hrc & Hcase)%Harrows. rewrite !elem_of_app.
    assert (recipe_node (recipe_number fs i j) ∈ recipe_node <$> seq 0 (total_recipes fs))
      as Hrecipe.
    { apply list_elem_of_fmap. exists (recipe_number fs i j). split; [done|].
      apply elem_of_seq. specialize (Hnumber i j f rc Hf Hrc). lia. }
    assert (∀ i' g, fs !! i' = Some g → index_node i' ∈ index_node <$> seq 0 (length fs))
      as Hindex.
    { intros i' g Hg. apply list_elem_of_fmap. exists i'. split; [done|].
      apply elem_of_seq. apply lookup_lt_Some in Hg. lia. }
    destruct Hcase as [[-> ->]|(i' & g & Hg & _ & -> & ->)].
    + split; [by right | left; by eapply Hindex].
    + split; [left; by eapply Hindex | by right].
Qed.

(** X19: without targets [to_dot] makes no plan and returns, for every
    registry, one with a cycle included.  With targets it returns also
    when [make_plan] raises [InsufficientInputException], which it
    catches.  On a well-formed registry it ends in no other way than by
    returning, by ending the process when targets are given and the
    registry has a cycle, or, when targets are given and no artifact is
    registered, by the undefined subscript of [make_plan], which the
    handler does not cover. *)
Theorem to_dot_outcomes fuel fs targets :
  (∃ text, to_dot hash_order fuel fs [] = Some (Returns text))
  ∧ (∀ T ins, make_plan hash_order fuel fs targets
              = Some (Throws (InsufficientInputException T ins)) →
              ∃ text, to_dot hash_order fuel fs targets = Some (Returns text))
  ∧ (wf_registry fs → registry_fits fs → (∀ l, hash_order l ≡ₚ l) →
     ∀ res, to_dot hash_order fuel fs targets = Some res →
            (∃ text, res = Returns text)
            ∨ (res = Exits ∧ targets ≠ [] ∧ cyclic fs)
            ∨ (res = Undefined ∧ targets ≠ [] ∧ fs = [])).
Proof.
  split_and!.
  - unfold to_dot, to_dot_statements, dot_plan. rewrite bool_decide_true by done.
    cbn [fbind]. by eexists.
  - intros T ins Hplan. unfold to_dot, to_dot_statements, dot_plan.
    case_bool_decide; [cbn [fbind]; by eexists|].
    rewrite Hplan. cbn [fbind]. by eexists.
  - intros Hwf Hfits hash_order_perm res. unfold to_dot, to_dot_statements, dot_plan.
    case_bool_decide as Ht; [cbn [fbind]; intros [= <-]; left; by eexists|].
    destruct (make_plan hash_order fuel fs targets) as [planned|] eqn:Hplan; [|done].
    destruct (decide (fs = [])) as [->|Hne].
    { destruct targets as [|T rest]; [done|].
      apply (make_plan_mono _ _ (fuel + 2)) in Hplan; [|lia].
      rewrite make_plan_empty_registry in Hplan by lia. injection Hplan as <-.
      cbn [fbind]. intros [= <-]. right. by right. }
    destruct (make_plan_result hash_order hash_order_perm fuel fs targets planned Hwf Hfits
                ltac:(by intros ?) Hplan) as [[plan ->]|[(T & _ & -> & _)|[-> Hcyc]]].
    + cbn [fbind]. intros [= <-]. left. by eexists.
    + cbn [fbind]. intros [= <-]. left. by eexists.
    + cbn [fbind]. intros [= <-]. right. by left.
Qed.
End to_dot_properties.

(** ** Several targets *)

Lemma record_path_returns order path pe pe' :
  record_path order path pe = Returns pe' → ∀ e, e ∈ path → e.1.1 < length order.
Proof.
  revert pe. induction path as [|e path IH]; intros pe Hrun; [by intros ? ?%elem_of_nil|].
  simpl in Hrun. destruct (order !! e.1.1) as [id|] eqn:Hid; [|done].
  intros e' [->|He']%elem_of_cons; [by eapply lookup_lt_Some | by eapply IH].
Qed.

Lemma record_path_elem_of order path pe pe' :
  record_path order path pe = Returns pe' →
  ∀ x, x ∈ pe' ↔ x ∈ pe ∨ ∃ e, e ∈ path ∧ order !! e.1.1 = Some x.1 ∧ x.2 = e.2.
Proof.
  intros Hrun.
  destruct (record_path_spec order path pe (record_path_returns _ _ _ _ Hrun))
    as (pe'' & Hrun' & Hmem & _).
  rewrite Hrun in Hrun'. by injection Hrun' as <-.
Qed.

Lemma plan_products_elem_of fs order dep fuel products pe pe' :
  plan_products fs order dep fuel products pe = Some (Returns pe') →
  ∀ c, c ∈ pe' ↔ c ∈ pe ∨ ∃ T single, T ∈ products
                           ∧ plan_products fs order dep fuel [T] [] = Some (Returns single)
                           ∧ c ∈ single.
Proof.
  revert pe. induction products as [|product rest IH]; intros pe Hrun c.
  { simpl in Hrun. injection Hrun as <-. split; [by left|].
    by intros [?|(T & ? & []%elem_of_nil & _)]. }
  cbn [plan_products] in Hrun.
  destruct (search fs order dep fuel [] _) as [[path| | | |]|] eqn:Hsearch; try done.
  cbn [fbind] in Hrun. destruct path as [|e0 path0] eqn:Hpath; [done|]. rewrite <-Hpath in *.
  rewrite Hpath in Hrun. rewrite <-Hpath in Hrun.
  destruct (record_path order (reverse path) pe) as [pe1| | | |] eqn:Hrec; try done.
  cbn [fbind] in Hrun.
  pose proof (record_path_elem_of _ _ _ _ Hrec) as Hmem.
  destruct (record_path_spec order (reverse path) [] (record_path_returns _ _ _ _ Hrec))
    as (single & Hsingle & Hmem_single & _).
  assert (plan_products fs order dep fuel [product] [] = Some (Returns single)) as Hone.
  { cbn [plan_products]. rewrite Hsearch. cbn [fbind]. rewrite Hpath.
    rewrite <-Hpath. by rewrite Hsingle. }
  rewrite (IH _ Hrun c), Hmem. split.
  - intros [[?|Hc]|(T & s & HT & Hs & Hc)]; [by left| |].
    + right. exists product, single. split_and!; [left|done|].
      apply Hmem_single. by right.
    + right. exists T, s. split; [by right | done].
  - intros [?|(T & s & [->|HT]%elem_of_cons & Hs & Hc)]; [by left; left| |].
    + left. right. rewrite Hone in Hs. injection Hs as <-.
      apply Hmem_single in Hc as [[]%elem_of_nil|?]. done.
    + right. by exists T, s.
Qed.

Lemma remove_finished_registered fs plan plan' :
  remove_finished fs plan = Returns plan' →
  ∀ c, c ∈ plan → ∃ f, get_index fs c.1 = Returns f.
Proof.
  revert plan'. induction plan as [|c0 plan IH]; intros plan' Hrun; [by intros ? ?%elem_of_nil|].
  simpl in Hrun. destruct (get_index fs c0.1) as [f| | | |] eqn:Hf; try done.
  simpl in Hrun. destruct (remove_finished fs plan) as [rest| | | |]; try done.
  intros c [->|Hc]%elem_of_cons; [by exists f | by eapply IH].
Qed.

Section several_targets.
Context (hash_order : list (string * nat) → list (string * nat)).
Hypothesis hash_order_perm : ∀ l, hash_order l ≡ₚ l.

(** X20: the plan for several targets is the union of the plans for each
    of them: a step is in a plan [make_plan] returns for a list of targets
    exactly when it is in the plan [make_plan] returns for one target of
    the list; the targets do not influence one another. *)
Theorem plan_is_union_of_single_plans fuel fs products plan :
  make_plan hash_order fuel fs products = Some (Returns plan) →
  ∀ c, c ∈ plan ↔ ∃ T single, T ∈ products
                              ∧ make_plan hash_order fuel fs [T] = Some (Returns single)
                              ∧ c ∈ single.
Proof using All.
  intros Hrun. unfold make_plan, full_plan in *.
  destruct (dependency_order fuel fs) as [[order| | | |]|] eqn:Horder; try done.
  cbn [fbind] in *.
  destruct (plan_products fs order _ fuel products []) as [[pe| | | |]|] eqn:Hpe; try done.
  cbn [fbind] in Hrun. injection Hrun as Hrun.
  pose proof (remove_finished_registered _ _ _ Hrun) as Hreg.
  apply remove_finished_filter in Hrun as ->.
  pose proof (plan_products_elem_of _ _ _ _ _ _ _ Hpe) as Hmem.
  assert (∀ T single, T ∈ products →
            plan_products fs order (index_table order 0 ∅) fuel [T] [] = Some (Returns single) →
            remove_finished fs (merge_sort (dep_le (index_table order 0 ∅)) (hash_order single))
            = Returns (filter (still_needed fs)
                         (merge_sort (dep_le (index_table order 0 ∅)) (hash_order single))))
    as Hsingle.
  { intros T single HT Hs. apply remove_finished_total. intros c.
    rewrite merge_sort_Permutation, hash_order_perm. intros Hc. apply Hreg.
    rewrite merge_sort_Permutation, hash_order_perm. apply Hmem. right. by exists T, single. }
  intros c. rewrite list_elem_of_filter, merge_sort_Permutation, hash_order_perm, Hmem. split.
  - intros [Hneeded [[]%elem_of_nil|(T & single & HT & Hs & Hc)]].
    exists T, (filter (still_needed fs)
                 (merge_sort (dep_le (index_table order 0 ∅)) (hash_order single))).
    split_and!; [done| |].
    + rewrite Hs. cbn [fbind]. by rewrite (Hsingle T single HT Hs).
    + apply list_elem_of_filter. split; [done|].
      by rewrite merge_sort_Permutation, hash_order_perm.
  - intros (T & p & HT & Hp & Hc).
    destruct (plan_products fs order _ fuel [T] []) as [[single| | | |]|] eqn:Hs; try done.
    cbn [fbind] in Hp. rewrite (Hsingle T single HT Hs) in Hp. injection Hp as <-.
    apply list_elem_of_filter in Hc as [Hneeded Hc].
    rewrite merge_sort_Permutation, hash_order_perm in Hc.
    split; [done|]. right. by exists T, single.
Qed.
End several_targets.

(** ** The further properties on concrete registries *)

Lemma one_file_productive fs :
  Forall (λ f, Forall (λ rc, exec rc = one_file) (recipes f)) fs → productive fs.
Proof.
  intros Hall f rc names prefix suf fns Hf Hrc Hexec.
  rewrite Forall_forall in Hall. specialize (Hall f Hf).
  rewrite Forall_forall in Hall. rewrite (Hall rc Hrc) in Hexec. by injection Hexec as <-.
Qed.

Lemma chain_registry_productive : productive (registry chain_registry).
Proof. apply one_file_productive. repeat constructor. Qed.

Lemma chain_registry_acyclic : ¬ cyclic (registry chain_registry).
Proof.
  eapply (acyclic_by_order 50); [by_computation|vm_compute; reflexivity|].
  vm_compute. reflexivity.
Qed.

Lemma make_plan_total_witness :
  (∀ l : list (string * nat), id l ≡ₚ l)
  ∧ wf_registry (registry chain_registry)
  ∧ registry_fits (registry chain_registry)
  ∧ ¬ cyclic (registry chain_registry)
  ∧ radix (registry chain_registry) ^ S (length (registry chain_registry))
    + length (registry chain_registry) + 4 ≤ 100
  ∧ ((∃ plan, make_plan id 100 (registry chain_registry) ["C"] = Some (Returns plan))
     ∨ (∃ T, T ∈ ["C"]
             ∧ make_plan id 100 (registry chain_registry) ["C"]
               = Some (Throws (InsufficientInputException T
                                 (completed_indexes (registry chain_registry))))
             ∧ (T ∈ identifiers (registry chain_registry) →
                ¬ buildable (registry chain_registry) T))
     ∨ (registry chain_registry = [] ∧ ["C"] ≠ []
        ∧ make_plan id 100 (registry chain_registry) ["C"] = Some Undefined)).
Proof.
  assert (∀ l : list (string * nat), id l ≡ₚ l) as Hperm by (intros l; reflexivity).
  assert (wf_registry (registry chain_registry)) as Hwf by by_computation.
  assert (registry_fits (registry chain_registry)) as Hfits by (vm_compute; reflexivity).
  assert (radix (registry chain_registry) ^ S (length (registry chain_registry))
          + length (registry chain_registry) + 4 ≤ 100) as Hfuel by (vm_compute; lia).
  split; [exact Hperm|]. split; [exact Hwf|]. split; [exact Hfits|].
  split; [exact chain_registry_acyclic|]. split; [exact Hfuel|].
  exact (make_plan_total id Hperm 100 (registry chain_registry) ["C"]
           Hwf Hfits chain_registry_acyclic Hfuel).
Defined.

Lemma insufficient_input_only_if_unbuildable_witness :
  (∀ l : list (string * nat), id l ≡ₚ l)
  ∧ wf_registry (registry unprovided_registry)
  ∧ registry_fits (registry unprovided_registry)
  ∧ make_plan id 50 (registry unprovided_registry) ["C"]
    = Some (Throws (InsufficientInputException "C" []))
  ∧ "C" ∈ ["C"]
  ∧ ("C" ∈ identifiers (registry unprovided_registry) →
     ¬ buildable (registry unprovided_registry) "C").
Proof.
  assert (∀ l : list (string * nat), id l ≡ₚ l) as Hperm by (intros l; reflexivity).
  assert (wf_registry (registry unprovided_registry)) as Hwf by by_computation.
  assert (registry_fits (registry unprovided_registry)) as Hfits by (vm_compute; reflexivity).
  assert (make_plan id 50 (registry unprovided_registry) ["C"]
          = Some (Throws (InsufficientInputException "C" []))) as Hplan
    by (vm_compute; reflexivity).
  split; [exact Hperm|]. split; [exact Hwf|]. split; [exact Hfits|]. split; [exact Hplan|].
  exact (insufficient_input_only_if_unbuildable id Hperm 50 (registry unprovided_registry)
           ["C"] "C" [] Hwf Hfits Hplan).
Defined.

Lemma buildable_targets_get_a_plan_witness :
  (∀ l : list (string * nat), id l ≡ₚ l)
  ∧ wf_registry (registry chain_registry)
  ∧ registry_fits (registry chain_registry)
  ∧ ¬ cyclic (registry chain_registry)
  ∧ (∀ T, T ∈ ["C"] → T ∈ identifiers (registry chain_registry)
                       ∧ buildable (registry chain_registry) T)
  ∧ radix (registry chain_registry) ^ S (length (registry chain_registry))
    + length (registry chain_registry) + 4 ≤ 100
  ∧ ∃ plan, make_plan id 100 (registry chain_registry) ["C"] = Some (Returns plan).
Proof.
  assert (∀ l : list (string * nat), id l ≡ₚ l) as Hperm by (intros l; reflexivity).
  assert (wf_registry (registry chain_registry)) as Hwf by by_computation.
  assert (registry_fits (registry chain_registry)) as Hfits by (vm_compute; reflexivity).
  assert (∀ T, T ∈ ["C"] → T ∈ identifiers (registry chain_registry)
                            ∧ buildable (registry chain_registry) T) as Hbuild.
  { intros T HT. apply list_elem_of_singleton in HT. subst T. split; [by_computation|].
    apply (buildableb_sound 5). vm_compute. reflexivity. }
  assert (radix (registry chain_registry) ^ S (length (registry chain_registry))
          + length (registry chain_registry) + 4 ≤ 100) as Hfuel by (vm_compute; lia).
  split; [exact Hperm|]. split; [exact Hwf|]. split; [exact Hfits|].
  split; [exact chain_registry_acyclic|]. split; [exact Hbuild|]. split; [exact Hfuel|].
  exact (buildable_targets_get_a_plan id Hperm 100 (registry chain_registry) ["C"]
           Hwf Hfits chain_registry_acyclic Hbuild Hfuel).
Defined.

Lemma cyclic_registry_exits_witness :
  wf_registry (registry loop_registry)
  ∧ registry_fits (registry loop_registry)
  ∧ cyclic (registry loop_registry)
  ∧ length (registry loop_registry) < 50
  ∧ make_plan id 50 (registry loop_registry) [] = Some Exits
  ∧ make_indexes id "/tmp" name_hash 50 loop_registry [] = Some Exits.
Proof.
  assert (wf_registry (registry loop_registry)) as Hwf by by_computation.
  assert (registry_fits (registry loop_registry)) as Hfits by (vm_compute; reflexivity).
  assert (cyclic (registry loop_registry)) as Hcyc.
  { apply (cyclic_by_exit 50); [exact Hwf|exact Hfits|]. vm_compute. reflexivity. }
  assert (length (registry loop_registry) < 50) as Hfuel by (simpl; lia).
  split; [exact Hwf|]. split; [exact Hfits|]. split; [exact Hcyc|]. split; [exact Hfuel|].
  exact (cyclic_registry_exits id "/tmp" name_hash 50 loop_registry [] Hwf Hfits Hcyc Hfuel).
Defined.

Lemma planned_steps_are_asked_for_witness :
  (∀ l : list (string * nat), id l ≡ₚ l)
  ∧ wf_registry (registry chain_registry)
  ∧ registry_fits (registry chain_registry)
  ∧ (∀ T, T ∈ ["C"] → T ∈ identifiers (registry chain_registry))
  ∧ make_plan id 50 (registry chain_registry) ["C"] = Some (Returns [("B", 0); ("C", 0)])
  ∧ ∀ a k, (a, k) ∈ [("B", 0); ("C", 0)] →
      a ∈ ["C"]
      ∨ ∃ a' k' f rc, (a', k') ∈ [("B", 0); ("C", 0)]
                      ∧ get_index (registry chain_registry) a' = Returns f
                      ∧ recipes f !! k' = Some rc ∧ a ∈ inputs rc.
Proof.
  assert (∀ l : list (string * nat), id l ≡ₚ l) as Hperm by (intros l; reflexivity).
  assert (wf_registry (registry chain_registry)) as Hwf by by_computation.
  assert (registry_fits (registry chain_registry)) as Hfits by (vm_compute; reflexivity).
  assert (∀ T, T ∈ ["C"] → T ∈ identifiers (registry chain_registry)) as Hreg.
  { intros T HT. apply list_elem_of_singleton in HT. subst T. by_computation. }
  assert (make_plan id 50 (registry chain_registry) ["C"]
          = Some (Returns [("B", 0); ("C", 0)])) as Hplan by (vm_compute; reflexivity).
  split; [exact Hperm|]. split; [exact Hwf|]. split; [exact Hfits|]. split; [exact Hreg|].
  split; [exact Hplan|].
  exact (planned_steps_are_asked_for id Hperm 50 (registry chain_registry) ["C"] _
           Hwf Hfits Hreg Hplan).
Defined.

Lemma dependency_order_ignores_files_witness :
  Forall2 same_inputs (registry unprovided_registry) (registry chain_registry)
  ∧ dependency_order 50 (registry chain_registry)
    = dependency_order 50 (registry unprovided_registry).
Proof.
  assert (Forall2 same_inputs (registry unprovided_registry) (registry chain_registry))
    as Hsame by (repeat constructor).
  split; [exact Hsame|].
  exact (dependency_order_ignores_files 50 (registry unprovided_registry)
           (registry chain_registry) Hsame).
Defined.

Lemma make_indexes_frame_witness :
  make_indexes id "/tmp" name_hash 50 chain_registry ["C"]
  = Some (Returns (built_registry, ["/tmp/sha-B.B"]))
  ∧ registered_suffixes built_registry = registered_suffixes chain_registry
  ∧ output_prefix built_registry = output_prefix chain_registry
  ∧ keep_intermediates built_registry = keep_intermediates chain_registry
  ∧ Forall2 preserved (registry chain_registry) (registry built_registry)
  ∧ identifiers (registry built_registry) = identifiers (registry chain_registry)
  ∧ ∀ a, a ∈ completed_indexes (registry chain_registry) →
         a ∈ completed_indexes (registry built_registry).
Proof.
  assert (make_indexes id "/tmp" name_hash 50 chain_registry ["C"]
          = Some (Returns (built_registry, ["/tmp/sha-B.B"]))) as H
    by (vm_compute; reflexivity).
  split; [exact H|].
  exact (make_indexes_frame id "/tmp" name_hash 50 chain_registry ["C"]
           built_registry ["/tmp/sha-B.B"] H).
Defined.

Lemma make_indexes_finishes_targets_witness :
  (∀ l : list (string * nat), id l ≡ₚ l)
  ∧ wf_registry (registry chain_registry)
  ∧ registry_fits (registry chain_registry)
  ∧ productive (registry chain_registry)
  ∧ make_indexes id "/tmp" name_hash 50 chain_registry ["C"]
    = Some (Returns (built_registry, ["/tmp/sha-B.B"]))
  ∧ ∀ T, T ∈ ["C"] → T ∈ identifiers (registry chain_registry) →
         T ∈ completed_indexes (registry built_registry).
Proof.
  assert (∀ l : list (string * nat), id l ≡ₚ l) as Hperm by (intros l; reflexivity).
  assert (wf_registry (registry chain_registry)) as Hwf by by_computation.
  assert (registry_fits (registry chain_registry)) as Hfits by (vm_compute; reflexivity).
  assert (make_indexes id "/tmp" name_hash 50 chain_registry ["C"]
          = Some (Returns (built_registry, ["/tmp/sha-B.B"]))) as H
    by (vm_compute; reflexivity).
  split; [exact Hperm|]. split; [exact Hwf|]. split; [exact Hfits|].
  split; [exact chain_registry_productive|]. split; [exact H|].
  exact (make_indexes_finishes_targets id "/tmp" name_hash Hperm 50 chain_registry ["C"]
           built_registry ["/tmp/sha-B.B"] Hwf Hfits chain_registry_productive H).
Defined.

Lemma make_indexes_again_plans_nothing_witness :
  (∀ l : list (string * nat), id l ≡ₚ l)
  ∧ wf_registry (registry chain_registry)
  ∧ registry_fits (registry chain_registry)
  ∧ productive (registry chain_registry)
  ∧ (∀ T, T ∈ ["C"] → T ∈ identifiers (registry chain_registry))
  ∧ make_indexes id "/tmp" name_hash 50 chain_registry ["C"]
    = Some (Returns (built_registry, ["/tmp/sha-B.B"]))
  ∧ make_plan id 50 (registry built_registry) ["C"] = Some (Returns [])
  ∧ make_indexes id "/tmp" name_hash 50 built_registry ["C"]
    = Some (Returns (built_registry, ["/tmp/sha-B.B"])).
Proof.
  assert (∀ l : list (string * nat), id l ≡ₚ l) as Hperm by (intros l; reflexivity).
  assert (wf_registry (registry chain_registry)) as Hwf by by_computation.
  assert (registry_fits (registry chain_registry)) as Hfits by (vm_compute; reflexivity).
  assert (∀ T, T ∈ ["C"] → T ∈ identifiers (registry chain_registry)) as Hreg.
  { intros T HT. apply list_elem_of_singleton in HT. subst T. by_computation. }
  assert (make_indexes id "/tmp" name_hash 50 chain_registry ["C"]
          = Some (Returns (built_registry, ["/tmp/sha-B.B"]))) as H
    by (vm_compute; reflexivity).
  split; [exact Hperm|]. split; [exact Hwf|]. split; [exact Hfits|].
  split; [exact chain_registry_productive|]. split; [exact Hreg|]. split; [exact H|].
  exact (make_indexes_again_plans_nothing id "/tmp" name_hash Hperm 50 chain_registry ["C"]
           built_registry ["/tmp/sha-B.B"] Hwf Hfits chain_registry_productive Hreg H).
Defined.

Lemma execute_recipe_returns_witness :
  execute_recipe (registry chain_registry) "B" 0 "p"
  = Returns (alter (set_filenames ["p.B"]) 1 (registry chain_registry))
  ∧ ∃ i f rc names fns,
      registry chain_registry !! i = Some f
      ∧ get_index (registry chain_registry) "B" = Returns f
      ∧ recipes f !! 0 = Some rc
      ∧ Forall2 (λ input fn, ∃ g, get_index (registry chain_registry) input = Returns g
                                  ∧ is_finished g = true ∧ filenames g = fn)
                (inputs rc) names
      ∧ exec rc names "p" (suffix f) = Some fns
      ∧ alter (set_filenames ["p.B"]) 1 (registry chain_registry)
        = <[i := set_filenames fns f]> (registry chain_registry).
Proof.
  assert (execute_recipe (registry chain_registry) "B" 0 "p"
          = Returns (alter (set_filenames ["p.B"]) 1 (registry chain_registry))) as H
    by (vm_compute; reflexivity).
  split; [exact H|].
  exact (execute_recipe_returns (registry chain_registry) "B" 0 "p" _ H).
Defined.

Lemma execute_recipe_aborts_witness :
  wf_registry (registry unprovided_registry)
  ∧ get_index (registry unprovided_registry) "B"
    = Returns (add_recipe ["A"] one_file (new_IndexFile "B" "B"))
  ∧ (execute_recipe (registry unprovided_registry) "B" 0 "p" = Aborts
     ↔ recipes (add_recipe ["A"] one_file (new_IndexFile "B" "B")) !! 0 = None
       ∨ ∃ rc input g,
           recipes (add_recipe ["A"] one_file (new_IndexFile "B" "B")) !! 0 = Some rc
           ∧ input ∈ inputs rc
           ∧ get_index (registry unprovided_registry) input = Returns g
           ∧ is_finished g = false).
Proof.
  assert (wf_registry (registry unprovided_registry)) as Hwf by by_computation.
  assert (get_index (registry unprovided_registry) "B"
          = Returns (add_recipe ["A"] one_file (new_IndexFile "B" "B"))) as Hf
    by (vm_compute; reflexivity).
  split; [exact Hwf|]. split; [exact Hf|].
  exact (execute_recipe_aborts (registry unprovided_registry) "B" 0 "p" _ Hwf Hf).
Defined.

Lemma register_index_lookup_witness :
  register_index new_registry "A" "a"
  = Returns {| registry := [new_IndexFile "A" "a"]; registered_suffixes := ["a"];
               output_prefix := "index"; keep_intermediates := false |}
  ∧ get_index [new_IndexFile "A" "a"] "A" = Returns (new_IndexFile "A" "a")
  ∧ (∀ id', id' ≠ "A" →
            get_index [new_IndexFile "A" "a"] id' = get_index (registry new_registry) id')
  ∧ (∀ fs', fs' ≡ₚ [new_IndexFile "A" "a"] →
            completed_indexes fs' ≡ₚ completed_indexes (registry new_registry))
  ∧ (∀ suf', register_index
               {| registry := [new_IndexFile "A" "a"]; registered_suffixes := ["a"];
                  output_prefix := "index"; keep_intermediates := false |} "A" suf'
             = Exits)
  ∧ (∀ id', register_index
              {| registry := [new_IndexFile "A" "a"]; registered_suffixes := ["a"];
                 output_prefix := "index"; keep_intermediates := false |} id' "a"
            = Exits).
Proof.
  assert (register_index new_registry "A" "a"
          = Returns {| registry := [new_IndexFile "A" "a"]; registered_suffixes := ["a"];
                       output_prefix := "index"; keep_intermediates := false |}) as H
    by (vm_compute; reflexivity).
  split; [exact H|].
  exact (register_index_lookup new_registry "A" "a" _ H).
Defined.

Lemma register_recipe_lookup_witness :
  register_recipe chain_registry "C" ["A"] one_file
  = Returns (with_registry chain_registry
               (alter (add_recipe ["A"] one_file) 2 (registry chain_registry)))
  ∧ (∀ i, i ∈ ["A"] → i ∈ identifiers (registry chain_registry))
  ∧ (∃ f, get_index (registry chain_registry) "C" = Returns f
          ∧ get_index (alter (add_recipe ["A"] one_file) 2 (registry chain_registry)) "C"
            = Returns (add_recipe ["A"] one_file f)
          ∧ recipes (add_recipe ["A"] one_file f)
            = recipes f ++ [ {| inputs := ["A"]; exec := one_file |} ])
  ∧ (∀ id', id' ≠ "C" →
            get_index (alter (add_recipe ["A"] one_file) 2 (registry chain_registry)) id'
            = get_index (registry chain_registry) id')
  ∧ identifiers (alter (add_recipe ["A"] one_file) 2 (registry chain_registry))
    = identifiers (registry chain_registry)
  ∧ completed_indexes (alter (add_recipe ["A"] one_file) 2 (registry chain_registry))
    = completed_indexes (registry chain_registry).
Proof.
  assert (register_recipe chain_registry "C" ["A"] one_file
          = Returns (with_registry chain_registry
                       (alter (add_recipe ["A"] one_file) 2 (registry chain_registry))))
    as H by (vm_compute; reflexivity).
  split; [exact H|].
  exact (register_recipe_lookup chain_registry "C" ["A"] one_file _ H).
Defined.

Lemma provide_lookup_witness :
  NoDup (identifiers (registry unprovided_registry))
  ∧ provide unprovided_registry "A" ["A.txt"] = Returns chain_registry
  ∧ (∃ f, get_index (registry unprovided_registry) "A" = Returns f
          ∧ get_index (registry chain_registry) "A"
            = Returns (IndexFile_provide ["A.txt"] f))
  ∧ (∀ id', id' ≠ "A" → get_index (registry chain_registry) id'
                        = get_index (registry unprovided_registry) id')
  ∧ identifiers (registry chain_registry) = identifiers (registry unprovided_registry)
  ∧ ("A" ∈ completed_indexes (registry chain_registry) ↔ ["A.txt"] ≠ []).
Proof.
  assert (NoDup (identifiers (registry unprovided_registry))) as Hnd by by_computation.
  assert (provide unprovided_registry "A" ["A.txt"] = Returns chain_registry) as H
    by (vm_compute; reflexivity).
  split; [exact Hnd|]. split; [exact H|].
  exact (provide_lookup unprovided_registry "A" ["A.txt"] chain_registry Hnd H).
Defined.

Lemma reachable_registry_ok_witness :
  reachable id "/tmp" name_hash (λ fns, fns ≠ []) chain_registry
  ∧ registry_ok chain_registry.
Proof.
  assert (reachable id "/tmp" name_hash (λ fns, fns ≠ []) chain_registry) as Hreach.
  { apply (setup_reachable ["A"; "B"; "C"] [("B", ["A"]); ("C", ["B"])] ["A"]).
    vm_compute. reflexivity. }
  split; [exact Hreach|].
  exact (reachable_registry_ok id "/tmp" name_hash (λ fns, fns ≠ []) chain_registry Hreach).
Defined.

Lemma to_dot_graph_well_formed_witness :
  wf_registry (registry chain_registry)
  ∧ (N.of_nat (length (registry chain_registry)) < size_max)%N
  ∧ (N.of_nat (total_recipes (registry chain_registry)) < size_max)%N
  ∧ to_dot_statements id 50 (registry chain_registry) ["C"] = Some (Returns chain_statements)
  ∧ to_dot id 50 (registry chain_registry) ["C"] = Some (Returns (flush chain_statements))
  ∧ dot_nodes chain_statements
    = (index_node <$> seq 0 (length (registry chain_registry)))
      ++ (recipe_node <$> seq 0 (total_recipes (registry chain_registry)))
  ∧ NoDup (dot_nodes chain_statements)
  ∧ (∀ a b, (a, b) ∈ dot_arrows chain_statements ↔
       ∃ i f j rc, registry chain_registry !! i = Some f ∧ recipes f !! j = Some rc
                   ∧ ((a = recipe_node (recipe_number (registry chain_registry) i j)
                       ∧ b = index_node i)
                      ∨ ∃ i' g, registry chain_registry !! i' = Some g
                                ∧ identifier g ∈ inputs rc
                                ∧ a = index_node i'
                                ∧ b = recipe_node (recipe_number (registry chain_registry) i j)))
  ∧ ∀ a b, (a, b) ∈ dot_arrows chain_statements →
           a ∈ dot_nodes chain_statements ∧ b ∈ dot_nodes chain_statements.
Proof.
  assert (wf_registry (registry chain_registry)) as Hwf by by_computation.
  assert (N.of_nat (length (registry chain_registry)) < size_max)%N as Hfs
    by (vm_compute; reflexivity).
  assert (N.of_nat (total_recipes (registry chain_registry)) < size_max)%N as Hrcs
    by (vm_compute; reflexivity).
  assert (to_dot_statements id 50 (registry chain_registry) ["C"]
          = Some (Returns chain_statements)) as H
    by (vm_compute; reflexivity).
  split; [exact Hwf|]. split; [exact Hfs|]. split; [exact Hrcs|]. split; [exact H|].
  exact (to_dot_graph_well_formed id 50 (registry chain_registry) ["C"] chain_statements
           Hwf Hfs Hrcs H).
Defined.

Lemma to_dot_outcomes_witness :
  (∃ text, to_dot id 50 (registry unprovided_registry) [] = Some (Returns text))
  ∧ make_plan id 50 (registry unprovided_registry) ["C"]
    = Some (Throws (InsufficientInputException "C" []))
  ∧ (∃ text, to_dot id 50 (registry unprovided_registry) ["C"] = Some (Returns text))
  ∧ wf_registry (registry unprovided_registry)
  ∧ registry_fits (registry unprovided_registry)
  ∧ (∀ l : list (string * nat), id l ≡ₚ l)
  ∧ ∀ res, to_dot id 50 (registry unprovided_registry) ["C"] = Some res →
           (∃ text, res = Returns text)
           ∨ (res = Exits ∧ ["C"] ≠ [] ∧ cyclic (registry unprovided_registry))
           ∨ (res = Undefined ∧ ["C"] ≠ [] ∧ registry unprovided_registry = []).
Proof.
  assert (make_plan id 50 (registry unprovided_registry) ["C"]
          = Some (Throws (InsufficientInputException "C" []))) as Hthrow
    by (vm_compute; reflexivity).
  assert (wf_registry (registry unprovided_registry)) as Hwf by by_computation.
  assert (registry_fits (registry unprovided_registry)) as Hfits by (vm_compute; reflexivity).
  assert (∀ l : list (string * nat), id l ≡ₚ l) as Hperm by (intros l; reflexivity).
  destruct (to_dot_outcomes id 50 (registry unprovided_registry) ["C"])
    as (Hnone & Hcatch & Hall).
  split; [exact Hnone|]. split; [exact Hthrow|]. split; [exact (Hcatch "C" [] Hthrow)|].
  split; [exact Hwf|]. split; [exact Hfits|]. split; [exact Hperm|].
  exact (Hall Hwf Hfits Hperm).
Defined.

Lemma plan_is_union_of_single_plans_witness :
  (∀ l : list (string * nat), id l ≡ₚ l)
  ∧ make_plan id 50 (registry chain_registry) ["B"; "C"] = Some (Returns [("B", 0); ("C", 0)])
  ∧ ∀ c, c ∈ [("B", 0); ("C", 0)] ↔
      ∃ T single, T ∈ ["B"; "C"]
                  ∧ make_plan id 50 (registry chain_registry) [T] = Some (Returns single)
                  ∧ c ∈ single.
Proof.
  assert (∀ l : list (string * nat), id l ≡ₚ l) as Hperm by (intros l; reflexivity).
  assert (make_plan id 50 (registry chain_registry) ["B"; "C"]
          = Some (Returns [("B", 0); ("C", 0)])) as Hrun by (vm_compute; reflexivity).
  split; [exact Hperm|]. split; [exact Hrun|].
  exact (plan_is_union_of_single_plans id Hperm 50 (registry chain_registry) ["B"; "C"]
           [("B", 0); ("C", 0)] Hrun).
Defined.
